(** * blade_design_tool.py: the blade geometry transform pipeline

    A shallow embedding of [src/blade_design_tool.py]: the script loads a
    reference blade (an [ae.dat] element table and the twist sub-table of an
    [.htc] file), builds the [geo_mat] array, copies it to [working_mat],
    applies the enabled blade modifiers to [working_mat] in place, and
    rewrites copies of the two files.

    NumPy [float64] values are Rocq's primitive binary64 floats.  NumPy
    arrays that the script mutates live in an explicit heap, so that aliasing
    between [geo_mat] and [working_mat] is visible.  Python exceptions are
    results carrying the name of the exception class. *)

From Stdlib Require Import ZArith Floats Bool Lia Ascii String DecimalString.
From stdpp Require Import base option list gmap strings.

Set Warnings "-inexact-float".
Local Open Scope float_scope.

(** ** Binary64 helpers *)

Module F64.

(** Classification through the specification floats. *)
Definition is_zero (x : float) : bool :=
  match Prim2SF x with S754_zero _ => true | _ => false end.

Definition finite (x : float) : bool :=
  match Prim2SF x with
  | S754_zero _ | S754_finite _ _ _ => true
  | _ => false
  end.

(** Two floats denote the same number when they are the same float, or
    both are zeros (which may differ in sign only). *)
Definition same_number (x y : float) : Prop :=
  x = y \/ (is_zero x = true /\ is_zero y = true).

(** [np.pi] *)
Definition pi : float := 0x1.921fb54442d18p+1.

End F64.

(** ** Python results and the heap of arrays *)

(** An exception is identified by the name of its class. *)
Definition exn := string.

Inductive result (A : Type) : Type :=
| Ok (a : A)
| Raise (e : exn).
Arguments Ok {A} a.
Arguments Raise {A} e.

(** Columns of [geo_mat] and [working_mat]: 0 radius, 1 twist, 2 chord,
    3 relative thickness. *)
Inductive col := C0 | C1 | C2 | C3.

Record row := Row { radius : float; twist : float; chord : float; rel_thickness : float }.

Definition get_col (c : col) (r : row) : float :=
  match c with
  | C0 => radius r
  | C1 => twist r
  | C2 => chord r
  | C3 => rel_thickness r
  end.

Definition set_col (c : col) (v : float) (r : row) : row :=
  match c with
  | C0 => Row v (twist r) (chord r) (rel_thickness r)
  | C1 => Row (radius r) v (chord r) (rel_thickness r)
  | C2 => Row (radius r) (twist r) v (rel_thickness r)
  | C3 => Row (radius r) (twist r) (chord r) v
  end.

(** An N x 4 array. *)
Abbreviation matrix := (list row).

Abbreviation loc := positive.

(** The arrays that are allocated, by address. *)
Abbreviation heap := (gmap loc matrix).

(** Computations that read and write a state and may raise. *)
Definition ST (S A : Type) : Type := S -> S * result A.

Definition ret {S A} (a : A) : ST S A := fun s => (s, Ok a).

Definition raise {S A} (e : exn) : ST S A := fun s => (s, Raise e).

Definition bind {S A B} (m : ST S A) (k : A -> ST S B) : ST S B :=
  fun s =>
    match m s with
    | (s', Ok a) => k a s'
    | (s', Raise e) => (s', Raise e)
    end.

(** The computations on arrays. *)
Abbreviation M := (ST heap).

Declare Scope py_scope.
Delimit Scope py_scope with py.
Notation "x <- m ;; k" := (bind m (fun x => k))
  (at level 100, m at next level, right associativity) : py_scope.
Notation "m ;;; k" := (bind m (fun _ => k))
  (at level 100, right associativity) : py_scope.
Local Open Scope py_scope.

(** [a.copy()]: a fresh array with the same contents. *)
Definition copy (a : loc) : M loc :=
  fun h =>
    match h !! a with
    | Some m => let b := fresh (dom h) in (<[b := m]> h, Ok b)
    | None => (h, Raise "NameError")
    end.

(** [a[i, c]] *)
Definition mat_get (a : loc) (i : nat) (c : col) : M float :=
  fun h =>
    match h !! a with
    | Some m =>
        match m !! i with
        | Some r => (h, Ok (get_col c r))
        | None => (h, Raise "IndexError")
        end
    | None => (h, Raise "NameError")
    end.

(** [a[i, c] = v] *)
Definition mat_set (a : loc) (i : nat) (c : col) (v : float) : M unit :=
  fun h =>
    match h !! a with
    | Some m =>
        match m !! i with
        | Some r => (<[a := <[i := set_col c v r]> m]> h, Ok tt)
        | None => (h, Raise "IndexError")
        end
    | None => (h, Raise "NameError")
    end.

(** [l[i]] on an immutable sequence (a Python list, or an array that is
    never written after it is built). *)
Definition item (l : list float) (i : nat) : M float :=
  match l !! i with
  | Some v => ret v
  | None => raise "IndexError"
  end.

(** [i = i0; for x in l: body(i, x); i += 1] *)
Fixpoint for_in {A} (body : nat -> A -> M unit) (i : nat) (l : list A) : M unit :=
  match l with
  | [] => ret tt
  | x :: l' => body i x ;;; for_in body (S i) l'
  end.

(** ** The blade modifiers (lines 71-154) *)

Section Modifiers.

(** [np.cos] on a scalar. *)
Variable cos : float -> float.

Variable radius_nd : list float.
Variable working_mat : loc.

(** Lines 79-89: linearly changing addition to chord length. *)
Definition root_linear_chord_addition (chord_addition changes_until : float) : M unit :=
  let linear_multiplier := (fun r => r - 1.0) <$> radius_nd in
  for_in (fun i radius =>
    if radius <=? changes_until then
      c <- mat_get working_mat i C2 ;;
      m <- item linear_multiplier i ;;
      mat_set working_mat i C2 (c - chord_addition * m)
    else ret tt) 0 radius_nd.

(** Lines 92-102: negative cosine alteration to chord length, at the tip. *)
Definition tip_cos_chord_addition (chord_addition changes_from : float) : M unit :=
  let ncos_multiplier := (fun r => - cos (r * F64.pi)) <$> radius_nd in
  for_in (fun i radius =>
    if changes_from <=? radius then
      c <- mat_get working_mat i C2 ;;
      m <- item ncos_multiplier i ;;
      mat_set working_mat i C2 (c + chord_addition * m)
    else ret tt) 0 radius_nd.

(** [a + b] on one-dimensional arrays, with NumPy's broadcasting of an
    array of length one. *)
Definition broadcast2 (f : float -> float -> float) (a b : list float) : M (list float) :=
  if decide (length a = length b) then ret (zip_with f a b)
  else match a, b with
       | [x], _ => ret (f x <$> b)
       | _, [y] => ret ((fun x => f x y) <$> a)
       | _, _ => raise "ValueError"
       end.

(** [a[:, c]] used as a value. *)
Definition col_get (a : loc) (c : col) : M (list float) :=
  fun h =>
    match h !! a with
    | Some m => (h, Ok (get_col c <$> m))
    | None => (h, Raise "NameError")
    end.

(** [a[:, c] = vals] *)
Definition col_set (a : loc) (c : col) (vals : list float) : M unit :=
  fun h =>
    match h !! a with
    | Some m =>
        if decide (length vals = length m) then
          (<[a := zip_with (set_col c) vals m]> h, Ok tt)
        else match vals with
             | [v] => (<[a := set_col c v <$> m]> h, Ok tt)
             | _ => (h, Raise "ValueError")
             end
    | None => (h, Raise "NameError")
    end.

(** Lines 105-110: negative cosine alteration to chord length, along the
    blade. *)
Definition cos_chord_addition (chord_addition : float) : M unit :=
  let ncos_multiplier := (fun r => - cos (r * F64.pi)) <$> radius_nd in
  old <- col_get working_mat C2 ;;
  new <- broadcast2 PrimFloat.add old ((fun m => chord_addition * m) <$> ncos_multiplier) ;;
  col_set working_mat C2 new.

(** Lines 113-123: blade root twist. *)
Definition twist_the_root (twist_addition changes_until : float) : M unit :=
  let linear_multiplier := (fun r => - (r - 1.0)) <$> radius_nd in
  for_in (fun i radius =>
    if radius <=? changes_until then
      t <- mat_get working_mat i C1 ;;
      m <- item linear_multiplier i ;;
      mat_set working_mat i C1 (t + twist_addition * m)
    else ret tt) 0 radius_nd.

(** Lines 127-144: manual twisting of the root.  [manual_multiplier] is a
    Python list, indexed by the section index [i]. *)
Definition supertwist_the_root (manual_multiplier : list float)
    (twist_addition changes_until : float) : M unit :=
  for_in (fun i radius =>
    if radius <=? changes_until then
      t <- mat_get working_mat i C1 ;;
      m <- item manual_multiplier i ;;
      mat_set working_mat i C1 (t + twist_addition * m)
    else ret tt) 0 radius_nd.

(** Lines 147-154: make the root of the blade use a cylindrical airfoil. *)
Definition make_root_cylindrical (changes_until : float) : M unit :=
  for_in (fun i radius =>
    if radius <=? changes_until then mat_set working_mat i C3 100.0
    else ret tt) 0 radius_nd.

End Modifiers.

(** The switches of the modifier blocks and the constants each block sets.
    The script hardcodes them; [script_params] are its values. *)
Record params := Params {
  root_linear_on : bool;
  root_linear_chord_addition_ : float;
  root_linear_changes_until : float;
  tip_cos_on : bool;
  tip_cos_chord_addition_ : float;
  tip_cos_changes_from : float;
  cos_on : bool;
  cos_chord_addition_ : float;
  twist_on : bool;
  twist_twist_addition : float;
  twist_changes_until : float;
  supertwist_on : bool;
  manual_multiplier : list float;
  supertwist_twist_addition : float;
  supertwist_changes_until : float;
  cylindrical_on : bool;
  cylindrical_changes_until : float
}.

Definition script_params : params := {|
  root_linear_on := true;
  root_linear_chord_addition_ := -1.0;
  root_linear_changes_until := 0.25;
  tip_cos_on := false;
  tip_cos_chord_addition_ := -0.5;
  tip_cos_changes_from := 0.6;
  cos_on := false;
  cos_chord_addition_ := 1.0;
  twist_on := false;
  twist_twist_addition := -13.0;
  twist_changes_until := 0.25;
  supertwist_on := true;
  manual_multiplier :=
    [1; 0.80; 0.81; 0.79; 0.55; 0.61; 0.50; 0.45; 0.39; 0.34; 0.32; 0.31; 0.30];
  supertwist_twist_addition := -64.0;
  supertwist_changes_until := 0.25;
  cylindrical_on := false;
  cylindrical_changes_until := 0.25
|}.

(** [if flag: block] *)
Definition when (flag : bool) (block : M unit) : M unit :=
  if flag then block else ret tt.

(** Lines 79-154: the modifier blocks, in the order of the script. *)
Definition modifiers (cos : float -> float) (p : params)
    (radius_nd : list float) (working_mat : loc) : M unit :=
  when (root_linear_on p)
    (root_linear_chord_addition radius_nd working_mat
       (root_linear_chord_addition_ p) (root_linear_changes_until p)) ;;;
  when (tip_cos_on p)
    (tip_cos_chord_addition cos radius_nd working_mat
       (tip_cos_chord_addition_ p) (tip_cos_changes_from p)) ;;;
  when (cos_on p)
    (cos_chord_addition cos radius_nd working_mat (cos_chord_addition_ p)) ;;;
  when (twist_on p)
    (twist_the_root radius_nd working_mat
       (twist_twist_addition p) (twist_changes_until p)) ;;;
  when (supertwist_on p)
    (supertwist_the_root radius_nd working_mat (manual_multiplier p)
       (supertwist_twist_addition p) (supertwist_changes_until p)) ;;;
  when (cylindrical_on p)
    (make_root_cylindrical radius_nd working_mat (cylindrical_changes_until p)).

(** Lines 59-60: [R = geo_mat[:, 0][-1]; radius_nd = geo_mat[:, 0] / R]. *)
Definition normalise (m : matrix) : result (list float) :=
  match last (radius <$> m) with
  | Some R => Ok ((fun r => r / R) <$> (radius <$> m))
  | None => Raise "IndexError"
  end.

Definition get_radius_nd (geo_mat : loc) : M (list float) :=
  fun h =>
    match h !! geo_mat with
    | Some m => (h, normalise m)
    | None => (h, Raise "NameError")
    end.

(** Lines 59-154: the design change on a loaded [geo_mat]; returns the
    address of [working_mat]. *)
Definition change_design (cos : float -> float) (p : params) (geo_mat : loc) : M loc :=
  radius_nd <- get_radius_nd geo_mat ;;
  working_mat <- copy geo_mat ;;
  modifiers cos p radius_nd working_mat ;;;
  ret working_mat.


(** ** [np.interp] (NumPy's [arr_interp] and [binary_search_with_guess]) *)

Module NumPy.

(** [arr[k]], for an index that the C code keeps in range. *)
Definition at_ (arr : list float) (k : Z) : float := nth (Z.to_nat k) arr nan.

Definition LIKELY_IN_CACHE_SIZE : Z := 8.

(** [for (i = 1; i < len && key >= arr[i]; ++i); return i - 1;] on the
    elements [arr[1:]]: the number of leading ones that [key] is
    [>=]. *)
Fixpoint linear_search (key : float) (rest : list float) : Z :=
  match rest with
  | [] => 0
  | a :: rest' => if a <=? key then (1 + linear_search key rest')%Z else 0%Z
  end.

(** [while (imin < imax) { imid = imin + ((imax - imin) >> 1);
    if (key >= arr[imid]) imin = imid + 1; else imax = imid; }].  The
    interval shrinks at every turn, so [imax - imin] turns are enough. *)
Fixpoint bisect (fuel : nat) (key : float) (arr : list float) (imin imax : Z) : Z :=
  match fuel with
  | O => imin
  | S fuel' =>
      if (imin <? imax)%Z then
        let imid := (imin + Z.shiftr (imax - imin) 1)%Z in
        if at_ arr imid <=? key then bisect fuel' key arr (imid + 1) imax
        else bisect fuel' key arr imin imid
      else imin
  end.

Definition binary_search_with_guess (key : float) (arr : list float) (guess : Z) : Z :=
  let len := Z.of_nat (length arr) in
  if at_ arr (len - 1) <? key then len
  else if key <? at_ arr 0 then (-1)%Z
  else if (len <=? 4)%Z then linear_search key (tail arr)
  else
    let guess := if (guess >? len - 3)%Z then (len - 3)%Z else guess in
    let guess := if (guess <? 1)%Z then 1%Z else guess in
    let search imin imax :=
      (bisect (Z.to_nat (imax - imin)) key arr imin imax - 1)%Z in
    if key <? at_ arr guess then
      if key <? at_ arr (guess - 1) then
        let imax := (guess - 1)%Z in
        if (guess >? LIKELY_IN_CACHE_SIZE)%Z
           && (at_ arr (guess - LIKELY_IN_CACHE_SIZE) <=? key)
        then search (guess - LIKELY_IN_CACHE_SIZE)%Z imax
        else search 0%Z imax
      else (guess - 1)%Z
    else
      if key <? at_ arr (guess + 1) then guess
      else if key <? at_ arr (guess + 2) then (guess + 1)%Z
      else
        let imin := (guess + 2)%Z in
        if (guess <? len - LIKELY_IN_CACHE_SIZE - 1)%Z
           && (key <? at_ arr (guess + LIKELY_IN_CACHE_SIZE))
        then search imin (guess + LIKELY_IN_CACHE_SIZE)%Z
        else search imin len.

(** The value at [x_val] on the line through the sample points [j] and
    [j + 1]; [slope*(x_val - dx[j]) + dy[j]], and when that is [nan] the same
    from the other end, and when that is [nan] too and the two values are
    equal, that value. *)
Definition segment (dx dy : list float) (j : Z) (x_val : float) : float :=
  let slope := (at_ dy (j + 1) - at_ dy j) / (at_ dx (j + 1) - at_ dx j) in
  let res := slope * (x_val - at_ dx j) + at_ dy j in
  if is_nan res then
    let res := slope * (x_val - at_ dx (j + 1)) + at_ dy (j + 1) in
    if is_nan res && (at_ dy j =? at_ dy (j + 1)) then at_ dy j
    else res
  else res.

(** One turn of the loop of [arr_interp] for more than one sample point:
    the result for [x_val] and the index found, which is the guess of the
    next turn. *)
Definition interp_point (lval rval : float) (dx dy : list float) (j : Z)
    (x_val : float) : float * Z :=
  let lenxp := Z.of_nat (length dx) in
  if is_nan x_val then (x_val, j)
  else
    let j := binary_search_with_guess x_val dx j in
    if (j =? -1)%Z then (lval, j)
    else if (j =? lenxp)%Z then (rval, j)
    else if (j =? lenxp - 1)%Z then (at_ dy j, j)
    else if at_ dx j =? x_val then (at_ dy j, j)
    else (segment dx dy j x_val, j).

Fixpoint interp_loop (lval rval : float) (dx dy : list float) (j : Z)
    (dz : list float) : list float :=
  match dz with
  | [] => []
  | x_val :: dz' =>
      let '(res, j') := interp_point lval rval dx dy j x_val in
      res :: interp_loop lval rval dx dy j' dz'
  end.

(** The case of one sample point:
    [(x_val < xp_val) ? lval : ((x_val > xp_val) ? rval : fp_val)]. *)
Definition interp_single (lval rval xp_val fp_val : float) (x_val : float) : float :=
  if x_val <? xp_val then lval
  else if xp_val <? x_val then rval
  else fp_val.

(** [np.interp(x, xp, fp)] with the default [left], [right] and [period]:
    [lval = dy[0]] and [rval = dy[lenxp - 1]]. *)
Definition interp (x xp fp : list float) : result (list float) :=
  match xp with
  | [] => Raise "ValueError"
  | xp_val :: xp' =>
      if negb (length fp =? length xp)%nat then Raise "ValueError"
      else
        let lval := at_ fp 0 in
        let rval := at_ fp (Z.of_nat (length xp) - 1) in
        match xp' with
        | [] => Ok (interp_single lval rval xp_val (at_ fp 0) <$> x)
        | _ => Ok (interp_loop lval rval xp fp 0 x)
        end
  end.

End NumPy.

(** ** Building [geo_mat] (lines 32-56) *)

(** [a = np.zeros([n, 4])] *)
Definition zeros (n : nat) : M loc :=
  fun h => let a := fresh (dom h) in (<[a := replicate n (Row 0 0 0 0)]> h, Ok a).

(** Lines 33-56, from the values [np.loadtxt] and [np.genfromtxt] returned:
    the rows (radius, chord, relative thickness) of the [ae.dat] file and the
    rows (radius, twist) of the twist sub-table. *)
Definition build_geo_mat (ae_data : list (float * float * float))
    (twist_table : list (float * float)) : M loc :=
  let radius := (fun r => r.1.1) <$> ae_data in
  let chord := (fun r => r.1.2) <$> ae_data in
  let rel_thickness := (fun r => r.2) <$> ae_data in
  let N := length radius in
  geo_mat <- zeros N ;;
  col_set geo_mat C0 radius ;;;
  x <- col_get geo_mat C0 ;;
  match NumPy.interp x (fst <$> twist_table) (snd <$> twist_table) with
  | Raise e => raise e
  | Ok tw =>
      col_set geo_mat C1 tw ;;;
      col_set geo_mat C2 chord ;;;
      col_set geo_mat C3 rel_thickness ;;;
      ret geo_mat
  end.

(** Line 164: [htc_twist = np.interp(twist_radii, working_mat[:, 0],
    working_mat[:, 1])]. *)
Definition get_htc_twist (twist_radii : list float) (working_mat : loc) : M (list float) :=
  xp <- col_get working_mat C0 ;;
  fp <- col_get working_mat C1 ;;
  match NumPy.interp twist_radii xp fp with
  | Raise e => raise e
  | Ok v => ret v
  end.

(** ** Floats as text: [str(x)] and [float(s)] *)

Module FloatText.

(** The binary64 nearest to [a / b], for positive [a] and [b]. *)
Definition nearest (a b : positive) : float :=
  SF2Prim (SFdiv prec emax (S754_finite false a 0) (S754_finite false b 0)).

Definition pow10 (k : Z) : positive := Z.to_pos (10 ^ k).

(** The binary64 nearest to [m * 10 ^ e10], with the sign [neg]. *)
Definition of_decimal (neg : bool) (m : Z) (e10 : Z) : float :=
  match m with
  | Zpos p =>
      let v := if (0 <=? e10)%Z then nearest (p * pow10 e10) 1
               else nearest p (pow10 (- e10)) in
      if neg then - v else v
  | _ => if neg then (-0)%float else 0
  end.

(** [10 ^ k <= a / b] *)
Definition ge_pow10 (a b : positive) (k : Z) : bool :=
  if (0 <=? k)%Z then (pow10 k * b <=? a)%positive
  else (b <=? a * pow10 (- k))%positive.

Fixpoint log10_up (fuel : nat) (a b : positive) (k : Z) : Z :=
  match fuel with
  | O => k
  | S fuel' => if ge_pow10 a b (k + 1) then log10_up fuel' a b (k + 1) else k
  end.

(** The largest [k] with [10 ^ k <= a / b], from an estimate below it. *)
Definition log10_floor (a b : positive) : Z :=
  let l2 := (Z.log2 (Zpos a) - Z.log2 (Zpos b) - 1)%Z in
  log10_up 8 a b ((l2 * 30103) / 100000 - 1)%Z.

(** The decimal [D * 10 ^ p] of [n] digits nearest to [a / b] among those
    that read back as [x], if there is one. *)
Definition candidate (x : float) (a b : positive) (k : Z) (n : Z) : option (Z * Z) :=
  let p := (k - n + 1)%Z in
  let num := if (0 <=? p)%Z then Zpos a else Zpos (a * pow10 (- p)) in
  let den := if (0 <=? p)%Z then Zpos (b * pow10 p) else Zpos b in
  let lo := (num / den)%Z in
  let hi := (lo + 1)%Z in
  let r := (num - lo * den)%Z in
  let ok_lo := of_decimal false lo p =? x in
  let ok_hi := of_decimal false hi p =? x in
  let lo_nearer := (2 * r <? den)%Z || ((2 * r =? den)%Z && Z.even lo) in
  if ok_lo && (lo_nearer || negb ok_hi) then Some (lo, p)
  else if ok_hi then Some (hi, p)
  else None.

(** The shortest such decimal, trying 1, 2, ... digits; 17 always do. *)
Fixpoint shortest (fuel : nat) (x : float) (a b : positive) (k : Z) (n : Z) : Z * Z :=
  match fuel with
  | O => (0, 0)%Z
  | S fuel' =>
      match candidate x a b k n with
      | Some c => c
      | None => shortest fuel' x a b k (n + 1)
      end
  end.

Fixpoint rstrip_zeros (s : string) : string :=
  match s with
  | "" => ""
  | String c s' =>
      let t := rstrip_zeros s' in
      if (String.eqb t "" && Ascii.eqb c "0"%char)%bool then "" else String c t
  end.

Fixpoint zeros (n : nat) : string :=
  match n with O => "" | S n' => String "0"%char (zeros n') end.

Definition digits_of (z : Z) : string :=
  NilZero.string_of_uint (N.to_uint (Z.to_N z)).

(** The layout of Python's [repr] of a float with the significant digits
    [ds], the decimal point standing after [decpt] of them. *)
Definition layout (ds : string) (decpt : Z) : string :=
  if ((-4 <? decpt) && (decpt <=? 16))%Z then
    if (decpt <=? 0)%Z then "0." ++ zeros (Z.to_nat (- decpt)) ++ ds
    else if (decpt <? Z.of_nat (String.length ds))%Z then
      substring 0 (Z.to_nat decpt) ds ++ "." ++
      substring (Z.to_nat decpt) (String.length ds - Z.to_nat decpt) ds
    else ds ++ zeros (Z.to_nat decpt - String.length ds) ++ ".0"
  else
    let e := (decpt - 1)%Z in
    let mant :=
      match ds with
      | String d "" => String d ""
      | String d rest => String d ("." ++ rest)
      | "" => ""
      end in
    let edigits := digits_of (Z.abs e) in
    mant ++ "e" ++ (if (e <? 0)%Z then "-" else "+") ++
    (if (String.length edigits <? 2)%nat then "0" ++ edigits else edigits).

(** [str(x)] of a NumPy [float64]: the shortest decimal that reads back as
    [x], laid out as Python's [repr] of a float. *)
Definition str (x : float) : string :=
  match Prim2SF x with
  | S754_nan => "nan"
  | S754_infinity s => if s then "-inf" else "inf"
  | S754_zero s => if s then "-0.0" else "0.0"
  | S754_finite s m e =>
      let a := if (0 <=? e)%Z then (m * Z.to_pos (2 ^ e))%positive else m in
      let b := if (0 <=? e)%Z then 1%positive else Z.to_pos (2 ^ (- e)) in
      let k := log10_floor a b in
      let '(D, p) := shortest 17 (abs x) a b k 1 in
      let all := digits_of D in
      let decpt := (Z.of_nat (String.length all) + p)%Z in
      (if s then "-" else "") ++ layout (rstrip_zeros all) decpt
  end.

Definition is_digit (c : ascii) : bool :=
  let n := nat_of_ascii c in (48 <=? n)%nat && (n <=? 57)%nat.

(** The leading decimal digits of [s]: their value appended to [acc],
    their number added to [n], and what follows them. *)
Fixpoint digits (s : string) (acc : Z) (n : nat) : Z * nat * string :=
  match s with
  | String c s' =>
      if is_digit c
      then digits s' (10 * acc + Z.of_nat (nat_of_ascii c - 48))%Z (S n)
      else (acc, n, s)
  | "" => (acc, n, s)
  end.

Definition sign (s : string) : bool * string :=
  match s with
  | String "-" s' => (true, s')
  | String "+" s' => (false, s')
  | _ => (false, s)
  end.

Definition lower (c : ascii) : ascii :=
  let n := nat_of_ascii c in
  if (65 <=? n)%nat && (n <=? 90)%nat then ascii_of_nat (n + 32) else c.

Fixpoint lowercase (s : string) : string :=
  match s with
  | "" => ""
  | String c s' => String (lower c) (lowercase s')
  end.

(** [float(s)] on a string without surrounding whitespace: a decimal
    numeral with an optional fraction and exponent, or [inf], [infinity]
    or [nan]; [None] stands for [ValueError]. *)
Definition float_of_str (s : string) : option float :=
  let '(neg, body) := sign s in
  let name := lowercase body in
  if (String.eqb name "inf" || String.eqb name "infinity")%bool
  then Some (if neg then neg_infinity else infinity)
  else if String.eqb name "nan" then Some nan
  else
    let '(ip, ni, r1) := digits body 0 0 in
    let '(m, nf, r2) :=
      match r1 with
      | String "." r => digits r ip 0
      | _ => (ip, 0%nat, r1)
      end in
    if (ni + nf =? 0)%nat then None
    else
      match r2 with
      | "" => Some (of_decimal neg m (- Z.of_nat nf))
      | String c r =>
          if (Ascii.eqb c "e" || Ascii.eqb c "E")%bool then
            let '(eneg, r3) := sign r in
            let '(e, ne, r4) := digits r3 0 0 in
            if (ne =? 0)%nat then None
            else match r4 with
                 | "" => Some (of_decimal neg m
                                 ((if eneg then - e else e) - Z.of_nat nf))
                 | _ => None
                 end
          else None
      end.

End FloatText.

(** ** Python strings *)

Module PyStr.

(** [c.isspace()] for a character of the ASCII range. *)
Definition isspace (c : ascii) : bool :=
  let n := nat_of_ascii c in
  ((9 <=? n) && (n <=? 13) || (28 <=? n) && (n <=? 32))%nat.

Fixpoint lstrip (s : string) : string :=
  match s with
  | String c s' => if isspace c then lstrip s' else s
  | "" => ""
  end.

Fixpoint rstrip (s : string) : string :=
  match s with
  | "" => ""
  | String c s' =>
      let t := rstrip s' in
      if (String.eqb t "" && isspace c)%bool then "" else String c t
  end.

(** [s.strip()] *)
Definition strip (s : string) : string := rstrip (lstrip s).

(** [s.split(sep)] for a separator of one character. *)
Fixpoint split (sep : ascii) (s : string) : list string :=
  match s with
  | "" => [""]
  | String c s' =>
      if Ascii.eqb c sep then "" :: split sep s'
      else match split sep s' with
           | f :: fs => String c f :: fs
           | [] => [String c ""]
           end
  end.

(** [s.split()]: the maximal runs of characters that are not whitespace;
    [cur] is the run being read, reversed. *)
Fixpoint split_ws_from (cur : list ascii) (s : string) : list string :=
  let flush := match cur with
               | [] => []
               | _ => [string_of_list_ascii (rev cur)]
               end in
  match s with
  | "" => flush
  | String c s' =>
      if isspace c then flush ++ split_ws_from [] s'
      else split_ws_from (c :: cur) s'
  end.

Definition split_ws (s : string) : list string := split_ws_from [] s.

(** [sep.join(l)] *)
Fixpoint join (sep : string) (l : list string) : string :=
  match l with
  | [] => ""
  | [x] => x
  | x :: l' => x ++ sep ++ join sep l'
  end.

(** [sub in s] *)
Fixpoint contains (sub s : string) : bool :=
  String.prefix sub s ||
  match s with
  | "" => false
  | String _ s' => contains sub s'
  end.

(** The part of [s] before the first [c]: what is left of a line when a
    comment that starts with [c] is cut off. *)
Fixpoint before (c : ascii) (s : string) : string :=
  match s with
  | "" => ""
  | String c' s' => if Ascii.eqb c' c then "" else String c' (before c s')
  end.

(** [x in l] for a list of strings. *)
Definition mem (x : string) (l : list string) : bool :=
  existsb (String.eqb x) l.

(** [l.remove(x)], when [x in l]: the first [x] is dropped. *)
Fixpoint remove (x : string) (l : list string) : list string :=
  match l with
  | [] => []
  | y :: l' => if String.eqb x y then l' else y :: remove x l'
  end.

(** [l[i] = v] *)
Definition setitem (l : list string) (i : nat) (v : string) : result (list string) :=
  if (i <? length l)%nat then Ok (<[i := v]> l) else Raise "IndexError".

(** [f.readlines()]: the lines with their newline; the last line may lack
    one.  [cur] is the line being read, reversed. *)
Fixpoint readlines_from (cur : list ascii) (s : string) : list string :=
  match s with
  | "" => match cur with
          | [] => []
          | _ => [string_of_list_ascii (rev cur)]
          end
  | String c s' =>
      if Ascii.eqb c "010"%char
      then string_of_list_ascii (rev (c :: cur)) :: readlines_from [] s'
      else readlines_from (c :: cur) s'
  end.

Definition readlines (s : string) : list string := readlines_from [] s.

(** What [f.writelines(content)] writes. *)
Definition writelines (content : list string) : string := String.concat "" content.

End PyStr.

(** ** Reading the tables: [np.loadtxt] and [np.genfromtxt] *)

(** [x <- r; k x] on results. *)
Definition rbind {A B} (r : result A) (k : A -> result B) : result B :=
  match r with
  | Ok a => k a
  | Raise e => Raise e
  end.

Module NumPyIO.

(** The columns of a data line: the comment is cut off and what is left is
    split at whitespace. *)
Definition columns (comment : ascii) (line : string) : list string :=
  PyStr.split_ws (PyStr.before comment line).

(** The rows of [np.loadtxt(..., usecols=(0, 1, 2))] from the lines after
    the skipped ones: lines without a column are passed over, a row
    without the three columns or with a column that is no number is a
    [ValueError]. *)
Fixpoint loadtxt_rows (lines : list string) : result (list (float * float * float)) :=
  match lines with
  | [] => Ok []
  | line :: lines' =>
      match columns "#" line with
      | [] => loadtxt_rows lines'
      | c0 :: c1 :: c2 :: _ =>
          match FloatText.float_of_str c0, FloatText.float_of_str c1,
                FloatText.float_of_str c2 with
          | Some a, Some b, Some c =>
              rbind (loadtxt_rows lines') (fun rows => Ok ((a, b, c) :: rows))
          | _, _, _ => Raise "ValueError"
          end
      | _ => Raise "ValueError"
      end
  end.

(** [np.loadtxt(fname, skiprows=skiprows, usecols=(0, 1, 2))] on the text
    of the file. *)
Definition loadtxt (skiprows : nat) (text : string) : result (list (float * float * float)) :=
  loadtxt_rows (drop skiprows (PyStr.readlines text)).

(** A column that is no number reads as [nan]. *)
Definition loose_float (s : string) : float :=
  match FloatText.float_of_str s with
  | Some v => v
  | None => nan
  end.

(** The rows of [np.genfromtxt(..., usecols=(4, 5), comments=";")], at most
    [max_rows] of them: lines without a column are passed over, a row
    without the six columns is a [ValueError]. *)
Fixpoint genfromtxt_rows (max_rows : nat) (lines : list string) : result (list (float * float)) :=
  match lines with
  | [] => Ok []
  | line :: lines' =>
      match max_rows with
      | O => Ok []
      | S max_rows' =>
          match columns ";" line with
          | [] => genfromtxt_rows max_rows lines'
          | _ :: _ :: _ :: _ :: c4 :: c5 :: _ =>
              rbind (genfromtxt_rows max_rows' lines')
                (fun rows => Ok ((loose_float c4, loose_float c5) :: rows))
          | _ => Raise "ValueError"
          end
      end
  end.

(** [np.genfromtxt(fname, skip_header=skip_header, max_rows=max_rows,
    usecols=(4, 5), comments=";")] on the text of the file. *)
Definition genfromtxt (skip_header max_rows : nat) (text : string) : result (list (float * float)) :=
  genfromtxt_rows max_rows (drop skip_header (PyStr.readlines text)).

(** [a[:, 0]] needs two dimensions: both readers return a one-dimensional
    array when there are fewer than two rows. *)
Definition two_dimensional {A} (rows : list A) : result unit :=
  match rows with
  | _ :: _ :: _ => Ok tt
  | _ => Raise "IndexError"
  end.

End NumPyIO.

(** ** Files *)

(** The files on disk, by path, with their text, and the paths that cannot
    be written. *)
Record fs := FS { files : gmap string string; locked : gset string }.

Abbreviation IO := (ST fs).

(** [open(path, 'r')] and reading the text. *)
Definition read_text (path : string) : IO string :=
  fun d =>
    match files d !! path with
    | Some s => (d, Ok s)
    | None => (d, Raise "FileNotFoundError")
    end.

(** [open(path, 'w')] and writing the text: the file is created or
    replaced. *)
Definition write_text (path : string) (s : string) : IO unit :=
  fun d =>
    if decide (path ∈ locked d) then (d, Raise "PermissionError")
    else (FS (<[path := s]> (files d)) (locked d), Ok tt).

(** [open(path, 'r+')] and reading the text: the file must exist and be
    writable. *)
Definition read_text_rw (path : string) : IO string :=
  fun d =>
    if decide (path ∈ locked d) then (d, Raise "PermissionError")
    else read_text path d.

(** [shutil.copy(src, dst)]; copying a file onto itself is refused. *)
Definition shutil_copy (src dst : string) : IO unit :=
  s <- read_text src ;;
  if decide (src = dst) then raise "SameFileError" else write_text dst s.

(** [try: body except: handler] *)
Definition try_except {S A} (body handler : ST S A) : ST S A :=
  fun s =>
    match body s with
    | (s', Raise _) => handler s'
    | r => r
    end.

(** ** The script *)

(** The arrays and the disk. *)
Record world := World { arrays : heap; disk : fs }.

Definition on_arrays {A} (c : M A) : ST world A :=
  fun w => let '(h, r) := c (arrays w) in (World h (disk w), r).

Definition on_disk {A} (c : IO A) : ST world A :=
  fun w => let '(d, r) := c (disk w) in (World (arrays w) d, r).

Definition lift {S A} (r : result A) : ST S A := fun s => (s, r).

Definition tab : string := String "009"%char "".
Definition nl : string := String "010"%char "".

(** The names and positions the script fixes (lines 21-43 and 168-169), and
    the bytes [fig.savefig] writes. *)
Record settings := Settings {
  design_name : string;
  ae_file_pathname : string;
  htc_file_pathname : string;
  directory : string;
  htc_start_line : nat;
  max_rows : nat;
  n_sec : nat;
  ae_start_line : nat;
  figure : string
}.

Definition script_directory : string :=
  "D:\AE EWEM MSc\T H E S I S\6_code\code repository\my_dtu_10mw\".

Definition script_settings (figure : string) : settings := {|
  design_name := "WDR_10_MW";
  ae_file_pathname := script_directory ++ "data\DTU_10MW_RWT_ae.dat";
  htc_file_pathname := script_directory ++ "DTU_10MW_rigid_hawc2s_flattened.htc";
  directory := script_directory;
  htc_start_line := 110;
  max_rows := 27;
  n_sec := 27;
  ae_start_line := 2;
  figure := figure
|}.

Section Script.

Variable cos : float -> float.
Variable p : params.
Variable st : settings.

Definition htc_end_line : nat := htc_start_line st + n_sec st.

Definition new_htc_filename : string := directory st ++ design_name st ++ ".htc".
Definition new_ae_filename : string :=
  directory st ++ "data\" ++ design_name st ++ "_ae.dat".
Definition plot_filename : string := "plots/" ++ design_name st ++ "_c_theta.pdf".

(** Lines 32-164: the arrays are built and changed, the plot is saved and
    the twists are resampled for the [.htc] file.  Returns [working_mat]
    and [htc_twist]. *)
Definition prepare : ST world (list row * list float) :=
  ae_text <- on_disk (read_text (ae_file_pathname st)) ;;
  ae_data <- lift (NumPyIO.loadtxt 2 ae_text) ;;
  lift (NumPyIO.two_dimensional ae_data) ;;;
  htc_text <- on_disk (read_text (htc_file_pathname st)) ;;
  twist <- lift (NumPyIO.genfromtxt (htc_start_line st) (max_rows st) htc_text) ;;
  lift (NumPyIO.two_dimensional twist) ;;;
  let twist_radii := fst <$> twist in
  geo_mat <- on_arrays (build_geo_mat ae_data twist) ;;
  working_mat <- on_arrays (change_design cos p geo_mat) ;;
  on_disk (write_text plot_filename (figure st)) ;;;
  htc_twist <- on_arrays (get_htc_twist twist_radii working_mat) ;;
  rows <- on_arrays (fun h => (h, match h !! working_mat with
                                  | Some m => Ok m
                                  | None => Raise "NameError"
                                  end)) ;;
  ret (rows, htc_twist).

(** Lines 171-177: the originals are copied; when a copy raises, the
    script quits. *)
Definition copy_originals : ST world unit :=
  try_except
    (on_disk (shutil_copy (htc_file_pathname st) new_htc_filename ;;;
              shutil_copy (ae_file_pathname st) new_ae_filename))
    (raise "SystemExit").

(** Lines 186-196: one turn of the loop over the lines of the new [.htc]
    file. *)
Definition htc_turn (htc_twist : list float) (i : nat) (line : string)
    (content : list string) : result (list string) :=
  rbind
    (if PyStr.contains "ae_filename" line
     then PyStr.setitem content i
            (tab ++ "ae_filename ./data/" ++ design_name st ++ "_ae.dat;" ++ nl)
     else Ok content)
    (fun content =>
       if ((htc_start_line st <=? i) && (i <? htc_end_line))%nat then
         let line := PyStr.split " " (PyStr.strip line) in
         let line := if PyStr.mem "" line then PyStr.remove "" line else line in
         match htc_twist !! (i - htc_start_line st)%nat with
         | None => Raise "IndexError"
         | Some tw =>
             rbind (PyStr.setitem line 4 (FloatText.str tw ++ ";" ++ nl))
               (fun line => PyStr.setitem content i (tab ++ tab ++ PyStr.join " " line))
         end
       else Ok content).

(** Lines 208-216: one turn of the loop over the lines of the new
    [ae.dat] file. *)
Definition ae_turn (working_mat : list row) (i : nat) (line : string)
    (content : list string) : result (list string) :=
  if (ae_start_line st <=? i)%nat then
    let line := PyStr.split "009" (PyStr.strip line) in
    match working_mat !! (i - ae_start_line st)%nat with
    | None => Raise "IndexError"
    | Some x =>
        rbind (PyStr.setitem line 0 (FloatText.str (radius x))) (fun line =>
        rbind (PyStr.setitem line 1 (FloatText.str (chord x))) (fun line =>
        rbind (PyStr.setitem line 2 (FloatText.str (rel_thickness x))) (fun line =>
        PyStr.setitem content i (PyStr.join tab line ++ nl))))
    end
  else Ok content.

(** [for i, line in enumerate(f): turn] with the list [content]. *)
Fixpoint enumerate_lines (turn : nat -> string -> list string -> result (list string))
    (i : nat) (lines : list string) (content : list string) : result (list string) :=
  match lines with
  | [] => Ok content
  | line :: lines' =>
      rbind (turn i line content) (enumerate_lines turn (S i) lines')
  end.

(** Lines 181-200 and 204-220: a file is read, its new content is made
    line by line, and the file is written. *)
Definition rewrite_file (path : string)
    (turn : nat -> string -> list string -> result (list string)) : IO unit :=
  text <- read_text path ;;
  let content := PyStr.readlines text in
  text' <- read_text_rw path ;;
  content <- lift (enumerate_lines turn 0 (PyStr.readlines text') content) ;;
  write_text path (PyStr.writelines content).

Definition write_files (working_mat : list row) (htc_twist : list float) : ST world unit :=
  on_disk (rewrite_file new_htc_filename (htc_turn htc_twist)) ;;;
  on_disk (rewrite_file new_ae_filename (ae_turn working_mat)).

(** Lines 32-220.  The runs of HAWC2S that follow are outside the
    embedding. *)
Definition main : ST world unit :=
  r <- prepare ;;
  copy_originals ;;;
  write_files r.1 r.2.

End Script.

Local Close Scope float_scope.

(** * Pure reading of the modifier loops

    Each loop of the script visits the sections in order and, on the selected
    ones, replaces one entry of the row.  [sweep] is that loop on the matrix
    alone; [for_in_sweep] shows the heap computation does the same. *)

Section Sweep.

Variable sel : float -> bool.
Variable upd : nat -> row -> result row.

Fixpoint sweep (i : nat) (rs : list float) (m : matrix) : matrix * result unit :=
  match rs with
  | [] => (m, Ok tt)
  | r :: rs' =>
      if sel r then
        match m !! i with
        | Some x =>
            match upd i x with
            | Ok x' => sweep (S i) rs' (<[i := x']> m)
            | Raise e => (m, Raise e)
            end
        | None => (m, Raise "IndexError")
        end
      else sweep (S i) rs' m
  end.

End Sweep.

(** The body of the loops that read an entry, read a multiplier and write
    the entry back. *)
Definition rmw_step (w : loc) (c : col) (mult : list float)
    (f : float -> float -> float) (i : nat) : M unit :=
  v <- mat_get w i c ;;
  k <- item mult i ;;
  mat_set w i c (f v k).

Definition rmw_upd (c : col) (mult : list float)
    (f : float -> float -> float) (i : nat) (x : row) : result row :=
  match mult !! i with
  | Some k => Ok (set_col c (f (get_col c x) k) x)
  | None => Raise "IndexError"
  end.

(** What a loop body does to the heap, in terms of a row update. *)
Definition step_spec (w : loc) (step : nat -> M unit)
    (upd : nat -> row -> result row) : Prop :=
  forall i (h : heap) m, h !! w = Some m ->
    step i h =
      match m !! i with
      | Some x =>
          match upd i x with
          | Ok x' => (<[w := <[i := x']> m]> h, Ok tt)
          | Raise e => (h, Raise e)
          end
      | None => (h, Raise "IndexError")
      end.

(** A computation that only replaces the array at [w], by one related to
    the old one, whether it returns or raises. *)
Definition updates_only (w : loc) (R : matrix -> matrix -> Prop) (c : M unit) : Prop :=
  forall (h : heap) m, h !! w = Some m ->
    exists m', (c h).1 = <[w := m']> h /\ R m m'.

(** Rows that agree outside column [c]. *)
Definition same_except (c : col) (x y : row) : Prop :=
  forall c', c' <> c -> get_col c' y = get_col c' x.

(** Rows that hold the same numbers: radius and relative thickness are
    identical, twist and chord are equal up to the sign of a zero. *)
Definition same_numbers (x y : row) : Prop :=
  radius y = radius x /\ rel_thickness y = rel_thickness x /\
  F64.same_number (twist x) (twist y) /\ F64.same_number (chord x) (chord y).

Lemma step_spec_rmw w c mult f : step_spec w (rmw_step w c mult f) (rmw_upd c mult f).
Proof.
  intros i h m Hw. unfold rmw_step, rmw_upd, bind, mat_get, mat_set, item.
  rewrite Hw. destruct (m !! i) as [x|] eqn:Hi; [|done].
  destruct (mult !! i) as [k|]; simpl; [|done].
  unfold ret. by rewrite Hw, Hi.
Qed.

Lemma for_in_sweep w (sel : float -> bool) step upd :
  step_spec w step upd ->
  forall rs i (h : heap) m, h !! w = Some m ->
    for_in (fun i r => if sel r then step i else ret tt) i rs h
    = (<[w := (sweep sel upd i rs m).1]> h, (sweep sel upd i rs m).2).
Proof.
  intros Hstep rs. induction rs as [|r rs IH]; intros i h m Hw; simpl.
  - unfold ret. by rewrite insert_id.
  - unfold bind at 1. destruct (sel r).
    + rewrite (Hstep i h m Hw). destruct (m !! i) as [x|]; simpl.
      * destruct (upd i x) as [x'|e]; simpl.
        -- rewrite (IH (S i) _ (<[i:=x']> m)) by apply lookup_insert_eq.
           by rewrite insert_insert_eq.
        -- by rewrite insert_id.
      * by rewrite insert_id.
    + unfold ret at 1. by apply IH.
Qed.

Section SweepFacts.

Variable sel : float -> bool.
Variable upd : nat -> row -> result row.

Lemma sweep_length rs : forall i m, length (sweep sel upd i rs m).1 = length m.
Proof.
  induction rs as [|r rs IH]; intros i m; simpl; [done|].
  destruct (sel r); [|by apply IH].
  destruct (m !! i) as [x|]; [|done].
  destruct (upd i x) as [x'|e]; [|done].
  by rewrite IH, length_insert.
Qed.

(** Rows before the current index are not visited again. *)
Lemma sweep_lookup_below rs :
  forall i m j, j < i -> (sweep sel upd i rs m).1 !! j = m !! j.
Proof.
  induction rs as [|r rs IH]; intros i m j Hj; simpl; [done|].
  destruct (sel r); [|apply IH; lia].
  destruct (m !! i) as [x|]; [|done].
  destruct (upd i x) as [x'|e]; [|done].
  rewrite IH by lia. apply list_lookup_insert_ne. lia.
Qed.

(** Rows past the end of [radius_nd] are not visited. *)
Lemma sweep_lookup_above rs :
  forall i m j, i + length rs <= j -> (sweep sel upd i rs m).1 !! j = m !! j.
Proof.
  induction rs as [|r rs IH]; intros i m j Hj; simpl in *; [done|].
  destruct (sel r); [|apply IH; lia].
  destruct (m !! i) as [x|]; [|done].
  destruct (upd i x) as [x'|e]; [|done].
  rewrite IH by lia. apply list_lookup_insert_ne. lia.
Qed.

(** A section that is not selected keeps its row, whatever the outcome. *)
Lemma sweep_lookup_unselected rs :
  forall i m k r, rs !! k = Some r -> sel r = false ->
    (sweep sel upd i rs m).1 !! (i + k) = m !! (i + k).
Proof.
  induction rs as [|r0 rs IH]; intros i m k r Hk Hr; [done|].
  destruct k as [|k]; simpl in Hk.
  - injection Hk as ->. simpl. rewrite Hr.
    apply sweep_lookup_below. lia.
  - simpl. replace (i + S k) with (S i + k) by lia.
    destruct (sel r0); [|by eapply IH].
    destruct (m !! i) as [x|]; [|done].
    destruct (upd i x) as [x'|e]; [|done].
    rewrite (IH _ _ _ _ Hk Hr). apply list_lookup_insert_ne. lia.
Qed.

(** When every selected section has a row and an update, the loop returns
    and each selected row is replaced by its update. *)
Lemma sweep_ok rs :
  forall i m,
    (forall k r, rs !! k = Some r -> sel r = true ->
       exists x x', m !! (i + k) = Some x /\ upd (i + k) x = Ok x') ->
    (sweep sel upd i rs m).2 = Ok tt /\
    forall k r, rs !! k = Some r -> sel r = true ->
      exists x x', m !! (i + k) = Some x /\ upd (i + k) x = Ok x' /\
                   (sweep sel upd i rs m).1 !! (i + k) = Some x'.
Proof.
  induction rs as [|r0 rs IH]; intros i m Hall; [by split|].
  simpl. destruct (sel r0) eqn:Hr0.
  - destruct (Hall 0 r0 eq_refl Hr0) as (x & x' & Hx & Hu).
    rewrite Nat.add_0_r in Hx, Hu. rewrite Hx, Hu.
    destruct (IH (S i) (<[i:=x']> m)) as [Hok Hrows].
    { intros k r Hk Hr. destruct (Hall (S k) r Hk Hr) as (y & y' & Hy & Hu').
      replace (i + S k) with (S i + k) in Hy, Hu' by lia.
      exists y, y'. split; [|done].
      rewrite list_lookup_insert_ne by lia. done. }
    split; [done|]. intros [|k] r Hk Hr.
    + exists x, x'. rewrite Nat.add_0_r. split_and!; [done..|].
      rewrite sweep_lookup_below by lia.
      apply list_lookup_insert_eq. by eapply lookup_lt_Some.
    + destruct (Hrows k r Hk Hr) as (y & y' & Hy & Hu' & Hf).
      replace (i + S k) with (S i + k) by lia.
      exists y, y'. split_and!; [|done..].
      rewrite list_lookup_insert_ne in Hy by lia. done.
  - destruct (IH (S i) m) as [Hok Hrows].
    { intros k r Hk Hr. replace (S i + k) with (i + S k) by lia.
      by apply (Hall (S k) r). }
    split; [done|]. intros [|k] r Hk Hr.
    + simpl in Hk. congruence.
    + replace (i + S k) with (S i + k) by lia. by apply (Hrows k r).
Qed.

(** Conversely, a loop that returned found a row and an update for every
    selected section. *)
Lemma sweep_ok_inv rs :
  forall i m, (sweep sel upd i rs m).2 = Ok tt ->
    forall k r, rs !! k = Some r -> sel r = true ->
      exists x x', m !! (i + k) = Some x /\ upd (i + k) x = Ok x'.
Proof.
  induction rs as [|r0 rs IH]; intros i m Hok k r Hk Hr; [done|].
  simpl in Hok. destruct k as [|k]; simpl in Hk.
  - injection Hk as ->. rewrite Hr in Hok. rewrite Nat.add_0_r.
    destruct (m !! i) as [x|]; [|done].
    destruct (upd i x) as [x'|e] eqn:Hu; [|done]. by exists x, x'.
  - replace (i + S k) with (S i + k) by lia.
    destruct (sel r0); [|by apply (IH _ _ Hok k r)].
    destruct (m !! i) as [x|]; [|done].
    destruct (upd i x) as [x'|e]; [|done].
    destruct (IH _ _ Hok k r Hk Hr) as (y & y' & Hy & Hu).
    rewrite list_lookup_insert_ne in Hy by lia. by exists y, y'.
Qed.

(** The loop raises nothing but what an update raises and [IndexError]. *)
Lemma sweep_raises rs :
  forall i m e, (sweep sel upd i rs m).2 = Raise e ->
    e = "IndexError" \/ exists j x, upd j x = Raise e.
Proof.
  induction rs as [|r0 rs IH]; intros i m e He; [done|].
  simpl in He. destruct (sel r0); [|by eapply IH].
  destruct (m !! i) as [x|]; [|left; by injection He].
  destruct (upd i x) as [x'|e'] eqn:Hu; [by eapply IH|].
  right. exists i, x. simpl in He. congruence.
Qed.

(** Any relation on rows that every update respects holds between the
    matrix before and after, whatever the outcome. *)
Lemma sweep_rel (R : relation row) `{!PreOrder R} rs :
  (forall i x x', upd i x = Ok x' -> R x x') ->
  forall i m, Forall2 R m (sweep sel upd i rs m).1.
Proof.
  intros HR. induction rs as [|r rs IH]; intros i m; simpl; [done|].
  destruct (sel r); [|by apply IH].
  destruct (m !! i) as [x|] eqn:Hx; [|done].
  destruct (upd i x) as [x'|e] eqn:Hu; [|done].
  etrans; [|apply IH].
  rewrite <- (list_insert_id m i x) at 1 by done.
  apply Forall2_insert; [done|]. by eapply HR.
Qed.

End SweepFacts.

(** * Facts about binary64 comparisons and zeros *)

Module F64Facts.
Import F64.
Local Open Scope float_scope.

Lemma SFcompare_antisym a b :
  SFcompare b a = option_map CompOpp (SFcompare a b).
Proof.
  destruct a as [sa|sa| |sa ma ea], b as [sb|sb| |sb mb eb]; simpl;
    try reflexivity;
    try (destruct sa; try destruct sb; reflexivity).
  change (PosDef.Pos.compare_cont Eq mb ma) with (Pos.compare mb ma).
  change (PosDef.Pos.compare_cont Eq ma mb) with (Pos.compare ma mb).
  rewrite (Z.compare_antisym ea eb), (Pos.compare_antisym ma mb).
  destruct sa, sb; simpl; try reflexivity;
    destruct (ea ?= eb)%Z; simpl; try reflexivity;
    destruct (ma ?= mb)%positive; reflexivity.
Qed.

(** [y < x] excludes [x <= y]. *)
Lemma ltb_leb_false x y : (y <? x) = true -> (x <=? y) = false.
Proof.
  rewrite ltb_spec, leb_spec. unfold SFltb, SFleb.
  rewrite (SFcompare_antisym (Prim2SF y) (Prim2SF x)).
  destruct (SFcompare (Prim2SF y) (Prim2SF x)) as [[]|]; simpl; congruence.
Qed.

Ltac cmp_cases :=
  repeat match goal with
  | |- context [(?a ?= ?b)%Z] => destruct (Z.compare_spec a b); simpl
  | |- context [(?a ?= ?b)%positive] => destruct (Pos.compare_spec a b); simpl
  end.

Lemma SFltb_SFleb_trans x a b :
  SFltb x a = true -> SFleb a b = true -> SFltb x b = true.
Proof.
  unfold SFltb, SFleb.
  destruct x as [sx|sx| |sx mx ex], a as [sa|sa| |sa ma ea], b as [sb|sb| |sb mb eb];
    simpl; try discriminate; try reflexivity;
    repeat match goal with s : bool |- _ => destruct s end; simpl;
    try discriminate; try reflexivity;
    change PosDef.Pos.compare_cont with Pos.compare_cont;
    repeat match goal with |- context [Pos.compare_cont Eq ?a ?b] =>
      change (Pos.compare_cont Eq a b) with (Pos.compare a b) end;
    cmp_cases; intros; try discriminate; try reflexivity; try lia.
Qed.

(** [x < a <= b] gives [x < b]. *)
Lemma ltb_leb_trans x a b :
  (x <? a) = true -> (a <=? b) = true -> (x <? b) = true.
Proof. rewrite !ltb_spec, leb_spec. apply SFltb_SFleb_trans. Qed.

(** [x < y] excludes [y < x]. *)
Lemma ltb_asym x y : (x <? y) = true -> (y <? x) = false.
Proof.
  rewrite !ltb_spec. unfold SFltb.
  rewrite (SFcompare_antisym (Prim2SF x) (Prim2SF y)).
  destruct (SFcompare (Prim2SF x) (Prim2SF y)) as [[]|]; simpl; congruence.
Qed.

Lemma same_number_refl x : same_number x x.
Proof. by left. Qed.

Lemma same_number_trans x y z :
  same_number x y -> same_number y z -> same_number x z.
Proof.
  intros [->|[Hx Hy]] [->|[Hy' Hz]]; try (by left); by right.
Qed.

(** A zero times a finite number is a zero. *)
Lemma mul_zero_l a k : is_zero a = true -> finite k = true -> is_zero (a * k) = true.
Proof.
  unfold is_zero, finite. rewrite mul_spec.
  destruct (Prim2SF a), (Prim2SF k); simpl; congruence.
Qed.

(** Adding or subtracting a zero keeps the number. *)
Lemma add_zero_r x z : is_zero z = true -> same_number x (x + z).
Proof.
  unfold same_number, is_zero. intros Hz.
  destruct (Prim2SF z) as [sz| | |] eqn:Ez; try discriminate.
  destruct (Prim2SF x) as [sx|sx| |sx mx ex] eqn:Ex.
  - right. rewrite add_spec, Ex, Ez. split; [done|].
    simpl. by destruct sx, sz.
  - left. apply Prim2SF_inj. by rewrite add_spec, Ex, Ez.
  - left. apply Prim2SF_inj. by rewrite add_spec, Ex, Ez.
  - left. apply Prim2SF_inj. by rewrite add_spec, Ex, Ez.
Qed.

Lemma sub_zero_r x z : is_zero z = true -> same_number x (x - z).
Proof.
  unfold same_number, is_zero. intros Hz.
  destruct (Prim2SF z) as [sz| | |] eqn:Ez; try discriminate.
  destruct (Prim2SF x) as [sx|sx| |sx mx ex] eqn:Ex.
  - right. rewrite sub_spec, Ex, Ez. split; [done|].
    simpl. by destruct sx, sz.
  - left. apply Prim2SF_inj. by rewrite sub_spec, Ex, Ez.
  - left. apply Prim2SF_inj. by rewrite sub_spec, Ex, Ez.
  - left. apply Prim2SF_inj. by rewrite sub_spec, Ex, Ez.
Qed.

Lemma opp_finite k : finite (- k) = finite k.
Proof. unfold finite. rewrite opp_spec. by destruct (Prim2SF k). Qed.

End F64Facts.

(** * Relations between the matrix before and after *)

Global Instance same_except_preorder c : PreOrder (same_except c).
Proof.
  split.
  - by intros x c' _.
  - intros x y z Hxy Hyz c' Hc. by rewrite (Hyz c' Hc), (Hxy c' Hc).
Qed.

Global Instance same_numbers_preorder : PreOrder same_numbers.
Proof.
  split.
  - intros x. repeat split; apply F64Facts.same_number_refl.
  - intros x y z (Hr & Ht & Htw & Hc) (Hr' & Ht' & Htw' & Hc').
    repeat split; try congruence; by eapply F64Facts.same_number_trans.
Qed.

Lemma same_except_set_col c v x : same_except c x (set_col c v x).
Proof. intros c' Hc. by destruct c, c'. Qed.

Lemma get_set_col c v x : get_col c (set_col c v x) = v.
Proof. by destruct c. Qed.

(** A relation on matrices that holds trivially. *)
Definition any_matrix : relation (list row) := fun _ _ => True.

Global Instance any_matrix_preorder : PreOrder any_matrix.
Proof. by split. Qed.

Section UpdatesOnly.

Variable w : loc.
Variable R : relation (list row).
Context `{!PreOrder R}.

Lemma updates_only_ret : updates_only w R (ret tt).
Proof. intros h m Hw. exists m. by rewrite insert_id. Qed.

Lemma updates_only_when flag c :
  updates_only w R c -> updates_only w R (when flag c).
Proof. destruct flag; [done|]. intros _. apply updates_only_ret. Qed.

Lemma updates_only_seq c1 c2 :
  updates_only w R c1 -> updates_only w R c2 ->
  updates_only w R (c1 ;;; c2)%py.
Proof.
  intros H1 H2 h m Hw. destruct (H1 h m Hw) as (m1 & E1 & R1).
  unfold bind. destruct (c1 h) as [h1 [[]|e]]; simpl in E1; subst h1.
  - destruct (H2 (<[w:=m1]> h) m1) as (m2 & E2 & R2);
      [apply lookup_insert_eq|].
    exists m2. rewrite E2, insert_insert_eq. split; [done|]. by etrans.
  - by exists m1.
Qed.

End UpdatesOnly.

(** A loop over the sections whose updates respect a row relation only
    replaces the working array by a row-wise related one. *)
Lemma updates_only_sweep w (Rr : relation row) `{!PreOrder Rr}
    (sel : float -> bool) step upd rs i :
  step_spec w step upd ->
  (forall i x x', upd i x = Ok x' -> Rr x x') ->
  updates_only w (Forall2 Rr) (for_in (fun i r => if sel r then step i else ret tt) i rs).
Proof.
  intros Hstep HR h m Hw. rewrite (for_in_sweep w sel step upd Hstep rs i h m Hw).
  eexists. split; [done|]. by apply sweep_rel.
Qed.

(** * The modifier blocks as sweeps *)

Section Blocks.

Variable cos : float -> float.
Variable radius_nd : list float.
Variable w : loc.

(** The row update of the cylindrical override. *)
Definition cyl_upd (i : nat) (x : row) : result row := Ok (set_col C3 100%float x).

Lemma step_spec_cyl : step_spec w (fun i => mat_set w i C3 100%float) cyl_upd.
Proof.
  intros i h m Hw. unfold mat_set, cyl_upd. rewrite Hw.
  by destruct (m !! i).
Qed.

(** A read-modify-write loop on the heap is its sweep. *)
Lemma rmw_loop_sweep (sel : float -> bool) c mult f (h : heap) m :
  h !! w = Some m ->
  for_in (fun i r => if sel r then rmw_step w c mult f i else ret tt) 0 radius_nd h
  = (<[w := (sweep sel (rmw_upd c mult f) 0 radius_nd m).1]> h,
     (sweep sel (rmw_upd c mult f) 0 radius_nd m).2).
Proof. apply for_in_sweep, step_spec_rmw. Qed.

(** When every selected section has a row and a multiplier, the loop
    returns, and it has updated the selected rows and no other. *)
Lemma rmw_loop_ok (sel : float -> bool) c mult f (h : heap) m :
  h !! w = Some m ->
  length m = length radius_nd ->
  (forall i r, radius_nd !! i = Some r -> sel r = true -> is_Some (mult !! i)) ->
  exists m',
    for_in (fun i r => if sel r then rmw_step w c mult f i else ret tt) 0 radius_nd h
    = (<[w := m']> h, Ok tt) /\
    length m' = length m /\
    forall i r x, radius_nd !! i = Some r -> m !! i = Some x ->
      m' !! i = if sel r
                then (fun k => set_col c (f (get_col c x) k) x) <$> mult !! i
                else Some x.
Proof.
  intros Hw Hlen Hmult. rewrite (rmw_loop_sweep sel c mult f h m Hw).
  destruct (sweep_ok sel (rmw_upd c mult f) radius_nd 0 m) as [Hok Hrows].
  { intros k r Hk Hr. simpl. destruct (Hmult k r Hk Hr) as [v Hv].
    destruct (lookup_lt_is_Some_2 m k) as [x Hx].
    { rewrite Hlen. by eapply lookup_lt_Some. }
    exists x. eexists. split; [done|]. unfold rmw_upd. by rewrite Hv. }
  eexists. split; [by rewrite Hok|]. split; [apply sweep_length|].
  intros i r x Hi Hx. destruct (sel r) eqn:Hr.
  - destruct (Hrows i r Hi Hr) as (y & y' & Hy & Hu & Hf). simpl in *.
    rewrite Hf. rewrite Hx in Hy. injection Hy as <-.
    unfold rmw_upd in Hu. destruct (mult !! i); simpl; congruence.
  - rewrite <- Hx. apply (sweep_lookup_unselected sel _ radius_nd 0 m i r Hi Hr).
Qed.

(** The same for the cylindrical override, which needs no multiplier. *)
Lemma cyl_loop_ok (sel : float -> bool) (h : heap) m :
  h !! w = Some m ->
  length m = length radius_nd ->
  exists m',
    for_in (fun i r => if sel r then mat_set w i C3 100%float else ret tt) 0 radius_nd h
    = (<[w := m']> h, Ok tt) /\
    length m' = length m /\
    forall i r x, radius_nd !! i = Some r -> m !! i = Some x ->
      m' !! i = Some (if sel r then set_col C3 100%float x else x).
Proof.
  intros Hw Hlen.
  rewrite (for_in_sweep w sel _ cyl_upd step_spec_cyl radius_nd 0 h m Hw).
  destruct (sweep_ok sel cyl_upd radius_nd 0 m) as [Hok Hrows].
  { intros k r Hk Hr. simpl.
    destruct (lookup_lt_is_Some_2 m k) as [x Hx].
    { rewrite Hlen. by eapply lookup_lt_Some. }
    by exists x, (set_col C3 100%float x). }
  eexists. split; [by rewrite Hok|]. split; [apply sweep_length|].
  intros i r x Hi Hx. destruct (sel r) eqn:Hr.
  - destruct (Hrows i r Hi Hr) as (y & y' & Hy & Hu & Hf). simpl in *.
    rewrite Hf. rewrite Hx in Hy. injection Hy as <-.
    unfold cyl_upd in Hu. by injection Hu as <-.
  - rewrite <- Hx. apply (sweep_lookup_unselected sel _ radius_nd 0 m i r Hi Hr).
Qed.

(** Row relations carried through the loops. *)
Lemma updates_only_rmw (Rr : relation row) `{!PreOrder Rr}
    (sel : float -> bool) c mult f :
  (forall i x k, mult !! i = Some k -> Rr x (set_col c (f (get_col c x) k) x)) ->
  updates_only w (Forall2 Rr)
    (for_in (fun i r => if sel r then rmw_step w c mult f i else ret tt) 0 radius_nd).
Proof.
  intros HR. apply (updates_only_sweep w Rr sel _ (rmw_upd c mult f));
    [apply step_spec_rmw|].
  intros i x x'. unfold rmw_upd. destruct (mult !! i) as [k|] eqn:Hk; [|done].
  intros [= <-]. by eapply HR.
Qed.

Lemma updates_only_cyl (Rr : relation row) `{!PreOrder Rr} (sel : float -> bool) :
  (forall x, Rr x (set_col C3 100%float x)) ->
  updates_only w (Forall2 Rr)
    (for_in (fun i r => if sel r then mat_set w i C3 100%float else ret tt) 0 radius_nd).
Proof.
  intros HR. apply (updates_only_sweep w Rr sel _ cyl_upd); [apply step_spec_cyl|].
  intros i x x' [= <-]. apply HR.
Qed.

(** Assigning a whole column. *)
Lemma Forall2_zip_with_set_col (Rr : relation row) c vals (m : list row) :
  (forall i v x, vals !! i = Some v -> m !! i = Some x -> Rr x (set_col c v x)) ->
  length vals = length m ->
  Forall2 Rr m (zip_with (set_col c) vals m).
Proof.
  revert vals. induction m as [|x m IH]; intros [|v vals] HR Hlen; simpl in *;
    try done.
  constructor.
  - by apply (HR 0).
  - apply IH; [|lia]. intros i. apply (HR (S i)).
Qed.

Lemma col_set_rel (Rr : relation row) `{!PreOrder Rr} c vals (h : heap) m :
  h !! w = Some m ->
  (forall i v x, vals !! i = Some v -> m !! i = Some x -> Rr x (set_col c v x)) ->
  (forall v x, vals = [v] -> length m <> 1 -> x ∈ m -> Rr x (set_col c v x)) ->
  exists m', (col_set w c vals h).1 = <[w:=m']> h /\ Forall2 Rr m m'.
Proof.
  intros Hw Hpt Hone. unfold col_set. rewrite Hw. case_decide as Hlen.
  - eexists. split; [done|]. by apply Forall2_zip_with_set_col.
  - destruct vals as [|v [|v' vals]]; simpl.
    + exists m. by rewrite (insert_id h w m Hw).
    + eexists. split; [done|]. apply Forall2_fmap_r, Forall_Forall2_diag.
      apply Forall_forall. intros x Hx. apply Hone; [done|by simpl in Hlen|done].
    + exists m. by rewrite (insert_id h w m Hw).
Qed.

Lemma broadcast2_lookup f a b (h : heap) :
  match broadcast2 f a b h with
  | (h', Ok vals) =>
      h' = h /\ (length vals = length a \/ length a = 1) /\
      forall i v x, vals !! i = Some v -> a !! i = Some x ->
        exists y, y ∈ b /\ v = f x y
  | (h', Raise _) => h' = h
  end.
Proof.
  unfold broadcast2, ret, raise. case_decide as Hlen.
  - simpl. split; [done|]. split.
    { left. rewrite length_zip_with. lia. }
    intros i v x Hv Hx. apply lookup_zip_with_Some in Hv as (x' & y & -> & Hx' & Hy).
    exists y. split; [by eapply list_elem_of_lookup_2|]. congruence.
  - destruct a as [|x0 [|x1 a]]; simpl.
    + destruct b as [|y0 [|y1 b]]; simpl; try done.
      split; [done|]. split; [by left|]. by intros i v x.
    + split; [done|]. split; [by right|].
      intros [|i] v x Hv Hx; simpl in Hx; [|done]. injection Hx as <-.
      rewrite list_lookup_fmap in Hv.
      destruct (b !! 0) as [y|] eqn:Hy; [|done]. injection Hv as <-.
      exists y. split; [by eapply list_elem_of_lookup_2|done].
    + destruct b as [|y0 [|y1 b]]; simpl; try done.
      split; [done|]. split; [left; simpl; by rewrite length_fmap|].
      intros i v x Hv Hx. exists y0. split; [set_solver|].
      change (?f x0 y0 :: ?f x1 y0 :: ?l) with ((fun x => f x y0) <$> (x0 :: x1 :: a)) in Hv.
      rewrite list_lookup_fmap, Hx in Hv. by injection Hv as <-.
Qed.

Lemma updates_only_cos_chord (Rr : relation row) `{!PreOrder Rr} chord_addition :
  (forall x r, r ∈ radius_nd ->
     Rr x (set_col C2 (chord x + chord_addition * - cos (r * F64.pi))%float x)) ->
  updates_only w (Forall2 Rr) (cos_chord_addition cos radius_nd w chord_addition).
Proof.
  intros HR h m Hw. unfold cos_chord_addition, bind, col_get.
  rewrite Hw.
  match goal with |- context [broadcast2 ?f ?a ?b h] =>
    pose proof (broadcast2_lookup f a b h) as Hb;
    destruct (broadcast2 f a b h) as [h' [vals|e]] end.
  - destruct Hb as (-> & Hlen & Hvals).
    apply (col_set_rel Rr C2 vals h m Hw).
    + intros i v x Hv Hx.
      destruct (Hvals i v (chord x) Hv) as (y & Hy & ->).
      { by rewrite list_lookup_fmap, Hx. }
      apply list_elem_of_fmap in Hy as (k & -> & Hk).
      apply list_elem_of_fmap in Hk as (r & -> & Hr). by apply HR.
    + intros v x -> Hm _. rewrite length_fmap in Hlen. simpl in Hlen.
      exfalso. destruct Hlen; congruence.
  - subst h'. exists m. by rewrite (insert_id h w m Hw).
Qed.

End Blocks.

(** * The whole modifier stack *)

(** Rows with the same radius. *)
Definition same_radius (x y : row) : Prop := radius y = radius x.

Global Instance same_radius_preorder : PreOrder same_radius.
Proof. split; [done|]. intros x y z. unfold same_radius. congruence. Qed.

Lemma same_except_radius c x y : c <> C0 -> same_except c x y -> same_radius x y.
Proof. intros Hc H. by apply (H C0). Qed.

Lemma Forall2_same_radius m m' :
  Forall2 same_radius m m' -> radius <$> m' = radius <$> m.
Proof.
  induction 1 as [|x y m m' Hxy _ IH]; [done|].
  rewrite !fmap_cons. by rewrite Hxy, IH.
Qed.

Lemma updates_only_weaken w (R R' : relation (list row)) c :
  (forall m m', R m m' -> R' m m') -> updates_only w R c -> updates_only w R' c.
Proof. intros HRR' H h m Hw. destruct (H h m Hw) as (m' & ? & ?). eauto. Qed.

Section Stack.

Variable cos : float -> float.
Variable radius_nd : list float.
Variable w : loc.
Variable Rr : relation row.
Context `{!PreOrder Rr}.

Local Open Scope float_scope.

Lemma updates_only_root_linear a t :
  (forall x r, r ∈ radius_nd -> Rr x (set_col C2 (chord x - a * (r - 1.0)) x)) ->
  updates_only w (Forall2 Rr) (root_linear_chord_addition radius_nd w a t).
Proof.
  intros HR.
  apply (updates_only_rmw radius_nd w Rr (fun r => r <=? t) C2
           ((fun r => r - 1.0) <$> radius_nd) (fun v k => v - a * k)).
  intros i x k Hk. rewrite list_lookup_fmap in Hk.
  destruct (radius_nd !! i) as [r|] eqn:Hr; [|done]. injection Hk as <-.
  apply HR. by eapply list_elem_of_lookup_2.
Qed.

Lemma updates_only_tip_cos a t :
  (forall x r, r ∈ radius_nd -> Rr x (set_col C2 (chord x + a * - cos (r * F64.pi)) x)) ->
  updates_only w (Forall2 Rr) (tip_cos_chord_addition cos radius_nd w a t).
Proof.
  intros HR.
  apply (updates_only_rmw radius_nd w Rr (fun r => t <=? r) C2
           ((fun r => - cos (r * F64.pi)) <$> radius_nd) (fun v k => v + a * k)).
  intros i x k Hk. rewrite list_lookup_fmap in Hk.
  destruct (radius_nd !! i) as [r|] eqn:Hr; [|done]. injection Hk as <-.
  apply HR. by eapply list_elem_of_lookup_2.
Qed.

Lemma updates_only_twist a t :
  (forall x r, r ∈ radius_nd -> Rr x (set_col C1 (twist x + a * - (r - 1.0)) x)) ->
  updates_only w (Forall2 Rr) (twist_the_root radius_nd w a t).
Proof.
  intros HR.
  apply (updates_only_rmw radius_nd w Rr (fun r => r <=? t) C1
           ((fun r => - (r - 1.0)) <$> radius_nd) (fun v k => v + a * k)).
  intros i x k Hk. rewrite list_lookup_fmap in Hk.
  destruct (radius_nd !! i) as [r|] eqn:Hr; [|done]. injection Hk as <-.
  apply HR. by eapply list_elem_of_lookup_2.
Qed.

Lemma updates_only_supertwist weights a t :
  (forall x k, k ∈ weights -> Rr x (set_col C1 (twist x + a * k) x)) ->
  updates_only w (Forall2 Rr) (supertwist_the_root radius_nd w weights a t).
Proof.
  intros HR.
  apply (updates_only_rmw radius_nd w Rr (fun r => r <=? t) C1
           weights (fun v k => v + a * k)).
  intros i x k Hk. apply HR. by eapply list_elem_of_lookup_2.
Qed.

Lemma updates_only_cylindrical t :
  (forall x, Rr x (set_col C3 100 x)) ->
  updates_only w (Forall2 Rr) (make_root_cylindrical radius_nd w t).
Proof. apply (updates_only_cyl radius_nd w Rr (fun r => r <=? t)). Qed.

(** The stack only replaces [working_mat], by a matrix related row by row
    to the old one, when the writes of every enabled block respect the
    row relation. *)
Lemma modifiers_updates_only p :
  (root_linear_on p = true -> forall x r, r ∈ radius_nd ->
     Rr x (set_col C2 (chord x - root_linear_chord_addition_ p * (r - 1.0)) x)) ->
  (tip_cos_on p = true -> forall x r, r ∈ radius_nd ->
     Rr x (set_col C2 (chord x + tip_cos_chord_addition_ p * - cos (r * F64.pi)) x)) ->
  (cos_on p = true -> forall x r, r ∈ radius_nd ->
     Rr x (set_col C2 (chord x + cos_chord_addition_ p * - cos (r * F64.pi)) x)) ->
  (twist_on p = true -> forall x r, r ∈ radius_nd ->
     Rr x (set_col C1 (twist x + twist_twist_addition p * - (r - 1.0)) x)) ->
  (supertwist_on p = true -> forall x k, k ∈ manual_multiplier p ->
     Rr x (set_col C1 (twist x + supertwist_twist_addition p * k) x)) ->
  (cylindrical_on p = true -> forall x, Rr x (set_col C3 100 x)) ->
  updates_only w (Forall2 Rr) (modifiers cos p radius_nd w).
Proof.
  intros H1 H2 H3 H4 H5 H6. unfold modifiers.
  repeat apply updates_only_seq; try apply _.
  - destruct (root_linear_on p); [|apply updates_only_ret, _].
    by apply updates_only_root_linear, H1.
  - destruct (tip_cos_on p); [|apply updates_only_ret, _].
    by apply updates_only_tip_cos, H2.
  - destruct (cos_on p); [|apply updates_only_ret, _].
    by apply updates_only_cos_chord, H3.
  - destruct (twist_on p); [|apply updates_only_ret, _].
    by apply updates_only_twist, H4.
  - destruct (supertwist_on p); [|apply updates_only_ret, _].
    by apply updates_only_supertwist, H5.
  - destruct (cylindrical_on p); [|apply updates_only_ret, _].
    by apply updates_only_cylindrical, H6.
Qed.

End Stack.

(** No block writes column 0. *)
Lemma modifiers_keep_radius cos p radius_nd w :
  updates_only w (Forall2 same_radius) (modifiers cos p radius_nd w).
Proof. by apply modifiers_updates_only; try apply _. Qed.

(** * Properties of the modifier stack *)

(** [m'] is [m] with [eff] applied to the rows whose normalised radius is at
    most [t] (the test [radius <= changes_until] of the script), and with
    every other row as it was; in particular the rows whose normalised
    radius is strictly greater than [t]. *)
Definition root_selected (radius_nd : list float) (t : float)
    (eff : nat -> float -> row -> row) (m m' : list row) : Prop :=
  length m' = length m /\
  forall i r x, radius_nd !! i = Some r -> m !! i = Some x ->
    ((r <=? t)%float = true -> m' !! i = Some (eff i r x)) /\
    ((r <=? t)%float = false -> m' !! i = Some x) /\
    ((t <? r)%float = true -> m' !! i = Some x).

(** The sections selected by a root modifier. *)
Definition selected_until (t : float) (radius_nd : list float) : list float :=
  filter (fun r => (r <=? t)%float = true) radius_nd.

(** All switches off, with the constants of the script. *)
Definition all_off : params := {|
  root_linear_on := false;
  root_linear_chord_addition_ := root_linear_chord_addition_ script_params;
  root_linear_changes_until := root_linear_changes_until script_params;
  tip_cos_on := false;
  tip_cos_chord_addition_ := tip_cos_chord_addition_ script_params;
  tip_cos_changes_from := tip_cos_changes_from script_params;
  cos_on := false;
  cos_chord_addition_ := cos_chord_addition_ script_params;
  twist_on := false;
  twist_twist_addition := twist_twist_addition script_params;
  twist_changes_until := twist_changes_until script_params;
  supertwist_on := false;
  manual_multiplier := manual_multiplier script_params;
  supertwist_twist_addition := supertwist_twist_addition script_params;
  supertwist_changes_until := supertwist_changes_until script_params;
  cylindrical_on := false;
  cylindrical_changes_until := cylindrical_changes_until script_params
|}.

(** Only the linear root chord shift, with the given amount and threshold. *)
Definition root_linear_only (amount threshold : float) : params := {|
  root_linear_on := true;
  root_linear_chord_addition_ := amount;
  root_linear_changes_until := threshold;
  tip_cos_on := false;
  tip_cos_chord_addition_ := tip_cos_chord_addition_ script_params;
  tip_cos_changes_from := tip_cos_changes_from script_params;
  cos_on := false;
  cos_chord_addition_ := cos_chord_addition_ script_params;
  twist_on := false;
  twist_twist_addition := twist_twist_addition script_params;
  twist_changes_until := twist_changes_until script_params;
  supertwist_on := false;
  manual_multiplier := manual_multiplier script_params;
  supertwist_twist_addition := supertwist_twist_addition script_params;
  supertwist_changes_until := supertwist_changes_until script_params;
  cylindrical_on := false;
  cylindrical_changes_until := cylindrical_changes_until script_params
|}.

(** Every amount zero and only the cylindrical override on. *)
Definition cylindrical_only_zero (threshold : float) : params := {|
  root_linear_on := false;
  root_linear_chord_addition_ := 0%float;
  root_linear_changes_until := threshold;
  tip_cos_on := false;
  tip_cos_chord_addition_ := 0%float;
  tip_cos_changes_from := threshold;
  cos_on := false;
  cos_chord_addition_ := 0%float;
  twist_on := false;
  twist_twist_addition := 0%float;
  twist_changes_until := threshold;
  supertwist_on := false;
  manual_multiplier := [];
  supertwist_twist_addition := 0%float;
  supertwist_changes_until := threshold;
  cylindrical_on := true;
  cylindrical_changes_until := threshold
|}.

(** A stand-in for [np.cos] in runs where no enabled block calls it. *)
Definition cos_unused (x : float) : float := nan.

Lemma rmw_root_selected radius_nd w t c mult f (eff : nat -> float -> row -> row)
    (h : heap) m :
  h !! w = Some m ->
  length m = length radius_nd ->
  (forall i r x, radius_nd !! i = Some r -> (r <=? t)%float = true ->
     exists k, mult !! i = Some k /\ eff i r x = set_col c (f (get_col c x) k) x) ->
  exists m',
    for_in (fun i r => if (r <=? t)%float then rmw_step w c mult f i else ret tt)
      0 radius_nd h = (<[w := m']> h, Ok tt) /\
    root_selected radius_nd t eff m m'.
Proof.
  intros Hw Hlen Heff.
  destruct (rmw_loop_ok radius_nd w (fun r => (r <=? t)%float) c mult f h m Hw Hlen)
    as (m' & Hrun & Hlen' & Hrows).
  { intros i r Hi Hr. destruct (Heff i r (Row 0 0 0 0) Hi Hr) as (k & -> & _). eauto. }
  exists m'. split; [done|]. split; [done|].
  intros i r x Hi Hx. specialize (Hrows i r x Hi Hx). simpl in Hrows.
  split_and!.
  - intros Hr. rewrite Hr in Hrows. destruct (Heff i r x Hi Hr) as (k & Hk & ->).
    by rewrite Hrows, Hk.
  - intros Hr. by rewrite Hr in Hrows.
  - intros Hr. apply F64Facts.ltb_leb_false in Hr. by rewrite Hr in Hrows.
Qed.

Lemma filter_length_bound (sel : float -> bool) rs :
  forall L, (forall k r, rs !! k = Some r -> sel r = true -> k < L) ->
    length (filter (fun r => sel r = true) rs) <= L.
Proof.
  induction rs as [|r rs IH]; intros L HL; [simpl; lia|].
  rewrite filter_cons. case_decide as Hr; simpl.
  - pose proof (HL 0 r eq_refl Hr). destruct L as [|L]; [lia|].
    apply le_n_S, IH. intros k r' Hk Hr'. specialize (HL (S k) r' Hk Hr'). lia.
  - destruct L as [|L].
    + apply IH. intros k r' Hk Hr'. specialize (HL (S k) r' Hk Hr'). lia.
    + etrans; [apply (IH L)|lia].
      intros k r' Hk Hr'. specialize (HL (S k) r' Hk Hr'). lia.
Qed.

(** C2: a baseline of three sections with radii [0, 50, 100] and chords
    [5, 4, 3], whatever its twists and thicknesses, with only the linear root
    chord shift on, amount -1.0 and threshold 0.5: the normalised radii are
    [0, 0.5, 1], the script returns, and [working_mat] has chords
    [4.0, 3.5, 3.0] and every other entry as in the baseline. *)
Theorem root_linear_scenario (cos : float -> float) (t0 t1 t2 th0 th1 th2 : float) :
  let geo := [Row 0 t0 5 th0; Row 50 t1 4 th1; Row 100 t2 3 th2] in
  let h : heap := {[ 1%positive := geo ]} in
  normalise geo = Ok [0; 0.5; 1]%float /\
  change_design cos (root_linear_only (-1.0) 0.5) 1%positive h
  = (<[ 2%positive := [Row 0 t0 4.0 th0; Row 50 t1 3.5 th1; Row 100 t2 3.0 th2] ]> h,
     Ok 2%positive).
Proof. split; vm_compute; reflexivity. Qed.

(** C3: for every threshold [t], each root-selecting modifier (the linear
    root chord shift, the linear root twist shift, the manual-profile root
    twist shift and the cylindrical override) applies its effect to exactly
    the sections with normalised radius [<= t], the boundary included, and
    leaves every field of every other section as it was, in particular of the
    sections whose normalised radius is strictly greater than [t].  The
    manual-profile shift returns when there is a weight for every selected
    section; whatever its weights, and also when it raises, it leaves the
    sections that are not selected as they were. *)
Theorem root_selection_boundary radius_nd w t (h : heap) m :
  h !! w = Some m ->
  length m = length radius_nd ->
  (forall a, exists m',
     root_linear_chord_addition radius_nd w a t h = (<[w := m']> h, Ok tt) /\
     root_selected radius_nd t
       (fun _ r x => set_col C2 (chord x - a * (r - 1.0))%float x) m m') /\
  (forall a, exists m',
     twist_the_root radius_nd w a t h = (<[w := m']> h, Ok tt) /\
     root_selected radius_nd t
       (fun _ r x => set_col C1 (twist x + a * - (r - 1.0))%float x) m m') /\
  (forall a weights,
     (forall i r, radius_nd !! i = Some r -> (r <=? t)%float = true ->
        i < length weights) ->
     exists m',
       supertwist_the_root radius_nd w weights a t h = (<[w := m']> h, Ok tt) /\
       root_selected radius_nd t
         (fun i _ x => set_col C1 (twist x + a * nth i weights nan)%float x) m m') /\
  (forall a weights, exists m',
     (supertwist_the_root radius_nd w weights a t h).1 = <[w := m']> h /\
     forall i r, radius_nd !! i = Some r ->
       ((r <=? t)%float = false -> m' !! i = m !! i) /\
       ((t <? r)%float = true -> m' !! i = m !! i)) /\
  (exists m',
     make_root_cylindrical radius_nd w t h = (<[w := m']> h, Ok tt) /\
     root_selected radius_nd t (fun _ _ x => set_col C3 100%float x) m m').
Proof.
  intros Hw Hlen. split_and!.
  - intros a.
    apply (rmw_root_selected radius_nd w t C2 ((fun r => r - 1.0)%float <$> radius_nd)
             (fun v k => v - a * k)%float _ h m Hw Hlen).
    intros i r x Hi Hr. eexists. by rewrite list_lookup_fmap, Hi.
  - intros a.
    apply (rmw_root_selected radius_nd w t C1 ((fun r => - (r - 1.0))%float <$> radius_nd)
             (fun v k => v + a * k)%float _ h m Hw Hlen).
    intros i r x Hi Hr. eexists. by rewrite list_lookup_fmap, Hi.
  - intros a weights Hweights.
    apply (rmw_root_selected radius_nd w t C1 weights
             (fun v k => v + a * k)%float _ h m Hw Hlen).
    intros i r x Hi Hr.
    destruct (lookup_lt_is_Some_2 weights i (Hweights i r Hi Hr)) as [k Hk].
    exists k. split; [done|]. by rewrite (nth_lookup_Some _ _ _ _ Hk).
  - intros a weights.
    change (supertwist_the_root radius_nd w weights a t)
      with (for_in (fun i r => if (r <=? t)%float
                               then rmw_step w C1 weights (fun v k => v + a * k)%float i
                               else ret tt) 0 radius_nd).
    rewrite (rmw_loop_sweep radius_nd w _ C1 weights _ h m Hw).
    eexists. split; [done|]. intros i r Hi.
    assert (Hun : (r <=? t)%float = false ->
              (sweep (fun r => (r <=? t)%float) (rmw_upd C1 weights (fun v k => v + a * k)%float)
                 0 radius_nd m).1 !! i = m !! i).
    { intros Hr.
      apply (sweep_lookup_unselected (fun r => (r <=? t)%float) _ radius_nd 0 m i r Hi Hr). }
    split; [done|]. intros Hr. apply Hun. by apply F64Facts.ltb_leb_false.
  - destruct (cyl_loop_ok radius_nd w (fun r => (r <=? t)%float) h m Hw Hlen)
      as (m' & Hrun & Hlen' & Hrows).
    exists m'. split; [done|]. split; [done|].
    intros i r x Hi Hx. specialize (Hrows i r x Hi Hx). simpl in Hrows.
    split_and!; intros Hr.
    + by rewrite Hr in Hrows.
    + by rewrite Hr in Hrows.
    + apply F64Facts.ltb_leb_false in Hr. by rewrite Hr in Hrows.
Qed.

(** Witness for C3: three sections at normalised radii 0, 0.25 and 0.5 with
    the threshold 0.25 of the script: the section on the boundary is
    selected. *)
Lemma root_selection_boundary_witness :
  let rnd := [0; 0.25; 0.5]%float in
  let m := [Row 0 1 5 60; Row 25 2 4 50; Row 50 3 3 40] in
  let h : heap := {[ 1%positive := m ]} in
  h !! 1%positive = Some m /\ length m = length rnd /\
  exists m',
    make_root_cylindrical rnd 1%positive 0.25 h = (<[ 1%positive := m' ]> h, Ok tt) /\
    root_selected rnd 0.25 (fun _ _ x => set_col C3 100%float x) m m'.
Proof.
  intros rnd m h.
  assert (Hw : h !! 1%positive = Some m) by reflexivity.
  assert (Hlen : length m = length rnd) by reflexivity.
  split; [exact Hw|]. split; [exact Hlen|].
  exact (proj2 (proj2 (proj2 (proj2
           (root_selection_boundary rnd 1%positive 0.25%float h m Hw Hlen))))).
Defined.

Lemma change_design_unfold cos p geo_mat (h : heap) :
  change_design cos p geo_mat h =
    match h !! geo_mat with
    | Some m0 =>
        match normalise m0 with
        | Ok radius_nd =>
            let b := fresh (dom h) in
            match modifiers cos p radius_nd b (<[b:=m0]> h) with
            | (h', Ok _) => (h', Ok b)
            | (h', Raise e) => (h', Raise e)
            end
        | Raise e => (h, Raise e)
        end
    | None => (h, Raise "NameError")
    end.
Proof.
  unfold change_design, bind, get_radius_nd, copy, ret.
  destruct (h !! geo_mat) as [m0|] eqn:Hg; [|done].
  destruct (normalise m0) as [radius_nd|e]; [|done].
  by rewrite Hg.
Qed.

(** C4: the design change never writes the baseline array.  Whatever the
    switches and whatever the outcome (the script returns or a block
    raises), [geo_mat] holds after the run what it held before; when the run
    returns, [working_mat] is an array at another address, one that was not
    allocated before the run. *)
Theorem baseline_not_mutated (cos : float -> float) (p : params) (geo_mat : loc)
    (h : heap) :
  (change_design cos p geo_mat h).1 !! geo_mat = h !! geo_mat /\
  forall working_mat, (change_design cos p geo_mat h).2 = Ok working_mat ->
    working_mat <> geo_mat /\ h !! working_mat = None /\
    is_Some ((change_design cos p geo_mat h).1 !! working_mat).
Proof.
  rewrite change_design_unfold.
  destruct (h !! geo_mat) as [m0|] eqn:Hg; [|by simpl].
  destruct (normalise m0) as [radius_nd|e]; [|by simpl].
  simpl.
  set (b := fresh (dom h)).
  assert (Hb : h !! b = None) by apply not_elem_of_dom, is_fresh.
  assert (Hbg : b <> geo_mat) by congruence.
  destruct (modifiers_keep_radius cos p radius_nd b (<[b:=m0]> h) m0) as (m' & Hrun & _);
    [apply lookup_insert_eq|].
  destruct (modifiers cos p radius_nd b (<[b:=m0]> h)) as [h' [[]|e]];
    simpl in *; subst h'; rewrite insert_insert_eq.
  - split; [by rewrite lookup_insert_ne|].
    intros w' [= <-]. split_and!; [done..|]. rewrite lookup_insert_eq. eauto.
  - split; [by rewrite lookup_insert_ne|]. done.
Qed.

(** C5, as the script has it: with fewer weights than selected sections the
    manual-profile root twist raises Python's [IndexError], from the list
    index [manual_multiplier[i]]. *)
Theorem short_manual_weights_raise radius_nd w weights a t (h : heap) m :
  h !! w = Some m ->
  length weights < length (selected_until t radius_nd) ->
  (supertwist_the_root radius_nd w weights a t h).2 = Raise "IndexError".
Proof.
  intros Hw Hshort.
  change (supertwist_the_root radius_nd w weights a t)
    with (for_in (fun i r => if (r <=? t)%float
                             then rmw_step w C1 weights (fun v k => v + a * k)%float i
                             else ret tt) 0 radius_nd).
  rewrite (rmw_loop_sweep radius_nd w _ C1 weights _ h m Hw). simpl.
  destruct (sweep _ _ 0 radius_nd m).2 as [[]|e] eqn:Hres.
  - exfalso. apply (Nat.lt_irrefl (length weights)).
    eapply Nat.lt_le_trans; [exact Hshort|].
    apply (filter_length_bound (fun r => (r <=? t)%float)).
    intros k r Hk Hr.
    destruct (sweep_ok_inv _ _ radius_nd 0 m Hres k r Hk Hr) as (x & x' & _ & Hu).
    simpl in Hu. unfold rmw_upd in Hu.
    destruct (weights !! k) eqn:Hwk; [|done]. by eapply lookup_lt_Some.
  - f_equal. apply sweep_raises in Hres as [->|(j & x & Hu)]; [done|].
    unfold rmw_upd in Hu. destruct (weights !! j); congruence.
Qed.

(** Witness for C5: three selected sections and two weights. *)
Lemma short_manual_weights_raise_witness :
  let rnd := [0; 0.1; 0.2]%float in
  let m := [Row 0 1 5 60; Row 10 2 4 50; Row 20 3 3 40] in
  let h : heap := {[ 1%positive := m ]} in
  h !! 1%positive = Some m /\
  length [1; 0.8]%float < length (selected_until 0.25 rnd) /\
  (supertwist_the_root rnd 1%positive [1; 0.8]%float (-64) 0.25 h).2 = Raise "IndexError".
Proof.
  intros rnd m h.
  assert (Hw : h !! 1%positive = Some m) by reflexivity.
  assert (Hshort : length [1; 0.8]%float < length (selected_until 0.25 rnd))
    by (vm_compute; lia).
  split; [exact Hw|]. split; [exact Hshort|].
  exact (short_manual_weights_raise rnd 1%positive [1; 0.8]%float (-64)%float 0.25%float
           h m Hw Hshort).
Defined.

(** Counterexample to C5 as stated: with two weights for three selected
    sections the exception is [IndexError], not [ConfigurationError]; the
    twists of the first two sections have been shifted before it is raised. *)
Lemma short_manual_weights_not_configuration_error :
  let rnd := [0; 0.1; 0.2]%float in
  let m := [Row 0 1 5 60; Row 10 2 4 50; Row 20 3 3 40] in
  let h : heap := {[ 1%positive := m ]} in
  supertwist_the_root rnd 1%positive [1; 0.5]%float (-64) 0.25 h
  = (<[ 1%positive := [Row 0 (-63) 5 60; Row 10 (-30) 4 50; Row 20 3 3 40] ]> h,
     Raise "IndexError") /\
  (supertwist_the_root rnd 1%positive [1; 0.5]%float (-64) 0.25 h).2
  <> Raise "ConfigurationError".
Proof. split; [vm_compute; reflexivity|]. vm_compute. discriminate. Qed.

(** Every amount zero and the five blocks that have an amount on; three
    manual weights. *)
Definition shifts_on_zero (threshold : float) : params := {|
  root_linear_on := true;
  root_linear_chord_addition_ := 0%float;
  root_linear_changes_until := threshold;
  tip_cos_on := true;
  tip_cos_chord_addition_ := 0%float;
  tip_cos_changes_from := threshold;
  cos_on := true;
  cos_chord_addition_ := 0%float;
  twist_on := true;
  twist_twist_addition := 0%float;
  twist_changes_until := threshold;
  supertwist_on := true;
  manual_multiplier := [1; 0.80; 0.81]%float;
  supertwist_twist_addition := 0%float;
  supertwist_changes_until := threshold;
  cylindrical_on := false;
  cylindrical_changes_until := threshold
|}.

(** A polynomial stand-in for [np.cos], for runs on concrete data. *)
Definition cos_poly (x : float) : float :=
  (1 - x * x / 2 + x * x * x * x / 24)%float.

(** C8, as the script has it: the five blocks that have an amount (the three
    chord shifts and the two twist shifts), in any enabled combination, with
    every amount zero and finite multipliers, leave every field of
    [working_mat] the number it was, applied once or twice: radius and
    relative thickness are untouched, twist and chord are equal up to the
    sign of a zero.  The cylindrical override has no amount and is left out. *)
Theorem zero_amount_keeps_numbers (cos : float -> float) p radius_nd w :
  cylindrical_on p = false ->
  F64.is_zero (root_linear_chord_addition_ p) = true ->
  F64.is_zero (tip_cos_chord_addition_ p) = true ->
  F64.is_zero (cos_chord_addition_ p) = true ->
  F64.is_zero (twist_twist_addition p) = true ->
  F64.is_zero (supertwist_twist_addition p) = true ->
  Forall (fun r => F64.finite (r - 1.0)%float = true /\
                   F64.finite (cos (r * F64.pi)%float) = true) radius_nd ->
  Forall (fun k => F64.finite k = true) (manual_multiplier p) ->
  updates_only w (Forall2 same_numbers) (modifiers cos p radius_nd w) /\
  updates_only w (Forall2 same_numbers)
    (modifiers cos p radius_nd w ;;; modifiers cos p radius_nd w)%py.
Proof.
  intros Hcyl Z1 Z2 Z3 Z4 Z5 Hfin Hman.
  rewrite Forall_forall in Hfin. rewrite Forall_forall in Hman.
  assert (Hchord_sub : forall a x k, F64.is_zero a = true -> F64.finite k = true ->
            same_numbers x (set_col C2 (chord x - a * k)%float x)).
  { intros a x k Ha Hk. repeat split; simpl; try apply F64Facts.same_number_refl.
    by apply F64Facts.sub_zero_r, F64Facts.mul_zero_l. }
  assert (Hchord_add : forall a x k, F64.is_zero a = true -> F64.finite k = true ->
            same_numbers x (set_col C2 (chord x + a * k)%float x)).
  { intros a x k Ha Hk. repeat split; simpl; try apply F64Facts.same_number_refl.
    by apply F64Facts.add_zero_r, F64Facts.mul_zero_l. }
  assert (Htwist_add : forall a x k, F64.is_zero a = true -> F64.finite k = true ->
            same_numbers x (set_col C1 (twist x + a * k)%float x)).
  { intros a x k Ha Hk. repeat split; simpl; try apply F64Facts.same_number_refl.
    by apply F64Facts.add_zero_r, F64Facts.mul_zero_l. }
  assert (Honce : updates_only w (Forall2 same_numbers) (modifiers cos p radius_nd w)).
  { apply modifiers_updates_only; try apply _.
    - intros _ x r Hr. apply Hchord_sub; [done|]. by apply Hfin.
    - intros _ x r Hr. apply Hchord_add; [done|].
      rewrite F64Facts.opp_finite. by apply Hfin.
    - intros _ x r Hr. apply Hchord_add; [done|].
      rewrite F64Facts.opp_finite. by apply Hfin.
    - intros _ x r Hr. apply Htwist_add; [done|].
      rewrite F64Facts.opp_finite. by apply Hfin.
    - intros _ x k Hk. apply Htwist_add; [done|]. by apply Hman.
    - congruence. }
  split; [done|]. by apply updates_only_seq; try apply _.
Qed.

(** Witness for C8: all five shifts on with amount zero, three sections. *)
Lemma zero_amount_keeps_numbers_witness :
  let p := shifts_on_zero 0.5 in
  let rnd := [0; 0.5; 1]%float in
  updates_only 1%positive (Forall2 same_numbers) (modifiers cos_poly p rnd 1%positive) /\
  updates_only 1%positive (Forall2 same_numbers)
    (modifiers cos_poly p rnd 1%positive ;;; modifiers cos_poly p rnd 1%positive)%py.
Proof.
  intros p rnd.
  apply (zero_amount_keeps_numbers cos_poly p rnd 1%positive);
    try reflexivity;
    repeat (apply Forall_cons_2); try apply Forall_nil_2;
    try split; vm_compute; reflexivity.
Defined.

(** Counterexample to C8 as stated: with every amount zero and the
    cylindrical override on, applying the stack twice turns the relative
    thickness of the section at the root from 60 into 100. *)
Lemma zero_amount_cylindrical_not_noop :
  let rnd := [0; 0.5; 1]%float in
  let m := [Row 0 1 5 60; Row 50 2 4 50; Row 100 3 3 24] in
  let h : heap := {[ 1%positive := m ]} in
  let p := cylindrical_only_zero 0.25 in
  (modifiers cos_unused p rnd 1%positive ;;; modifiers cos_unused p rnd 1%positive)%py h
  = (<[ 1%positive := [Row 0 1 5 100; Row 50 2 4 50; Row 100 3 3 24] ]> h, Ok tt) /\
  rel_thickness (Row 0 1 5 100) <> rel_thickness (Row 0 1 5 60).
Proof.
  split; [vm_compute; reflexivity|].
  simpl. intros H. apply (f_equal (fun x => PrimFloat.eqb x 60)) in H.
  vm_compute in H. discriminate.
Qed.

(** C9: every block writes one column only: the three chord shifts column 2,
    the two twist shifts column 1, the cylindrical override column 3, whether
    the block returns or raises.  No block writes column 0, so after any
    combination of blocks the radius column, every property of it (such as
    its strictly increasing order) and the normalised radius computed from
    it are what they were before. *)
Theorem modifiers_write_own_column (cos : float -> float) radius_nd w :
  (forall a t, updates_only w (Forall2 (same_except C2))
                 (root_linear_chord_addition radius_nd w a t)) /\
  (forall a t, updates_only w (Forall2 (same_except C2))
                 (tip_cos_chord_addition cos radius_nd w a t)) /\
  (forall a, updates_only w (Forall2 (same_except C2))
               (cos_chord_addition cos radius_nd w a)) /\
  (forall a t, updates_only w (Forall2 (same_except C1))
                 (twist_the_root radius_nd w a t)) /\
  (forall weights a t, updates_only w (Forall2 (same_except C1))
                         (supertwist_the_root radius_nd w weights a t)) /\
  (forall t, updates_only w (Forall2 (same_except C3))
               (make_root_cylindrical radius_nd w t)) /\
  (forall p, updates_only w
               (fun m m' => radius <$> m' = radius <$> m /\
                            normalise m' = normalise m /\
                            forall P : list float -> Prop,
                              P (radius <$> m) -> P (radius <$> m'))
               (modifiers cos p radius_nd w)).
Proof.
  split_and!.
  - intros a t. apply updates_only_root_linear; [apply _|].
    intros x r _. apply same_except_set_col.
  - intros a t. apply updates_only_tip_cos; [apply _|].
    intros x r _. apply same_except_set_col.
  - intros a. apply updates_only_cos_chord; [apply _|].
    intros x r _. apply same_except_set_col.
  - intros a t. apply updates_only_twist; [apply _|].
    intros x r _. apply same_except_set_col.
  - intros weights a t. apply updates_only_supertwist; [apply _|].
    intros x r _. apply same_except_set_col.
  - intros t. apply updates_only_cylindrical; [apply _|].
    intros x. apply same_except_set_col.
  - intros p. eapply updates_only_weaken; [|apply modifiers_keep_radius].
    intros m m' Hr%Forall2_same_radius. cbv beta. split_and!.
    + done.
    + unfold normalise. by rewrite Hr.
    + intros P HP. by rewrite Hr.
Qed.

(** * Facts about [np.interp] *)

Module NumPyFacts.
Import NumPy.
Local Open Scope float_scope.

(** The bisection is not cut short: once the fuel covers the interval,
    more fuel changes nothing. *)
Lemma bisect_fuel key arr :
  forall f1 f2 imin imax,
    (imax - imin <= Z.of_nat f1)%Z -> (imax - imin <= Z.of_nat f2)%Z ->
    bisect f1 key arr imin imax = bisect f2 key arr imin imax.
Proof.
  induction f1 as [|f1 IH]; intros f2 imin imax H1 H2.
  - destruct f2 as [|f2]; simpl; [done|].
    destruct (imin <? imax)%Z eqn:E; [|done]. apply Z.ltb_lt in E. lia.
  - destruct f2 as [|f2]; simpl.
    + destruct (imin <? imax)%Z eqn:E; [|done]. apply Z.ltb_lt in E. lia.
    + destruct (imin <? imax)%Z eqn:E; [|done]. apply Z.ltb_lt in E.
      assert (Hhalf : (0 <= Z.shiftr (imax - imin) 1 < imax - imin)%Z).
      { rewrite Z.shiftr_div_pow2 by lia. change (2 ^ 1)%Z with 2%Z.
        split; [apply Z.div_pos; lia|apply Z.div_lt; lia]. }
      destruct (at_ arr _ <=? key); apply IH; lia.
Qed.

Lemma nan_ltb_l q a : is_nan q = true -> (q <? a) = false.
Proof.
  unfold is_nan. rewrite FloatAxioms.eqb_spec, FloatAxioms.ltb_spec. unfold SFeqb, SFltb.
  destruct (Prim2SF q) as [s|s| |s m e]; simpl; try done.
  - by destruct s.
  - rewrite Z.compare_refl.
    change (PosDef.Pos.compare_cont Eq m m) with (Pos.compare m m).
    rewrite Pos.compare_refl. by destruct s.
Qed.

Lemma nan_ltb_r q a : is_nan q = true -> (a <? q) = false.
Proof.
  unfold is_nan. rewrite FloatAxioms.eqb_spec, FloatAxioms.ltb_spec. unfold SFeqb, SFltb.
  destruct (Prim2SF q) as [s|s| |s m e]; simpl; try done.
  - by destruct s.
  - by destruct (Prim2SF a).
  - rewrite Z.compare_refl.
    change (PosDef.Pos.compare_cont Eq m m) with (Pos.compare m m).
    rewrite Pos.compare_refl. by destruct s.
Qed.

Lemma at_last (l : list float) v :
  last l = Some v -> at_ l (Z.of_nat (length l) - 1) = v.
Proof.
  intros Hl. unfold at_. rewrite last_lookup in Hl.
  replace (Z.to_nat (Z.of_nat (length l) - 1)) with (pred (length l)) by lia.
  by rewrite (nth_lookup_Some _ _ _ _ Hl).
Qed.

Lemma at_head (l : list float) v : head l = Some v -> at_ l 0 = v.
Proof. destruct l; simpl; [done|]. by intros [= ->]. Qed.

(** A query above the last sample point gets [rval]. *)
Lemma interp_point_above lval rval dx dy j q xn :
  last dx = Some xn -> (xn <? q) = true ->
  (interp_point lval rval dx dy j q).1 = rval.
Proof.
  intros Hlast Hq. unfold interp_point.
  destruct (is_nan q) eqn:Hnan.
  { by rewrite (nan_ltb_r q xn Hnan) in Hq. }
  unfold binary_search_with_guess. rewrite (at_last dx xn Hlast), Hq.
  assert (Hne : (Z.of_nat (length dx) =? -1)%Z = false) by (apply Z.eqb_neq; lia).
  by rewrite Hne, Z.eqb_refl.
Qed.

(** A query below the first sample point, and not above the last, gets
    [lval]. *)
Lemma interp_point_below lval rval dx dy j q x0 xn :
  head dx = Some x0 -> last dx = Some xn ->
  (q <? x0) = true -> (xn <? q) = false ->
  (interp_point lval rval dx dy j q).1 = lval.
Proof.
  intros Hhead Hlast Hq Hq'. unfold interp_point.
  destruct (is_nan q) eqn:Hnan.
  { by rewrite (nan_ltb_l q x0 Hnan) in Hq. }
  unfold binary_search_with_guess.
  by rewrite (at_last dx xn Hlast), Hq', (at_head dx x0 Hhead), Hq.
Qed.

Lemma interp_loop_length lval rval dx dy dz :
  forall j, length (interp_loop lval rval dx dy j dz) = length dz.
Proof.
  induction dz as [|q dz IH]; intros j; simpl; [done|].
  destruct (interp_point lval rval dx dy j q) as [res j']. simpl. by rewrite IH.
Qed.

(** Every result of the loop is the result of one turn, for some guess. *)
Lemma interp_loop_lookup lval rval dx dy dz :
  forall j i q, dz !! i = Some q ->
    exists j', interp_loop lval rval dx dy j dz !! i
               = Some (interp_point lval rval dx dy j' q).1.
Proof.
  induction dz as [|q0 dz IH]; intros j i q Hi; [done|]. simpl.
  destruct (interp_point lval rval dx dy j q0) as [res j'] eqn:E.
  destruct i as [|i]; simpl in *.
  - injection Hi as ->. exists j. by rewrite E.
  - by apply IH.
Qed.

(** [np.interp] returns whenever there is a sample point and as many
    values as sample points, whatever the order of the sample points, and
    it returns one value for each query. *)
Lemma interp_ok x xp fp :
  xp <> [] -> length fp = length xp ->
  exists ys, interp x xp fp = Ok ys /\ length ys = length x.
Proof.
  intros Hxp Hlen. unfold interp. destruct xp as [|x0 xp']; [done|].
  rewrite Hlen, Nat.eqb_refl. simpl.
  destruct xp' as [|x1 xp'].
  - eexists. split; [done|]. by rewrite length_fmap.
  - eexists. split; [done|]. by rewrite interp_loop_length.
Qed.

(** Outside the sample points [np.interp] clamps. *)
Lemma interp_clamps x xp fp ys x0 xn f0 fn :
  interp x xp fp = Ok ys ->
  head xp = Some x0 -> last xp = Some xn ->
  head fp = Some f0 -> last fp = Some fn ->
  forall i q, x !! i = Some q ->
    ((xn <? q) = true -> ys !! i = Some fn) /\
    ((q <? x0) = true -> (xn <? q) = false -> ys !! i = Some f0).
Proof.
  intros Hrun Hx0 Hxn Hf0 Hfn i q Hq. unfold interp in Hrun.
  destruct xp as [|x0' xp']; [done|]. simpl in Hx0. injection Hx0 as ->.
  destruct (negb _) eqn:Hlen; [done|].
  apply negb_false_iff, Nat.eqb_eq in Hlen. rewrite <- Hlen in Hrun.
  rewrite (at_last fp fn Hfn), (at_head fp f0 Hf0) in Hrun.
  destruct xp' as [|x1 xp'].
  - injection Hrun as <-. rewrite list_lookup_fmap, Hq. simpl.
    simpl in Hxn. injection Hxn as <-. unfold interp_single.
    split.
    + intros H. by rewrite (F64Facts.ltb_asym _ _ H), H.
    + intros H. by rewrite H.
  - injection Hrun as <-.
    destruct (interp_loop_lookup f0 fn (x0 :: x1 :: xp') fp x 0 i q Hq) as [j' ->].
    split.
    + intros H. f_equal. by eapply interp_point_above.
    + intros H H'. f_equal. by eapply interp_point_below.
Qed.

End NumPyFacts.

(** * [np.interp] between the sample points *)

Module SearchFacts.
Import NumPy.
Local Open Scope float_scope.

(** No element is [nan]. *)
Definition no_nan (l : list float) : Prop := Forall (fun a => is_nan a = false) l.

Lemma not_nan_SF x : is_nan x = false -> Prim2SF x <> S754_nan.
Proof.
  unfold is_nan. rewrite FloatAxioms.eqb_spec. intros H E. rewrite E in H. done.
Qed.

Lemma SFcompare_total a b :
  a <> S754_nan -> b <> S754_nan -> exists c, SFcompare a b = Some c.
Proof. destruct a, b; simpl; try done; eauto. Qed.

(** For numbers, [not (a < b)] is [b <= a]. *)
Lemma ltb_false_leb a b :
  is_nan a = false -> is_nan b = false -> (a <? b) = false -> (b <=? a) = true.
Proof.
  intros Ha%not_nan_SF Hb%not_nan_SF.
  rewrite FloatAxioms.ltb_spec, FloatAxioms.leb_spec. unfold SFltb, SFleb.
  rewrite (F64Facts.SFcompare_antisym (Prim2SF a) (Prim2SF b)).
  destruct (SFcompare_total _ _ Ha Hb) as [c ->]. by destruct c.
Qed.

(** For numbers, [not (a <= b)] is [b < a]. *)
Lemma leb_false_ltb a b :
  is_nan a = false -> is_nan b = false -> (a <=? b) = false -> (b <? a) = true.
Proof.
  intros Ha%not_nan_SF Hb%not_nan_SF.
  rewrite FloatAxioms.ltb_spec, FloatAxioms.leb_spec. unfold SFltb, SFleb.
  rewrite (F64Facts.SFcompare_antisym (Prim2SF a) (Prim2SF b)).
  destruct (SFcompare_total _ _ Ha Hb) as [c ->]. by destruct c.
Qed.

Lemma at_no_nan arr k :
  no_nan arr -> (0 <= k < Z.of_nat (length arr))%Z -> is_nan (at_ arr k) = false.
Proof.
  intros Hall Hk. unfold at_.
  destruct (lookup_lt_is_Some_2 arr (Z.to_nat k)) as [a Ha]; [lia|].
  rewrite (nth_lookup_Some _ _ _ _ Ha).
  unfold no_nan in Hall. rewrite Forall_forall in Hall.
  apply Hall. by eapply list_elem_of_lookup_2.
Qed.

Section Bracket.

Variable key : float.
Variable arr : list float.
Hypothesis Hkey : is_nan key = false.
Hypothesis Harr : no_nan arr.

Let len := Z.of_nat (length arr).

(** The bisection keeps a sample point that is [<= key] just below [imin]
    and one that is [> key] at [imax]. *)
Lemma bisect_bracket fuel :
  forall lo hi,
    (hi - lo <= Z.of_nat fuel)%Z -> (0 <= lo <= hi)%Z -> (hi <= len)%Z ->
    let r := bisect fuel key arr lo hi in
    (lo <= r <= hi)%Z /\
    (r = lo \/ (at_ arr (r - 1) <=? key) = true) /\
    (r = hi \/ (key <? at_ arr r) = true).
Proof.
  induction fuel as [|fuel IH]; intros lo hi Hfuel Hlo Hhi; cbv zeta; simpl.
  - assert (lo = hi) as -> by lia. split_and!; try lia; by left.
  - cbv zeta in IH. destruct (lo <? hi)%Z eqn:E.
    + apply Z.ltb_lt in E.
      assert (Hhalf : (0 <= Z.shiftr (hi - lo) 1 < hi - lo)%Z).
      { rewrite Z.shiftr_div_pow2 by lia. change (2 ^ 1)%Z with 2%Z.
        split; [apply Z.div_pos; lia|apply Z.div_lt; lia]. }
      set (imid := (lo + Z.shiftr (hi - lo) 1)%Z) in *.
      destruct (at_ arr imid <=? key) eqn:Hmid.
      * destruct (IH (imid + 1)%Z hi) as (Hr & Hbelow & Habove); [lia..|].
        split_and!; try lia; [|done].
        right. destruct Hbelow as [->|H]; [|done].
        by replace (imid + 1 - 1)%Z with imid by lia.
      * apply leb_false_ltb in Hmid; [|apply at_no_nan; [done|lia]|done].
        destruct (IH lo imid) as (Hr & Hbelow & Habove); [lia..|].
        split_and!; try lia; [done|].
        right. destruct Habove as [->|H]; done.
    + apply Z.ltb_ge in E. assert (lo = hi) as -> by lia.
      split_and!; try lia; by left.
Qed.

(** From a sample point that is [<= key] at [lo] the search returns an index
    in [lo, hi) whose sample point is [<= key], with the next one [> key]
    unless it is [hi], where the caller knows what holds. *)
Lemma search_bracket lo hi :
  (0 <= lo)%Z -> (lo <= hi)%Z -> (hi <= len)%Z ->
  (at_ arr lo <=? key) = true ->
  (hi = len \/ (key <? at_ arr hi) = true) ->
  let j := (bisect (Z.to_nat (hi - lo)) key arr lo hi - 1)%Z in
  (lo <= j < hi)%Z /\ (at_ arr j <=? key) = true /\
  (j = (len - 1)%Z \/ (key <? at_ arr (j + 1)) = true).
Proof.
  intros H0 Hlohi Hhi Hlo Hup.
  destruct (bisect_bracket (Z.to_nat (hi - lo)) lo hi) as (Hr & Hbelow & Habove);
    [lia..|].
  cbv zeta in *. set (r := bisect _ key arr lo hi) in *.
  assert (Hne : r <> lo).
  { intros ->. destruct Habove as [<-|H].
    - destruct Hup as [->|H].
      + unfold at_ in Hlo. rewrite nth_overflow in Hlo by (unfold len; lia).
        rewrite FloatAxioms.leb_spec in Hlo.
        by change (Prim2SF nan) with S754_nan in Hlo.
      + by rewrite (F64Facts.ltb_leb_false _ _ H) in Hlo.
    - by rewrite (F64Facts.ltb_leb_false _ _ H) in Hlo. }
  destruct Hbelow as [?|Hbelow]; [done|].
  split_and!; try lia; [done|].
  replace (r - 1 + 1)%Z with r by lia.
  destruct Habove as [->|H]; [|by right].
  destruct Hup as [->|H]; [left; lia|by right].
Qed.

Lemma linear_search_bracket rest :
  (0 <= linear_search key rest <= Z.of_nat (length rest))%Z /\
  (forall k, (0 <= k < linear_search key rest)%Z -> (at_ rest k <=? key) = true) /\
  (linear_search key rest = Z.of_nat (length rest) \/
   (at_ rest (linear_search key rest) <=? key) = false).
Proof.
  induction rest as [|a rest IH]; simpl.
  - split; [lia|]. split; [intros; lia|by left].
  - destruct (a <=? key) eqn:Ha.
    + destruct IH as (Hc & Hall & Hend). split; [lia|]. split.
      * intros k Hk. destruct (decide (k = 0%Z)) as [->|Hk0]; [done|].
        unfold at_. replace (Z.to_nat k) with (S (Z.to_nat (k - 1))) by lia.
        simpl. apply Hall. lia.
      * destruct Hend as [->|Hend]; [left; lia|right].
        unfold at_.
        replace (Z.to_nat (1 + linear_search key rest))
          with (S (Z.to_nat (linear_search key rest))) by lia.
        done.
    + split; [lia|]. split; [intros; lia|by right].
Qed.

Lemma at_tail k : (0 <= k)%Z -> at_ (tail arr) k = at_ arr (k + 1).
Proof.
  intros Hk. unfold at_. replace (Z.to_nat (k + 1)) with (S (Z.to_nat k)) by lia.
  destruct arr as [|a l]; simpl; [by destruct (Z.to_nat k)|done].
Qed.

(** For a [key] between the first and the last sample point, the index
    found has its sample point [<= key] and the next one [> key]. *)
Lemma binary_search_bracket guess :
  arr <> [] ->
  (at_ arr (len - 1) <? key) = false ->
  (key <? at_ arr 0) = false ->
  let j := binary_search_with_guess key arr guess in
  (0 <= j <= len - 1)%Z /\ (at_ arr j <=? key) = true /\
  (j = (len - 1)%Z \/ (key <? at_ arr (j + 1)) = true).
Proof.
  intros Hne Hlast Hfirst.
  assert (Hlen : (1 <= len)%Z) by (unfold len; destruct arr; [done|simpl; lia]).
  assert (H0 : (at_ arr 0 <=? key) = true).
  { apply ltb_false_leb; [done|apply at_no_nan; [done|fold len; lia]|done]. }
  assert (Hnn : forall k, (0 <= k < len)%Z -> is_nan (at_ arr k) = false)
    by (intros; by apply at_no_nan).
  assert (Hge : forall k, (0 <= k < len)%Z -> (key <? at_ arr k) = false ->
                          (at_ arr k <=? key) = true).
  { intros k Hk H. apply ltb_false_leb; auto. }
  cbv zeta. unfold binary_search_with_guess. fold len. rewrite Hlast, Hfirst.
  destruct (len <=? 4)%Z eqn:Hsmall.
  - destruct (linear_search_bracket (tail arr)) as (Hc & Hall & Hend).
    set (c := linear_search key (tail arr)) in *.
    assert (Htl : Z.of_nat (length (tail arr)) = (len - 1)%Z).
    { unfold len. destruct arr; [done|simpl; lia]. }
    rewrite Htl in Hc, Hend. split; [lia|]. split.
    + destruct (decide (c = 0%Z)) as [Hc0|Hc0]; [by rewrite Hc0|].
      replace c with (c - 1 + 1)%Z by lia. rewrite <- at_tail by lia.
      apply Hall. lia.
    + destruct (decide (c = (len - 1)%Z)) as [Hc1|Hc1]; [by left|right].
      destruct Hend as [?|Hend]; [done|].
      rewrite at_tail in Hend by lia.
      apply leb_false_ltb; [apply Hnn; lia|done|done].
  - apply Z.leb_gt in Hsmall.
    set (g1 := if (guess >? len - 3)%Z then (len - 3)%Z else guess).
    set (g := if (g1 <? 1)%Z then 1%Z else g1).
    assert (Hg : (1 <= g <= len - 3)%Z).
    { unfold g, g1. rewrite Z.gtb_ltb. destruct (len - 3 <? guess)%Z eqn:E1.
      - destruct (len - 3 <? 1)%Z eqn:E2; [apply Z.ltb_lt in E2|]; lia.
      - apply Z.ltb_ge in E1.
        destruct (guess <? 1)%Z eqn:E2; [lia|apply Z.ltb_ge in E2; lia]. }
    clearbody g. clear g1. unfold LIKELY_IN_CACHE_SIZE.
    destruct (key <? at_ arr g) eqn:Eg.
    + destruct (key <? at_ arr (g - 1)) eqn:Eg1.
      * destruct ((g >? 8)%Z && (at_ arr (g - 8) <=? key)) eqn:Ecache.
        -- apply andb_prop in Ecache as [E8 Elo]. rewrite Z.gtb_ltb in E8.
           apply Z.ltb_lt in E8.
           destruct (search_bracket (g - 8) (g - 1)) as (Hj & Hle & Hup);
             [lia..|done|by right|].
           split; [lia|]. by split.
        -- destruct (search_bracket 0 (g - 1)) as (Hj & Hle & Hup);
             [lia..|done|by right|].
           split; [lia|]. by split.
      * split; [lia|]. split; [apply Hge; [lia|done]|right].
        by replace (g - 1 + 1)%Z with g by lia.
    + destruct (key <? at_ arr (g + 1)) eqn:Eg1.
      * split; [lia|]. split; [apply Hge; [lia|done]|by right].
      * destruct (key <? at_ arr (g + 2)) eqn:Eg2.
        -- split; [lia|]. split; [apply Hge; [lia|done]|right].
           by replace (g + 1 + 1)%Z with (g + 2)%Z by lia.
        -- destruct ((g <? len - 8 - 1)%Z && (key <? at_ arr (g + 8))) eqn:Ecache.
           ++ apply andb_prop in Ecache as [E8 Ehi]. apply Z.ltb_lt in E8.
              destruct (search_bracket (g + 2) (g + 8)) as (Hj & Hle & Hup);
                [lia..|apply Hge; [lia|done]|by right|].
              split; [lia|]. by split.
           ++ destruct (search_bracket (g + 2) len) as (Hj & Hle & Hup);
                [lia..|apply Hge; [lia|done]|by left|].
              split; [lia|]. by split.
Qed.

End Bracket.

(** [v] is the value at [q] of the piecewise-linear interpolant of the
    samples: some sample point [j] is [<= q], the next one, if there is one,
    is [> q], and [v] is the sample value at [j] when [q] is that sample
    point or [j] is the last, and else the value on the line to the next
    sample. *)
Definition on_segment (xp fp : list float) (q v : float) : Prop :=
  exists j : Z,
    (0 <= j <= Z.of_nat (length xp) - 1)%Z /\
    (at_ xp j <=? q) = true /\
    (j = (Z.of_nat (length xp) - 1)%Z \/ (q <? at_ xp (j + 1)) = true) /\
    v = if (j =? Z.of_nat (length xp) - 1)%Z || (at_ xp j =? q)
        then at_ fp j else segment xp fp j q.

Lemma interp_point_on_segment lval rval dx dy g q :
  no_nan dx -> is_nan q = false -> dx <> [] ->
  (at_ dx (Z.of_nat (length dx) - 1) <? q) = false ->
  (q <? at_ dx 0) = false ->
  on_segment dx dy q (interp_point lval rval dx dy g q).1.
Proof.
  intros Hdx Hq Hne Hlast Hfirst.
  destruct (binary_search_bracket q dx Hq Hdx g Hne Hlast Hfirst) as (Hj & Hle & Hup).
  unfold interp_point. rewrite Hq.
  set (j := binary_search_with_guess q dx g) in *.
  exists j. split; [done|]. split; [done|]. split; [done|].
  assert ((j =? -1)%Z = false) as -> by (apply Z.eqb_neq; lia).
  assert ((j =? Z.of_nat (length dx))%Z = false) as -> by (apply Z.eqb_neq; lia).
  destruct (j =? Z.of_nat (length dx) - 1)%Z; [done|]. simpl.
  by destruct (at_ dx j =? q).
Qed.

(** Between the first and the last sample point [np.interp] gives the
    piecewise-linear interpolant, whatever the order of the sample points in
    between. *)
Lemma interp_on_segment x xp fp ys :
  interp x xp fp = Ok ys ->
  no_nan xp ->
  forall i q v, x !! i = Some q -> ys !! i = Some v ->
    is_nan q = false ->
    (at_ xp (Z.of_nat (length xp) - 1) <? q) = false ->
    (q <? at_ xp 0) = false ->
    on_segment xp fp q v.
Proof.
  intros Hrun Hxp i q v Hq Hv Hnan Hlast Hfirst. unfold interp in Hrun.
  destruct xp as [|x0 xp']; [done|].
  destruct (negb _); [done|].
  destruct xp' as [|x1 xp'].
  - injection Hrun as <-. rewrite list_lookup_fmap, Hq in Hv. injection Hv as <-.
    assert (Hl : (x0 <? q) = false) by exact Hlast.
    assert (Hf : (q <? x0) = false) by exact Hfirst.
    exists 0%Z. unfold interp_single. rewrite Hf, Hl.
    split; [simpl; lia|]. split; [|split; [by left|done]].
    change (at_ [x0] 0) with x0.
    apply ltb_false_leb; [done| |done].
    unfold no_nan in Hxp. by apply Forall_cons in Hxp as [? _].
  - injection Hrun as <-.
    match type of Hv with
    | context [interp_loop ?l ?r ?dx ?dy ?j x] =>
        destruct (NumPyFacts.interp_loop_lookup l r dx dy x j i q Hq) as [g Hg]
    end.
    rewrite Hg in Hv. injection Hv as <-.
    by apply interp_point_on_segment.
Qed.

End SearchFacts.

(** * The reading of [geo_mat] *)

(** The rows [build_geo_mat] stores: the [ae.dat] columns with the resampled
    twists. *)
Definition geo_rows (ae_data : list (float * float * float)) (tw : list float) : list row :=
  zip_with (fun a v => Row a.1.1 v a.1.2 a.2) ae_data tw.

(** A resampled twist [v] at radius [q] is clamped to the end values [f0] and
    [fn] of the samples outside their end radii [x0] and [xn]. *)
Definition clamped (x0 xn f0 fn q v : float) : Prop :=
  ((xn <? q)%float = true -> v = fn) /\
  ((q <? x0)%float = true -> (xn <? q)%float = false -> v = f0) /\
  ((q <? x0)%float = true -> (x0 <=? xn)%float = true -> v = f0).

Lemma clamped_intro x0 xn f0 fn q v :
  ((xn <? q)%float = true -> v = fn) ->
  ((q <? x0)%float = true -> (xn <? q)%float = false -> v = f0) ->
  clamped x0 xn f0 fn q v.
Proof.
  intros Ha Hb. split_and!; [done..|]. intros Hq Hord. apply Hb; [done|].
  apply F64Facts.ltb_asym. by eapply F64Facts.ltb_leb_trans.
Qed.

Lemma geo_columns ae_data tw :
  length tw = length ae_data ->
  zip_with (set_col C3) ((fun r => r.2) <$> ae_data)
    (zip_with (set_col C2) ((fun r => r.1.2) <$> ae_data)
       (zip_with (set_col C1) tw
          (zip_with (set_col C0) ((fun r => r.1.1) <$> ae_data)
             (replicate (length ((fun r : float * float * float => r.1.1) <$> ae_data))
                (Row 0 0 0 0)))))
  = geo_rows ae_data tw.
Proof.
  rewrite length_fmap. revert tw.
  induction ae_data as [|[[r c] t] ae IH]; intros [|v tw] Hlen; try done.
  simpl in *. f_equal. apply IH. lia.
Qed.

Lemma radius_column ae_data :
  get_col C0 <$>
    zip_with (set_col C0) ((fun r : float * float * float => r.1.1) <$> ae_data)
      (replicate (length ((fun r : float * float * float => r.1.1) <$> ae_data))
         (Row 0 0 0 0))
  = (fun r => r.1.1) <$> ae_data.
Proof.
  rewrite length_fmap. induction ae_data as [|[[r c] t] ae IH]; [done|].
  simpl. by f_equal.
Qed.

(** When [np.interp] returns, [build_geo_mat] returns a fresh array that
    holds [geo_rows]. *)
Lemma build_geo_mat_ok ae_data twist_table (h : heap) tw :
  NumPy.interp ((fun r => r.1.1) <$> ae_data) (fst <$> twist_table) (snd <$> twist_table)
  = Ok tw ->
  length tw = length ae_data ->
  build_geo_mat ae_data twist_table h
  = (<[fresh (dom h) := geo_rows ae_data tw]> h, Ok (fresh (dom h))).
Proof.
  intros Hinterp Hlen. unfold build_geo_mat, bind, zeros, col_set, col_get, ret.
  set (g := fresh (dom h)).
  rewrite lookup_insert_eq.
  rewrite decide_True by (by rewrite length_replicate).
  rewrite insert_insert_eq, lookup_insert_eq.
  rewrite radius_column, Hinterp.
  rewrite lookup_insert_eq.
  rewrite decide_True
    by (by rewrite length_zip_with, length_replicate, !length_fmap, Nat.min_id).
  rewrite insert_insert_eq, lookup_insert_eq.
  rewrite decide_True
    by (rewrite !length_zip_with, length_replicate, !length_fmap; lia).
  rewrite insert_insert_eq, lookup_insert_eq.
  rewrite decide_True
    by (rewrite !length_zip_with, length_replicate, !length_fmap; lia).
  rewrite insert_insert_eq. by rewrite geo_columns.
Qed.

Lemma geo_rows_lookup ae_data tw i x :
  geo_rows ae_data tw !! i = Some x ->
  ((fun r : float * float * float => r.1.1) <$> ae_data) !! i = Some (radius x) /\
  tw !! i = Some (twist x).
Proof.
  unfold geo_rows. intros (a & v & -> & Ha & Hv)%lookup_zip_with_Some.
  by rewrite list_lookup_fmap, Ha.
Qed.



(** With a twist sub-table of at least one row, [np.interp] returns one
    twist for each section and [build_geo_mat] returns. *)
Lemma build_geo_mat_returns ae_data twist_table (h : heap) :
  twist_table <> [] ->
  exists tw,
    NumPy.interp ((fun r => r.1.1) <$> ae_data) (fst <$> twist_table) (snd <$> twist_table)
    = Ok tw /\
    length tw = length ae_data /\
    build_geo_mat ae_data twist_table h
    = (<[fresh (dom h) := geo_rows ae_data tw]> h, Ok (fresh (dom h))).
Proof.
  intros Hne.
  destruct (NumPyFacts.interp_ok ((fun r => r.1.1) <$> ae_data)
              (fst <$> twist_table) (snd <$> twist_table)) as (tw & Hrun & Hlen).
  { by destruct twist_table. }
  { by rewrite !length_fmap. }
  rewrite length_fmap in Hlen. exists tw. split_and!; [done..|].
  by apply build_geo_mat_ok.
Qed.



(** The interpolation example: [(0, 10), (1, 0)] on [0, 0.5, 1] gives
    [10, 5, 0]. *)
Example interp_example :
  NumPy.interp [0; 0.5; 1]%float [0; 1]%float [10; 0]%float = Ok [10; 5; 0]%float.
Proof. vm_compute. reflexivity. Qed.


(** * Checks of the text functions *)

(** [str] on floats whose Python [repr] is known. *)
Example str_examples :
  FloatText.str <$> [0.1; 5.38; 100; 0.1 + 0.2; 1 / 3; 1e22; 1e16; 1e15; 1.5e-7;
                     0.0001; 0.00001; -2.5; 5e-324; 1.7976931348623157e308]%float
  = ["0.1"; "5.38"; "100.0"; "0.30000000000000004"; "0.3333333333333333"; "1e+22";
     "1e+16"; "1000000000000000.0"; "1.5e-07"; "0.0001"; "1e-05"; "-2.5"; "5e-324";
     "1.7976931348623157e+308"].
Proof. vm_compute. reflexivity. Qed.

(** [float] agrees with the binary64 literals of Rocq. *)
Example float_of_str_examples :
  FloatText.float_of_str <$> ["5.38000000000000000e+00"; "-1.45000E+01"; ".5"; "5.";
                              "0.81"; "1e400"; "inf"; "abc"; "1e"; ""]
  = [Some 5.38; Some (-14.5); Some 0.5; Some 5; Some 0.81; Some infinity;
     Some infinity; None; None; None]%float.
Proof. vm_compute. reflexivity. Qed.

(** The numbers of the script read back from their [str]. *)
Example str_reads_back :
  Forall (fun x => FloatText.float_of_str (FloatText.str x) = Some x)
    (manual_multiplier script_params ++ [F64.pi; 0.25; -64; 1.7976931348623157e308;
                                         5e-324; 2.2250738585072014e-308]%float).
Proof. repeat constructor. Qed.

Example split_examples :
  PyStr.split " " "sec 1  0.0" = ["sec"; "1"; ""; "0.0"] /\
  PyStr.split " " "" = [""] /\
  PyStr.split_ws "  sec 1   0.0 " = ["sec"; "1"; "0.0"] /\
  PyStr.strip "  a b  " = "a b" /\
  PyStr.join " " ["a"; "b"; "c"] = "a b c" /\
  PyStr.remove "" ["a"; ""; "b"; ""] = ["a"; "b"; ""] /\
  PyStr.contains "ae_filename" "  ae_filename ./data/x.dat ;" = true.
Proof. repeat split. Qed.

(** * Facts about the script *)

Lemma bind_ok_inv {S A B} (m : ST S A) (k : A -> ST S B) s s' b :
  bind m k s = (s', Ok b) ->
  exists s1 a, m s = (s1, Ok a) /\ k a s1 = (s', Ok b).
Proof.
  unfold bind. destruct (m s) as [s1 [a|e]]; [|done]. intros H. by exists s1, a.
Qed.

Lemma on_arrays_inv {A} (c : M A) w w' r :
  on_arrays c w = (w', r) ->
  disk w' = disk w /\ c (arrays w) = (arrays w', r).
Proof.
  unfold on_arrays. destruct (c (arrays w)) as [h r']. by intros [= <- <-].
Qed.

Lemma on_disk_inv {A} (c : IO A) w w' r :
  on_disk c w = (w', r) ->
  arrays w' = arrays w /\ c (disk w) = (disk w', r).
Proof.
  unfold on_disk. destruct (c (disk w)) as [d r']. by intros [= <- <-].
Qed.

Lemma lift_inv {S A} (x : result A) (s s' : S) r :
  lift x s = (s', r) -> s' = s /\ r = x.
Proof. by intros [= <- <-]. Qed.

Lemma read_text_inv path d d' r :
  read_text path d = (d', r) ->
  d' = d /\ (forall s, r = Ok s -> files d !! path = Some s).
Proof.
  unfold read_text. destruct (files d !! path) as [s|]; intros [= <- <-];
    split; try done. by intros s' [= ->].
Qed.

Lemma write_text_inv path s d d' r :
  write_text path s d = (d', r) ->
  (r = Ok tt /\ d' = FS (<[path := s]> (files d)) (locked d)) \/
  (r = Raise "PermissionError" /\ d' = d).
Proof.
  unfold write_text. case_decide; intros [= <- <-]; [by right|by left].
Qed.

(** What a copy does to the disk: it adds or replaces the destination with
    the text of the source, or it raises and leaves the disk as it was. *)
Lemma shutil_copy_inv src dst d d' r :
  shutil_copy src dst d = (d', r) ->
  (exists s, r = Ok tt /\ files d !! src = Some s /\
             d' = FS (<[dst := s]> (files d)) (locked d)) \/
  (exists e, r = Raise e /\ d' = d).
Proof.
  unfold shutil_copy, bind. destruct (read_text src d) as [d1 [s|e]] eqn:Hread.
  - apply read_text_inv in Hread as [-> Hs]. specialize (Hs s eq_refl).
    case_decide; [intros [= <- <-]; right; eauto|].
    intros [[-> ->]|[-> ->]]%write_text_inv; [left|right]; eauto.
  - apply read_text_inv in Hread as [-> _]. intros [= <- <-]. right. eauto.
Qed.

Lemma on_disk_read_inv path w w' s :
  on_disk (read_text path) w = (w', Ok s) ->
  w' = w /\ files (disk w) !! path = Some s.
Proof.
  destruct w as [h d]. unfold on_disk, read_text. simpl.
  destruct (files d !! path) as [s'|]; [|done]. by intros [= <- <-].
Qed.

Section ScriptFacts.

Variable cos : float -> float.
Variable p : params.
Variable st : settings.

(** All that [prepare] does to the disk is to save the plot. *)
Lemma prepare_disk w w1 r :
  prepare cos p st w = (w1, Ok r) ->
  disk w1 = FS (<[plot_filename st := figure st]> (files (disk w))) (locked (disk w)).
Proof.
  unfold prepare. intros H.
  apply bind_ok_inv in H as (wa & ae_text & Ha & H).
  apply on_disk_inv in Ha as [_ Ha]. apply read_text_inv in Ha as [Ha _].
  apply bind_ok_inv in H as (wb & ae_data & Hb & H). apply lift_inv in Hb as [-> _].
  apply bind_ok_inv in H as (wc & [] & Hc & H). apply lift_inv in Hc as [-> _].
  apply bind_ok_inv in H as (wd & htc_text & Hd & H).
  apply on_disk_inv in Hd as [_ Hd]. apply read_text_inv in Hd as [Hd _].
  apply bind_ok_inv in H as (we & tw & He & H). apply lift_inv in He as [-> _].
  apply bind_ok_inv in H as (wf & [] & Hf & H). apply lift_inv in Hf as [-> _].
  apply bind_ok_inv in H as (wg & geo & Hg & H). apply on_arrays_inv in Hg as [Hg _].
  apply bind_ok_inv in H as (wh & wm & Hh & H). apply on_arrays_inv in Hh as [Hh _].
  apply bind_ok_inv in H as (wi & [] & Hi & H).
  apply on_disk_inv in Hi as [_ Hi].
  apply write_text_inv in Hi as [[_ Hi]|[? _]]; [|done].
  apply bind_ok_inv in H as (wj & htw & Hj & H). apply on_arrays_inv in Hj as [Hj _].
  apply bind_ok_inv in H as (wk & rows & Hk & H). apply on_arrays_inv in Hk as [Hk _].
  injection H as <- _.
  rewrite Hk, Hj, Hi, Hh, Hg, Hd, Ha. done.
Qed.

End ScriptFacts.

(** * The copy step *)

Module Example.

(** A small blade: three sections, the twist sub-table on lines 2 to 4 of
    the [.htc] file. *)
Definition st : settings := {|
  design_name := "WDR";
  ae_file_pathname := "data/ref_ae.dat";
  htc_file_pathname := "ref.htc";
  directory := "";
  htc_start_line := 2;
  max_rows := 3;
  n_sec := 3;
  ae_start_line := 2;
  figure := "%PDF"
|}.

Definition ae_text : string :=
  "1 r [m] Chord[m] T/C[%] Set no." ++ nl ++
  "1 3" ++ nl ++
  "0.00000e+00" ++ tab ++ "5.38" ++ tab ++ "1.0e+02" ++ tab ++ "1" ++ tab ++ ";" ++ nl ++
  "5.0e+01" ++ tab ++ "4.0" ++ tab ++ "50" ++ tab ++ "1" ++ tab ++ ";" ++ nl ++
  " 100" ++ tab ++ "3" ++ tab ++ "24.1" ++ tab ++ "1" ++ tab ++ ";  " ++ nl.

Definition htc_text : string :=
  "begin c2_def;" ++ nl ++
  "    ae_filename ./data/ref_ae.dat ;" ++ nl ++
  "        sec" ++ tab ++ "1  0.0 0.0 0.0 -14.5;" ++ nl ++
  tab ++ tab ++ "sec" ++ tab ++ "2 0.0 0.0 50.0 -8.0;" ++ nl ++
  tab ++ tab ++ "sec" ++ tab ++ "3 0.0 0.0 100.0 -3.0;" ++ nl ++
  "end c2_def;" ++ nl.

Definition originals : gmap string string :=
  {[ "data/ref_ae.dat" := ae_text; "ref.htc" := htc_text ]}.

(** Both originals on disk, every path writable. *)
Definition w0 : world := World ∅ (FS originals ∅).

(** The same, but the new [ae.dat] file cannot be written. *)
Definition w_locked : world := World ∅ (FS originals {[ new_ae_filename st ]}).

End Example.

(** C7, as the script has it: when the copy step raises, the run ends with
    [SystemExit] and neither file is rewritten.  Up to there the script has
    saved the plot, and nothing else has changed on disk, except that the
    copy of the [.htc] file is there when it is the second copy that
    raised. *)
Theorem copy_failure_aborts (cos : float -> float) p st w w1 r w2 e :
  prepare cos p st w = (w1, Ok r) ->
  on_disk (shutil_copy (htc_file_pathname st) (new_htc_filename st) ;;;
           shutil_copy (ae_file_pathname st) (new_ae_filename st))%py w1
  = (w2, Raise e) ->
  main cos p st w = (w2, Raise "SystemExit") /\
  files (disk w1) = <[plot_filename st := figure st]> (files (disk w)) /\
  (files (disk w2) = files (disk w1) \/
   exists s, files (disk w1) !! htc_file_pathname st = Some s /\
             files (disk w2) = <[new_htc_filename st := s]> (files (disk w1))).
Proof.
  intros Hprep Hcopy. split_and!.
  - unfold main, bind. rewrite Hprep. unfold copy_originals, try_except.
    by rewrite Hcopy.
  - by rewrite (prepare_disk cos p st w w1 r Hprep).
  - apply on_disk_inv in Hcopy as [_ Hcopy]. unfold bind in Hcopy.
    destruct (shutil_copy (htc_file_pathname st) _ (disk w1)) as [d1 [[]|e1]] eqn:H1.
    + apply shutil_copy_inv in H1 as [(s & _ & Hs & ->)|(? & ? & _)]; [|done].
      destruct (shutil_copy (ae_file_pathname st) _ _) as [d2 r2] eqn:H2.
      apply shutil_copy_inv in H2 as [(? & -> & _)|(e2 & -> & ->)]; [done|].
      injection Hcopy as <- _. right. by exists s.
    + apply shutil_copy_inv in H1 as [(? & ? & _)|(? & _ & ->)]; [done|].
      injection Hcopy as <- _. by left.
Qed.

(** Witness for C7: the new [ae.dat] path cannot be written. *)
Lemma copy_failure_aborts_witness :
  exists w1 r w2 e,
    prepare cos_unused all_off Example.st Example.w_locked = (w1, Ok r) /\
    on_disk (shutil_copy (htc_file_pathname Example.st) (new_htc_filename Example.st) ;;;
             shutil_copy (ae_file_pathname Example.st) (new_ae_filename Example.st))%py w1
    = (w2, Raise e) /\
    main cos_unused all_off Example.st Example.w_locked = (w2, Raise "SystemExit").
Proof.
  destruct (prepare cos_unused all_off Example.st Example.w_locked) as [w1 r] eqn:Hprep.
  assert (Hr : exists x, r = Ok x) by (vm_compute in Hprep; injection Hprep as _ <-; eauto).
  destruct Hr as [x ->].
  destruct (on_disk (shutil_copy (htc_file_pathname Example.st) (new_htc_filename Example.st) ;;;
             shutil_copy (ae_file_pathname Example.st) (new_ae_filename Example.st))%py w1)
    as [w2 r2] eqn:Hcopy.
  assert (He : exists e, r2 = Raise e).
  { vm_compute in Hprep. injection Hprep as <-.
    vm_compute in Hcopy. injection Hcopy as _ <-. eauto. }
  destruct He as [e ->].
  exists w1, x, w2, e. split; [done|]. split; [done|].
  exact (proj1 (copy_failure_aborts cos_unused all_off Example.st Example.w_locked
                  w1 x w2 e Hprep Hcopy)).
Defined.

(** Counterexample to C7 as stated: with the new [ae.dat] path not writable
    the run quits, and by then two files have been created that were not on
    disk before: the plot and the copy of the [.htc] file. *)
Lemma copy_failure_leaves_files :
  let '(w', r) := main cos_unused all_off Example.st Example.w_locked in
  r = Raise "SystemExit" /\
  files (disk Example.w_locked) !! new_htc_filename Example.st = None /\
  files (disk w') !! new_htc_filename Example.st = Some Example.htc_text /\
  files (disk Example.w_locked) !! plot_filename Example.st = None /\
  files (disk w') !! plot_filename Example.st = Some "%PDF".
Proof. vm_compute. repeat split. Qed.

(** * The rewriting of the files *)

(** A turn that, on a line, either raises, or leaves the content, or
    replaces the entry of that line. *)
Definition turn_spec (turn : nat -> string -> list string -> result (list string))
    (g : nat -> string -> result (option string)) : Prop :=
  forall i line (content : list string), i < length content ->
    turn i line content =
      rbind (g i line) (fun o => Ok (match o with
                                     | Some v => <[i := v]> content
                                     | None => content
                                     end)).

Lemma setitem_ok (l : list string) i v :
  i < length l -> PyStr.setitem l i v = Ok (<[i := v]> l).
Proof. intros Hi. unfold PyStr.setitem. by apply Nat.ltb_lt in Hi as ->. Qed.

Lemma setitem_inv (l l' : list string) i v :
  PyStr.setitem l i v = Ok l' -> i < length l /\ l' = <[i := v]> l.
Proof.
  unfold PyStr.setitem. destruct (i <? length l)%nat eqn:Hi; [|done].
  apply Nat.ltb_lt in Hi. by intros [= <-].
Qed.

Lemma enumerate_lines_spec turn g :
  turn_spec turn g ->
  forall lines i (content out : list string),
    i + length lines <= length content ->
    enumerate_lines turn i lines content = Ok out ->
    length out = length content /\
    (forall j, j < i \/ i + length lines <= j -> out !! j = content !! j) /\
    (forall k line, lines !! k = Some line ->
       exists o, g (i + k) line = Ok o /\
                 out !! (i + k) = match o with
                                  | Some v => Some v
                                  | None => content !! (i + k)
                                  end).
Proof.
  intros Hturn lines. induction lines as [|line0 lines IH];
    intros i content out Hlen Hrun; simpl in *.
  - injection Hrun as <-. split_and!; [done..|]. by intros k line.
  - rewrite (Hturn i line0 content) in Hrun by lia.
    destruct (g i line0) as [o|e] eqn:Hg; [|done]. simpl in Hrun.
    set (content' := match o with Some v => <[i:=v]> content | None => content end) in *.
    assert (Hlen' : length content' = length content).
    { unfold content'. destruct o; [apply length_insert|done]. }
    destruct (IH (S i) content' out) as (Hl & Hout & Hin); [lia|done|].
    split_and!.
    + lia.
    + intros j Hj. rewrite Hout by lia. unfold content'.
      destruct o; [|done]. apply list_lookup_insert_ne. lia.
    + intros [|k] line Hk; simpl in Hk.
      * injection Hk as ->. rewrite Nat.add_0_r. exists o. split; [done|].
        rewrite Hout by lia. unfold content'. destruct o; [|done].
        apply list_lookup_insert_eq. lia.
      * destruct (Hin k line Hk) as (o' & Hg' & Ho').
        replace (i + S k) with (S i + k) by lia.
        exists o'. split; [done|]. rewrite Ho'. destruct o'; [done|].
        unfold content'. destruct o; [|done]. apply list_lookup_insert_ne. lia.
Qed.

Section Turns.

Variable st : settings.

(** The line the script writes in place of one that names the [ae.dat]
    file. *)
Definition reference_line : string :=
  tab ++ "ae_filename ./data/" ++ design_name st ++ "_ae.dat;" ++ nl.

(** The fields of a line of the twist sub-table, as the script splits
    it. *)
Definition htc_fields (line : string) : list string :=
  let fields := PyStr.split " " (PyStr.strip line) in
  if PyStr.mem "" fields then PyStr.remove "" fields else fields.

Definition in_twist_range (i : nat) : bool :=
  ((htc_start_line st <=? i) && (i <? htc_end_line st))%nat.

(** What [htc_turn] puts in place of line [i], if anything. *)
Definition htc_line (htc_twist : list float) (i : nat) (line : string) :
    result (option string) :=
  if in_twist_range i then
    match htc_twist !! (i - htc_start_line st) with
    | None => Raise "IndexError"
    | Some tw =>
        rbind (PyStr.setitem (htc_fields line) 4 (FloatText.str tw ++ ";" ++ nl))
          (fun fields => Ok (Some (tab ++ tab ++ PyStr.join " " fields)%string))
    end
  else Ok (if PyStr.contains "ae_filename" line then Some reference_line else None).

Lemma htc_turn_spec htc_twist : turn_spec (htc_turn st htc_twist) (htc_line htc_twist).
Proof.
  intros i line content Hi. unfold htc_turn, htc_line, in_twist_range, htc_fields.
  fold reference_line.
  destruct (PyStr.contains "ae_filename" line).
  - rewrite setitem_ok by done. simpl.
    destruct (_ && _)%bool; [|done].
    destruct (htc_twist !! _) as [tw|]; [|done].
    destruct (PyStr.setitem _ 4 _) as [fields|e]; [|done]. simpl.
    rewrite setitem_ok by (by rewrite length_insert).
    by rewrite list_insert_insert_eq.
  - simpl. destruct (_ && _)%bool; [|done].
    destruct (htc_twist !! _) as [tw|]; [|done].
    destruct (PyStr.setitem _ 4 _) as [fields|e]; [|done]. simpl.
    by rewrite setitem_ok.
Qed.

(** What [ae_turn] puts in place of line [i], if anything. *)
Definition ae_line (working_mat : list row) (i : nat) (line : string) :
    result (option string) :=
  if (ae_start_line st <=? i)%nat then
    match working_mat !! (i - ae_start_line st) with
    | None => Raise "IndexError"
    | Some x =>
        rbind (PyStr.setitem (PyStr.split "009" (PyStr.strip line)) 0
                 (FloatText.str (radius x))) (fun fields =>
        rbind (PyStr.setitem fields 1 (FloatText.str (chord x))) (fun fields =>
        rbind (PyStr.setitem fields 2 (FloatText.str (rel_thickness x))) (fun fields =>
        Ok (Some (PyStr.join tab fields ++ nl)%string))))
    end
  else Ok None.

Lemma ae_turn_spec working_mat : turn_spec (ae_turn st working_mat) (ae_line working_mat).
Proof.
  intros i line content Hi. unfold ae_turn, ae_line.
  destruct (_ <=? _)%nat; [|done].
  destruct (working_mat !! _) as [x|]; [|done].
  destruct (PyStr.setitem _ 0 _) as [f0|e]; [|done]. simpl.
  destruct (PyStr.setitem _ 1 _) as [f1|e]; [|done]. simpl.
  destruct (PyStr.setitem _ 2 _) as [f2|e]; [|done]. simpl.
  by rewrite setitem_ok.
Qed.

(** A line of the [ae.dat] file that was rewritten had at least three
    fields between tabs; the first three are replaced, the others kept. *)
Lemma ae_line_ok working_mat i line o :
  ae_line working_mat i line = Ok o ->
  (i < ae_start_line st /\ o = None) \/
  (ae_start_line st <= i /\
   exists x f0 f1 f2 rest,
     working_mat !! (i - ae_start_line st) = Some x /\
     PyStr.split "009" (PyStr.strip line) = f0 :: f1 :: f2 :: rest /\
     o = Some (PyStr.join tab (FloatText.str (radius x) :: FloatText.str (chord x) ::
                               FloatText.str (rel_thickness x) :: rest) ++ nl)%string).
Proof.
  unfold ae_line. destruct (_ <=? _)%nat eqn:Hi.
  - apply Nat.leb_le in Hi. intros H. right. split; [done|].
    destruct (working_mat !! _) as [x|]; [|done].
    destruct (PyStr.setitem _ 0 _) as [l0|e] eqn:H0; [|done]. simpl in H.
    destruct (PyStr.setitem _ 1 _) as [l1|e] eqn:H1; [|done]. simpl in H.
    destruct (PyStr.setitem _ 2 _) as [l2|e] eqn:H2; [|done]. simpl in H.
    injection H as <-.
    apply setitem_inv in H0 as [_ ->]. apply setitem_inv in H1 as [_ ->].
    apply setitem_inv in H2 as [Hlen ->]. rewrite !length_insert in Hlen.
    destruct (PyStr.split "009" (PyStr.strip line)) as [|f0 [|f1 [|f2 rest]]];
      simpl in Hlen; try lia.
    by exists x, f0, f1, f2, rest.
  - apply Nat.leb_gt in Hi. intros [= <-]. by left.
Qed.

End Turns.

(** A file that was rewritten held a text from whose lines the turns made
    the new content. *)
Lemma rewrite_file_inv path turn d d' :
  rewrite_file path turn d = (d', Ok tt) ->
  exists text out,
    files d !! path = Some text /\
    enumerate_lines turn 0 (PyStr.readlines text) (PyStr.readlines text) = Ok out /\
    d' = FS (<[path := PyStr.writelines out]> (files d)) (locked d).
Proof.
  unfold rewrite_file. intros H.
  apply bind_ok_inv in H as (d1 & text & H1 & H).
  apply read_text_inv in H1 as [-> Htext]. specialize (Htext text eq_refl).
  apply bind_ok_inv in H as (d2 & text' & H2 & H).
  unfold read_text_rw in H2. case_decide; [done|].
  apply read_text_inv in H2 as [-> Htext']. specialize (Htext' text' eq_refl).
  assert (text' = text) as -> by congruence.
  apply bind_ok_inv in H as (d3 & out & H3 & H).
  apply lift_inv in H3 as [-> H3].
  apply write_text_inv in H as [[_ ->]|[? _]]; [|done].
  by exists text, out.
Qed.

(** [np.loadtxt] returns at most one row for each line. *)
Lemma loadtxt_rows_length lines :
  forall rows, NumPyIO.loadtxt_rows lines = Ok rows -> length rows <= length lines.
Proof.
  induction lines as [|line lines IH]; intros rows H; simpl in *.
  - injection H as <-. done.
  - destruct (NumPyIO.columns "#" line) as [|c0 [|c1 [|c2 cs]]]; try done.
    + specialize (IH rows H). lia.
    + destruct (FloatText.float_of_str c0), (FloatText.float_of_str c1),
        (FloatText.float_of_str c2); try done.
      destruct (NumPyIO.loadtxt_rows lines) as [rows'|]; [|done].
      injection H as <-. specialize (IH rows' eq_refl). simpl. lia.
Qed.

(** When it returns as many rows as there are lines, each row holds the
    first three columns of its line. *)
Lemma loadtxt_rows_aligned lines :
  forall rows, NumPyIO.loadtxt_rows lines = Ok rows ->
    length lines <= length rows ->
    forall k line, lines !! k = Some line ->
      exists c0 c1 c2 cs a b c,
        NumPyIO.columns "#" line = c0 :: c1 :: c2 :: cs /\
        FloatText.float_of_str c0 = Some a /\
        FloatText.float_of_str c1 = Some b /\
        FloatText.float_of_str c2 = Some c /\
        rows !! k = Some (a, b, c).
Proof.
  induction lines as [|line0 lines IH]; intros rows H Hlen k line Hk; [done|].
  simpl in H.
  destruct (NumPyIO.columns "#" line0) as [|c0 [|c1 [|c2 cs]]] eqn:Hcols; try done.
  { apply loadtxt_rows_length in H. simpl in Hlen. lia. }
  destruct (FloatText.float_of_str c0) as [a|] eqn:Ha; [|done].
  destruct (FloatText.float_of_str c1) as [b|] eqn:Hb; [|done].
  destruct (FloatText.float_of_str c2) as [c|] eqn:Hc; [|done].
  destruct (NumPyIO.loadtxt_rows lines) as [rows'|] eqn:Hrows; [|done].
  injection H as <-. destruct k as [|k]; simpl in Hk.
  - injection Hk as <-. by exists c0, c1, c2, cs, a, b, c.
  - simpl in Hlen. apply (IH rows' eq_refl); [lia|done].
Qed.

(** No modifier is enabled. *)
Definition no_modifier (p : params) : Prop :=
  root_linear_on p = false /\ tip_cos_on p = false /\ cos_on p = false /\
  twist_on p = false /\ supertwist_on p = false /\ cylindrical_on p = false.

(** [out] is the content the script makes from the lines of the original
    [ae.dat] file: the lines before [ae_start_line] are kept; every later
    line is stripped and split at tabs, its first three fields are replaced
    by [str] of the three numbers [np.loadtxt] read from that line, and the
    fields are joined by tabs and ended by a newline. *)
Definition ae_rewritten (st : settings) (lines out : list string) : Prop :=
  length out = length lines /\
  forall i line, lines !! i = Some line ->
    (i < ae_start_line st -> out !! i = Some line) /\
    (ae_start_line st <= i ->
     exists c0 c1 c2 cs a b c f0 f1 f2 rest,
       NumPyIO.columns "#" line = c0 :: c1 :: c2 :: cs /\
       FloatText.float_of_str c0 = Some a /\
       FloatText.float_of_str c1 = Some b /\
       FloatText.float_of_str c2 = Some c /\
       PyStr.split "009" (PyStr.strip line) = f0 :: f1 :: f2 :: rest /\
       out !! i = Some (PyStr.join tab (FloatText.str a :: FloatText.str b ::
                                         FloatText.str c :: rest) ++ nl)%string).

(** [out] is the content the script makes from the lines of the original
    [.htc] file: outside the twist sub-table a line is kept, unless it
    contains [ae_filename], and then it is replaced by the reference to the
    new [ae.dat] file; a line of the sub-table is replaced by two tabs and
    its fields, the fifth of them a twist followed by [;] and a newline,
    joined by single spaces. *)
Definition htc_rewritten (st : settings) (lines out : list string) : Prop :=
  length out = length lines /\
  forall i line, lines !! i = Some line ->
    (in_twist_range st i = false -> PyStr.contains "ae_filename" line = false ->
     out !! i = Some line) /\
    (in_twist_range st i = false -> PyStr.contains "ae_filename" line = true ->
     out !! i = Some (reference_line st)) /\
    (in_twist_range st i = true ->
     exists tw, 4 < length (htc_fields line) /\
       out !! i = Some (tab ++ tab ++ PyStr.join " "
                          (<[4 := (FloatText.str tw ++ ";" ++ nl)%string]>
                             (htc_fields line)))%string).

Lemma htc_rewritten_intro st htc_twist lines out :
  enumerate_lines (htc_turn st htc_twist) 0 lines lines = Ok out ->
  htc_rewritten st lines out.
Proof.
  intros Hrun.
  destruct (enumerate_lines_spec _ _ (htc_turn_spec st htc_twist) lines 0 lines out)
    as (Hlen & _ & Hin); [simpl; lia|done|].
  split; [done|]. intros i line Hi.
  destruct (Hin i line Hi) as (o & Hg & Ho).
  change (0 + i) with i in Hg, Ho. rewrite Hi in Ho.
  unfold htc_line in Hg. split_and!.
  - intros Hr Hc. rewrite Hr, Hc in Hg. injection Hg as <-. done.
  - intros Hr Hc. rewrite Hr, Hc in Hg. injection Hg as <-. done.
  - intros Hr. rewrite Hr in Hg.
    destruct (htc_twist !! _) as [tw|]; [|done].
    destruct (PyStr.setitem _ 4 _) as [fields|e] eqn:Hset; [|done].
    injection Hg as <-. apply setitem_inv in Hset as [Hlen4 ->].
    by exists tw.
Qed.

(** With no modifier enabled the design change is the copy. *)
Lemma change_design_no_modifier cos p geo_mat (h : heap) m :
  no_modifier p -> h !! geo_mat = Some m ->
  change_design cos p geo_mat h =
    match normalise m with
    | Ok _ => (<[fresh (dom h) := m]> h, Ok (fresh (dom h)))
    | Raise e => (h, Raise e)
    end.
Proof.
  intros (H1 & H2 & H3 & H4 & H5 & H6) Hg. rewrite change_design_unfold, Hg.
  destruct (normalise m) as [radius_nd|e]; [|done].
  unfold modifiers. rewrite H1, H2, H3, H4, H5, H6. done.
Qed.

Lemma get_htc_twist_heap twist_radii working_mat (h h' : heap) r :
  get_htc_twist twist_radii working_mat h = (h', r) -> h' = h.
Proof.
  unfold get_htc_twist, bind, col_get.
  destruct (h !! working_mat) as [m|] eqn:Hw; [|by intros [= <- _]].
  rewrite Hw. destruct (NumPy.interp _ _ _); by intros [= <- _].
Qed.

Lemma two_dimensional_inv {A} (rows : list A) :
  NumPyIO.two_dimensional rows = Ok tt -> rows <> [].
Proof. by destruct rows. Qed.

Section RoundTrip.

Variable cos : float -> float.
Variable p : params.
Variable st : settings.
Hypothesis Hoff : no_modifier p.

(** With no modifier enabled, what [prepare] hands to the writer are the
    rows of [np.loadtxt] with resampled twists. *)
Lemma prepare_inv w w1 rows htc_twist :
  prepare cos p st w = (w1, Ok (rows, htc_twist)) ->
  exists ae_text htc_text ae_data tw,
    files (disk w) !! ae_file_pathname st = Some ae_text /\
    files (disk w) !! htc_file_pathname st = Some htc_text /\
    NumPyIO.loadtxt 2 ae_text = Ok ae_data /\
    length tw = length ae_data /\
    rows = geo_rows ae_data tw.
Proof.
  unfold prepare. intros H.
  apply bind_ok_inv in H as (wa & ae_text & Ha & H).
  apply on_disk_read_inv in Ha as [-> Hae].
  apply bind_ok_inv in H as (wb & ae_data & Hb & H). apply lift_inv in Hb as [-> Hload].
  apply bind_ok_inv in H as (wc & [] & Hc & H). apply lift_inv in Hc as [-> _].
  apply bind_ok_inv in H as (wd & htc_text & Hd & H).
  apply on_disk_read_inv in Hd as [-> Hhtc].
  apply bind_ok_inv in H as (we & twist & He & H). apply lift_inv in He as [-> _].
  apply bind_ok_inv in H as (wf & [] & Hf & H). apply lift_inv in Hf as [-> Htwo].
  symmetry in Htwo. apply two_dimensional_inv in Htwo.
  apply bind_ok_inv in H as (wg & geo & Hg & H). apply on_arrays_inv in Hg as [_ Hg].
  destruct (build_geo_mat_returns ae_data twist (arrays w) Htwo) as (tw & _ & Hlen & Hgeo).
  rewrite Hgeo in Hg. injection Hg as Hg <-.
  apply bind_ok_inv in H as (wh & wm & Hh & H). apply on_arrays_inv in Hh as [_ Hh].
  rewrite (change_design_no_modifier cos p _ _ (geo_rows ae_data tw) Hoff) in Hh
    by (rewrite <- Hg; apply lookup_insert_eq).
  destruct (normalise _); [|done]. injection Hh as Hh <-.
  apply bind_ok_inv in H as (wi & [] & Hi & H). apply on_disk_inv in Hi as [Hi _].
  apply bind_ok_inv in H as (wj & htw & Hj & H). apply on_arrays_inv in Hj as [_ Hj].
  apply get_htc_twist_heap in Hj.
  apply bind_ok_inv in H as (wk & rows' & Hk & H). apply on_arrays_inv in Hk as [_ Hk].
  injection H as _ <- _. injection Hk as _ Hk.
  rewrite Hj, Hi, <- Hh, lookup_insert_eq in Hk. injection Hk as <-.
  by exists ae_text, htc_text, ae_data, tw.
Qed.

End RoundTrip.

Lemma geo_rows_lookup_row ae_data tw k x :
  geo_rows ae_data tw !! k = Some x ->
  exists a b c v, ae_data !! k = Some (a, b, c) /\ x = Row a v b c.
Proof.
  unfold geo_rows. intros ([[a b] c] & v & -> & Ha & Hv)%lookup_zip_with_Some.
  by exists a, b, c, v.
Qed.

Lemma ae_rewritten_intro st ae_data tw lines out :
  ae_start_line st = 2 ->
  NumPyIO.loadtxt_rows (drop 2 lines) = Ok ae_data ->
  length tw = length ae_data ->
  enumerate_lines (ae_turn st (geo_rows ae_data tw)) 0 lines lines = Ok out ->
  ae_rewritten st lines out.
Proof.
  intros Hstart Hload Htw Hrun.
  destruct (enumerate_lines_spec _ _ (ae_turn_spec st (geo_rows ae_data tw)) lines 0 lines out)
    as (Hlen & _ & Hin); [simpl; lia|done|].
  assert (Hrows : forall i line, lines !! i = Some line -> 2 <= i ->
            is_Some (geo_rows ae_data tw !! (i - 2))).
  { intros i line Hi H2. destruct (Hin i line Hi) as (o & Hg & _).
    change (0 + i) with i in Hg.
    apply ae_line_ok in Hg as [[? _]|(_ & x & ? & ? & ? & ? & Hx & _)]; [lia|].
    rewrite Hstart in Hx. eauto. }
  assert (Hall : length (drop 2 lines) <= length ae_data).
  { rewrite length_drop. destruct (decide (length lines <= 2)) as [|Hgt]; [lia|].
    destruct (lookup_lt_is_Some_2 lines (length lines - 1)) as [line Hline]; [lia|].
    destruct (Hrows _ line Hline) as [x Hx]; [lia|].
    apply lookup_lt_Some in Hx. unfold geo_rows in Hx.
    rewrite length_zip_with in Hx. lia. }
  split; [done|]. intros i line Hi.
  destruct (Hin i line Hi) as (o & Hg & Ho).
  change (0 + i) with i in Hg, Ho. rewrite Hi in Ho.
  apply ae_line_ok in Hg
    as [[Hlt ->]|(Hge & x & f0 & f1 & f2 & rest & Hx & Hsplit & ->)].
  - split; [done|]. lia.
  - split; [lia|]. intros _. rewrite Hstart in Hx, Hge.
    apply geo_rows_lookup_row in Hx as (a & b & c & v & Hk & ->).
    destruct (loadtxt_rows_aligned (drop 2 lines) ae_data Hload Hall (i - 2) line)
      as (c0 & c1 & c2 & cs & a' & b' & c' & Hcols & Ha & Hb & Hc & Hk').
    { rewrite lookup_drop. by replace (2 + (i - 2)) with i by lia. }
    rewrite Hk in Hk'. injection Hk' as <- <- <-.
    by exists c0, c1, c2, cs, a, b, c, f0, f1, f2, rest.
Qed.




(** * Further properties of the script

    The modifier stack as a whole, the section at the tip, resampling on a
    shared grid, what a run writes and what it never touches, when the
    rewriting of the two files returns, what a returning run leaves on disk,
    and how the script's own readers see what it wrote. *)

(** * The modifier stack, row by row *)

(** A computation that, on an array with one row for each normalised radius,
    returns, and replaces the row [x] of section [i], whose normalised radius
    is [r], by [eff i r x]. *)
Definition rowwise (radius_nd : list float) (w : loc)
    (eff : nat -> float -> row -> row) (c : M unit) : Prop :=
  forall (h : heap) m, h !! w = Some m -> length m = length radius_nd ->
    exists m', c h = (<[w := m']> h, Ok tt) /\ length m' = length m /\
      forall i r x, radius_nd !! i = Some r -> m !! i = Some x ->
        m' !! i = Some (eff i r x).

Section Rowwise.

Variable radius_nd : list float.
Variable w : loc.

Lemma rowwise_ret : rowwise radius_nd w (fun _ _ x => x) (ret tt).
Proof.
  intros h m Hw Hlen. exists m. unfold ret. rewrite (insert_id h w m Hw). done.
Qed.

Lemma rowwise_ext eff eff' c :
  (forall i r x, radius_nd !! i = Some r -> eff i r x = eff' i r x) ->
  rowwise radius_nd w eff c -> rowwise radius_nd w eff' c.
Proof.
  intros Hext H h m Hw Hlen. destruct (H h m Hw Hlen) as (m' & Hrun & Hl & Hrows).
  exists m'. split_and!; [done..|]. intros i r x Hi Hx.
  rewrite (Hrows i r x Hi Hx). f_equal. by apply Hext.
Qed.

Lemma rowwise_seq eff1 eff2 c1 c2 :
  rowwise radius_nd w eff1 c1 -> rowwise radius_nd w eff2 c2 ->
  rowwise radius_nd w (fun i r x => eff2 i r (eff1 i r x)) (c1 ;;; c2).
Proof.
  intros H1 H2 h m Hw Hlen.
  destruct (H1 h m Hw Hlen) as (m1 & Hrun1 & Hl1 & Hrows1).
  destruct (H2 (<[w:=m1]> h) m1) as (m2 & Hrun2 & Hl2 & Hrows2);
    [apply lookup_insert_eq|lia|].
  exists m2. unfold bind. rewrite Hrun1, Hrun2, insert_insert_eq.
  split_and!; [done|lia|]. intros i r x Hi Hx.
  apply (Hrows2 i r _ Hi). by apply Hrows1.
Qed.

Lemma rowwise_when flag eff c :
  (flag = true -> rowwise radius_nd w eff c) ->
  rowwise radius_nd w (fun i r x => if flag then eff i r x else x) (when flag c).
Proof. destruct flag; [auto|]. intros _. apply rowwise_ret. Qed.

(** A read-modify-write loop whose multipliers are computed from the
    normalised radii. *)
Lemma rowwise_rmw (sel : float -> bool) c (g : float -> float) f :
  rowwise radius_nd w
    (fun _ r x => if sel r then set_col c (f (get_col c x) (g r)) x else x)
    (for_in (fun i r => if sel r then rmw_step w c (g <$> radius_nd) f i else ret tt)
       0 radius_nd).
Proof.
  intros h m Hw Hlen.
  destruct (rmw_loop_ok radius_nd w sel c (g <$> radius_nd) f h m Hw Hlen)
    as (m' & Hrun & Hl & Hrows).
  { intros i r Hi _. rewrite list_lookup_fmap, Hi. eauto. }
  exists m'. split_and!; [done..|]. intros i r x Hi Hx.
  rewrite (Hrows i r x Hi Hx), list_lookup_fmap, Hi. simpl. by destruct (sel r).
Qed.

(** The same with multipliers from a list: every selected section needs
    one. *)
Lemma rowwise_rmw_list (sel : float -> bool) c mult f :
  (forall i r, radius_nd !! i = Some r -> sel r = true -> i < length mult) ->
  rowwise radius_nd w
    (fun i r x => if sel r then set_col c (f (get_col c x) (nth i mult nan)) x else x)
    (for_in (fun i r => if sel r then rmw_step w c mult f i else ret tt) 0 radius_nd).
Proof.
  intros Hmult h m Hw Hlen.
  destruct (rmw_loop_ok radius_nd w sel c mult f h m Hw Hlen)
    as (m' & Hrun & Hl & Hrows).
  { intros i r Hi Hr. apply lookup_lt_is_Some_2. by eapply Hmult. }
  exists m'. split_and!; [done..|]. intros i r x Hi Hx.
  rewrite (Hrows i r x Hi Hx). destruct (sel r) eqn:Hr; [|done].
  destruct (lookup_lt_is_Some_2 mult i (Hmult i r Hi Hr)) as [k Hk].
  by rewrite Hk, (nth_lookup_Some _ _ _ _ Hk).
Qed.

Lemma rowwise_cyl (sel : float -> bool) :
  rowwise radius_nd w (fun _ r x => if sel r then set_col C3 100%float x else x)
    (for_in (fun i r => if sel r then mat_set w i C3 100%float else ret tt) 0 radius_nd).
Proof.
  intros h m Hw Hlen.
  destruct (cyl_loop_ok radius_nd w sel h m Hw Hlen) as (m' & Hrun & Hl & Hrows).
  exists m'. split_and!; [done..|]. intros i r x Hi Hx.
  by rewrite (Hrows i r x Hi Hx).
Qed.

Lemma rowwise_cos_chord cos a :
  rowwise radius_nd w
    (fun _ r x => set_col C2 (chord x + a * - cos (r * F64.pi))%float x)
    (cos_chord_addition cos radius_nd w a).
Proof.
  intros h m Hw Hlen. unfold cos_chord_addition, bind, col_get. rewrite Hw.
  unfold broadcast2. rewrite decide_True by (by rewrite !length_fmap).
  unfold ret, col_set. rewrite Hw.
  rewrite decide_True by (rewrite length_zip_with, !length_fmap; lia).
  eexists. split; [done|]. split.
  { rewrite !length_zip_with, !length_fmap. lia. }
  intros i r x Hi Hx.
  rewrite lookup_zip_with, lookup_zip_with, !list_lookup_fmap, Hx, Hi. done.
Qed.

End Rowwise.

(** What the modifier stack makes of the row [x] of section [i], whose
    normalised radius is [r]: the chord goes through the three chord blocks,
    the twist through the two twist blocks, the relative thickness through
    the cylindrical override, each in the order of the script; the radius is
    kept. *)
Definition design_row (cos : float -> float) (p : params) (i : nat) (r : float)
    (x : row) : row :=
  let c1 := if root_linear_on p && (r <=? root_linear_changes_until p)%float
            then (chord x - root_linear_chord_addition_ p * (r - 1.0))%float
            else chord x in
  let c2 := if tip_cos_on p && (tip_cos_changes_from p <=? r)%float
            then (c1 + tip_cos_chord_addition_ p * - cos (r * F64.pi))%float
            else c1 in
  let c3 := if cos_on p
            then (c2 + cos_chord_addition_ p * - cos (r * F64.pi))%float
            else c2 in
  let t1 := if twist_on p && (r <=? twist_changes_until p)%float
            then (twist x + twist_twist_addition p * - (r - 1.0))%float
            else twist x in
  let t2 := if supertwist_on p && (r <=? supertwist_changes_until p)%float
            then (t1 + supertwist_twist_addition p * nth i (manual_multiplier p) nan)%float
            else t1 in
  let th := if cylindrical_on p && (r <=? cylindrical_changes_until p)%float
            then 100%float
            else rel_thickness x in
  Row (radius x) t2 c3 th.

(** Every section that the manual-profile twist selects has a weight. *)
Definition weights_cover (p : params) (radius_nd : list float) : Prop :=
  supertwist_on p = true ->
  forall i r, radius_nd !! i = Some r ->
    (r <=? supertwist_changes_until p)%float = true ->
    i < length (manual_multiplier p).

Lemma modifiers_rowwise cos p radius_nd w :
  weights_cover p radius_nd ->
  rowwise radius_nd w (design_row cos p) (modifiers cos p radius_nd w).
Proof.
  intros Hcover. unfold modifiers.
  eapply rowwise_ext; cycle 1.
  { repeat apply rowwise_seq.
    - apply rowwise_when. intros _.
      apply (rowwise_rmw radius_nd w
               (fun r => (r <=? root_linear_changes_until p)%float) C2
               (fun r => (r - 1.0)%float)
               (fun v k => (v - root_linear_chord_addition_ p * k)%float)).
    - apply rowwise_when. intros _.
      apply (rowwise_rmw radius_nd w
               (fun r => (tip_cos_changes_from p <=? r)%float) C2
               (fun r => (- cos (r * F64.pi))%float)
               (fun v k => (v + tip_cos_chord_addition_ p * k)%float)).
    - apply rowwise_when. intros _. apply rowwise_cos_chord.
    - apply rowwise_when. intros _.
      apply (rowwise_rmw radius_nd w
               (fun r => (r <=? twist_changes_until p)%float) C1
               (fun r => (- (r - 1.0))%float)
               (fun v k => (v + twist_twist_addition p * k)%float)).
    - apply rowwise_when. intros Hon.
      apply (rowwise_rmw_list radius_nd w
               (fun r => (r <=? supertwist_changes_until p)%float) C1
               (manual_multiplier p)
               (fun v k => (v + supertwist_twist_addition p * k)%float)).
      by apply Hcover.
    - apply rowwise_when. intros _.
      apply (rowwise_cyl radius_nd w
               (fun r => (r <=? cylindrical_changes_until p)%float)). }
  intros i r x _. unfold design_row. cbv beta.
  destruct x as [xr xt xc xh].
  destruct (root_linear_on p), (r <=? root_linear_changes_until p)%float,
    (tip_cos_on p), (tip_cos_changes_from p <=? r)%float, (cos_on p),
    (twist_on p), (r <=? twist_changes_until p)%float,
    (supertwist_on p), (r <=? supertwist_changes_until p)%float,
    (cylindrical_on p), (r <=? cylindrical_changes_until p)%float;
    reflexivity.
Qed.

Lemma normalise_last m xn :
  last m = Some xn ->
  normalise m = Ok ((fun x => radius x / radius xn)%float <$> m).
Proof.
  intros Hl. unfold normalise. rewrite fmap_last, Hl. simpl.
  by rewrite <- list_fmap_compose.
Qed.

Lemma normalise_nil_inv m e : normalise m = Raise e -> m = [] /\ e = "IndexError".
Proof.
  unfold normalise. rewrite fmap_last.
  destruct (last m) as [xn|] eqn:Hl; [done|]. intros [= <-].
  by apply last_None in Hl.
Qed.

(** A row-wise result is the matrix of the new rows. *)
Lemma rowwise_imap (f : nat -> row -> row) (g : row -> float) (m m' : list row) :
  length m' = length m ->
  (forall i r x, (g <$> m) !! i = Some r -> m !! i = Some x -> m' !! i = Some (f i x)) ->
  m' = imap f m.
Proof.
  intros Hlen Hrows. apply list_eq. intros i. rewrite list_lookup_imap.
  destruct (m !! i) as [x|] eqn:Hx; simpl.
  - apply (Hrows i (g x) x); [|done]. by rewrite list_lookup_fmap, Hx.
  - apply lookup_ge_None. apply lookup_ge_None in Hx. lia.
Qed.

(** With a weight for every section that the manual-profile twist selects,
    the design change returns the matrix of the new rows. *)
Lemma change_design_rows (cos : float -> float) p geo_mat (h : heap) m0 xn :
  h !! geo_mat = Some m0 ->
  last m0 = Some xn ->
  weights_cover p ((fun x => radius x / radius xn)%float <$> m0) ->
  change_design cos p geo_mat h
  = (<[fresh (dom h) :=
         imap (fun i x => design_row cos p i (radius x / radius xn)%float x) m0]> h,
     Ok (fresh (dom h))).
Proof.
  intros Hg Hlast Hcover. rewrite change_design_unfold, Hg, (normalise_last m0 xn Hlast).
  cbv zeta. set (b := fresh (dom h)).
  set (rnd := (fun x => radius x / radius xn)%float <$> m0) in *.
  destruct (modifiers_rowwise cos p rnd b Hcover (<[b:=m0]> h) m0)
    as (m' & Hrun & Hlen & Hrows).
  { apply lookup_insert_eq. }
  { unfold rnd. by rewrite length_fmap. }
  rewrite Hrun, insert_insert_eq. do 2 f_equal.
  apply (rowwise_imap (fun i x => design_row cos p i (radius x / radius xn)%float x)
           (fun x => (radius x / radius xn)%float) m0 m' Hlen).
  intros i r x Hr Hx. rewrite (Hrows i r x Hr Hx). do 2 f_equal.
  unfold rnd in Hr. rewrite list_lookup_fmap, Hx in Hr. by injection Hr as <-.
Qed.

(** The linear root chord shift and the manual-profile twist, both up to
    half the radius, with two weights. *)
Definition root_shift_and_manual_twist : params := {|
  root_linear_on := true;
  root_linear_chord_addition_ := (-1.0)%float;
  root_linear_changes_until := 0.5%float;
  tip_cos_on := false;
  tip_cos_chord_addition_ := tip_cos_chord_addition_ script_params;
  tip_cos_changes_from := tip_cos_changes_from script_params;
  cos_on := false;
  cos_chord_addition_ := cos_chord_addition_ script_params;
  twist_on := false;
  twist_twist_addition := twist_twist_addition script_params;
  twist_changes_until := twist_changes_until script_params;
  supertwist_on := true;
  manual_multiplier := [1; 0.5]%float;
  supertwist_twist_addition := (-64.0)%float;
  supertwist_changes_until := 0.5%float;
  cylindrical_on := false;
  cylindrical_changes_until := cylindrical_changes_until script_params
|}.

(** A read-modify-write loop with its multipliers in a list, whatever the
    length of the list: the selected sections that have a multiplier are
    updated, every other row is kept, and the loop returns when every selected
    section has a multiplier and raises [IndexError] when one has none. *)
Lemma sweep_rmw_prefix (sel : float -> bool) c mult f rs :
  forall i m, i + length rs <= length m ->
    let s := sweep sel (rmw_upd c mult f) i rs m in
    length s.1 = length m /\
    (forall k r x, rs !! k = Some r -> m !! (i + k) = Some x ->
       s.1 !! (i + k)
       = Some (if sel r && (i + k <? length mult)
               then set_col c (f (get_col c x) (nth (i + k) mult nan)) x
               else x)) /\
    ((forall k r, rs !! k = Some r -> sel r = true -> i + k < length mult) ->
     s.2 = Ok tt) /\
    ((exists k r, rs !! k = Some r /\ sel r = true /\ length mult <= i + k) ->
     s.2 = Raise "IndexError") /\
    (forall e, s.2 = Raise e ->
       e = "IndexError" /\
       exists k r, rs !! k = Some r /\ sel r = true /\ length mult <= i + k).
Proof.
  induction rs as [|r0 rs IH]; intros i m Hlen; cbv zeta.
  { simpl. split_and!; [done|by intros k r x|done| |done]. by intros (k & r & ? & _). }
  simpl in Hlen. simpl sweep.
  destruct (sel r0) eqn:Hr0.
  - destruct (lookup_lt_is_Some_2 m i) as [x0 Hx0]; [lia|]. rewrite Hx0.
    destruct (mult !! i) as [k0|] eqn:Hk0.
    + assert (Hu : rmw_upd c mult f i x0 = Ok (set_col c (f (get_col c x0) k0) x0))
        by (unfold rmw_upd; by rewrite Hk0).
      rewrite Hu.
      destruct (IH (S i) (<[i := set_col c (f (get_col c x0) k0) x0]> m))
        as (Hl & Hrows & Hok & Hraise & Hinv).
      { rewrite length_insert. lia. }
      cbv zeta in *. split_and!.
      * by rewrite Hl, length_insert.
      * intros [|k] r x Hk Hx; simpl in Hk.
        -- injection Hk as <-. rewrite Nat.add_0_r in *.
           rewrite sweep_lookup_below by lia.
           rewrite list_lookup_insert_eq by (by eapply lookup_lt_Some).
           rewrite Hr0. apply lookup_lt_Some in Hk0 as Hlt.
           apply Nat.ltb_lt in Hlt as ->. simpl.
           rewrite Hx0 in Hx. injection Hx as <-.
           by rewrite (nth_lookup_Some _ _ _ _ Hk0).
        -- replace (i + S k) with (S i + k) in * by lia.
           apply (Hrows k r x Hk). rewrite list_lookup_insert_ne by lia. done.
      * intros Hall. apply Hok. intros k r Hk Hr.
        replace (S i + k) with (i + S k) by lia. by apply (Hall (S k) r).
      * intros (k & r & Hk & Hr & Hge). apply Hraise.
        destruct k as [|k]; simpl in Hk.
        -- apply lookup_lt_Some in Hk0. lia.
        -- exists k, r. split_and!; [done..|]. lia.
      * intros e He. destruct (Hinv e He) as (-> & k & r & Hk & Hr & Hge).
        split; [done|]. exists (S k), r. split_and!; [done..|]. lia.
    + assert (Hu : rmw_upd c mult f i x0 = Raise "IndexError")
        by (unfold rmw_upd; by rewrite Hk0).
      rewrite Hu. apply lookup_ge_None in Hk0. simpl. split_and!.
      * done.
      * intros k r x Hk Hx. rewrite Hx.
        assert ((i + k <? length mult) = false) as -> by (apply Nat.ltb_ge; lia).
        by rewrite andb_false_r.
      * intros Hall. specialize (Hall 0 r0 eq_refl Hr0). lia.
      * done.
      * intros e [= <-]. split; [done|]. exists 0, r0. split_and!; [done..|]. lia.
  - destruct (IH (S i) m) as (Hl & Hrows & Hok & Hraise & Hinv); [lia|].
    cbv zeta in *. split_and!.
    * done.
    * intros [|k] r x Hk Hx; simpl in Hk.
      -- injection Hk as <-. rewrite Nat.add_0_r in *.
         rewrite sweep_lookup_below by lia. by rewrite Hr0, Hx.
      -- replace (i + S k) with (S i + k) in * by lia. by apply (Hrows k r x).
    * intros Hall. apply Hok. intros k r Hk Hr.
      replace (S i + k) with (i + S k) by lia. by apply (Hall (S k) r).
    * intros (k & r & Hk & Hr & Hge). apply Hraise.
      destruct k as [|k]; simpl in Hk.
      -- congruence.
      -- exists k, r. split_and!; [done..|]. lia.
    * intros e He. destruct (Hinv e He) as (-> & k & r & Hk & Hr & Hge).
      split; [done|]. exists (S k), r. split_and!; [done..|]. lia.
Qed.

(** The manual-profile twist as a sweep. *)
Lemma supertwist_sweep radius_nd w weights a t (h : heap) m :
  h !! w = Some m ->
  supertwist_the_root radius_nd w weights a t h
  = (<[w := (sweep (fun r => (r <=? t)%float)
               (rmw_upd C1 weights (fun v k => (v + a * k)%float)) 0 radius_nd m).1]> h,
     (sweep (fun r => (r <=? t)%float)
        (rmw_upd C1 weights (fun v k => (v + a * k)%float)) 0 radius_nd m).2).
Proof.
  intros Hw.
  change (supertwist_the_root radius_nd w weights a t)
    with (for_in (fun i r => if (r <=? t)%float
                             then rmw_step w C1 weights (fun v k => (v + a * k)%float) i
                             else ret tt) 0 radius_nd).
  by rewrite (rmw_loop_sweep radius_nd w _ C1 weights _ h m Hw).
Qed.

(** X1: The manual-profile twist with any number of weights (lines 127-144): the
    loop shifts the twist of the selected sections that have a weight and
    keeps every other row; it returns when every selected section has a
    weight, and raises [IndexError] when one has none.  So when it raises,
    the selected sections before the first one without a weight have been
    shifted already. *)
Theorem manual_weights_prefix_applied radius_nd w weights a t (h : heap) m :
  h !! w = Some m ->
  length m = length radius_nd ->
  exists m',
    (supertwist_the_root radius_nd w weights a t h).1 = <[w := m']> h /\
    length m' = length m /\
    (forall i r x, radius_nd !! i = Some r -> m !! i = Some x ->
       m' !! i = Some (if (r <=? t)%float && (i <? length weights)
                       then set_col C1 (twist x + a * nth i weights nan)%float x
                       else x)) /\
    ((forall i r, radius_nd !! i = Some r -> (r <=? t)%float = true ->
        i < length weights) ->
     (supertwist_the_root radius_nd w weights a t h).2 = Ok tt) /\
    ((exists i r, radius_nd !! i = Some r /\ (r <=? t)%float = true /\
                  length weights <= i) ->
     (supertwist_the_root radius_nd w weights a t h).2 = Raise "IndexError").
Proof.
  intros Hw Hlen. rewrite (supertwist_sweep radius_nd w weights a t h m Hw).
  destruct (sweep_rmw_prefix (fun r => (r <=? t)%float) C1 weights
              (fun v k => (v + a * k)%float) radius_nd 0 m)
    as (Hl & Hrows & Hok & Hraise & _); [simpl; lia|].
  cbv zeta in *. eexists. split; [done|]. split; [done|]. split_and!.
  - intros i r x Hi Hx. apply (Hrows i r x Hi Hx).
  - intros Hall. apply Hok. intros k r Hk Hr. by apply (Hall k r).
  - intros (i & r & Hi & Hr & Hge). apply Hraise. by exists i, r.
Qed.

(** Witness: three selected sections and two weights; the twists of the
    first two sections are shifted and the loop raises. *)
Lemma manual_weights_prefix_applied_witness :
  let rnd := [0; 0.1; 0.2]%float in
  let m := [Row 0 1 5 60; Row 10 2 4 50; Row 20 3 3 40]%float in
  let h : heap := {[ 1%positive := m ]} in
  let run := supertwist_the_root rnd 1%positive [1; 0.5]%float (-64) 0.25 h in
  exists m',
    run.1 = <[1%positive := m']> h /\
    length m' = length m /\
    (forall i r x, rnd !! i = Some r -> m !! i = Some x ->
       m' !! i = Some (if (r <=? 0.25)%float && (i <? 2)
                       then set_col C1 (twist x + -64 * nth i [1; 0.5]%float nan)%float x
                       else x)) /\
    ((forall i r, rnd !! i = Some r -> (r <=? 0.25)%float = true -> i < 2) ->
     run.2 = Ok tt) /\
    ((exists i r, rnd !! i = Some r /\ (r <=? 0.25)%float = true /\ 2 <= i) ->
     run.2 = Raise "IndexError").
Proof.
  intros rnd m h run.
  exact (manual_weights_prefix_applied rnd 1%positive [1; 0.5]%float (-64)%float 0.25%float
           h m eq_refl eq_refl).
Defined.

(** What follows a block that acts row by row runs on the new rows. *)
Lemma rowwise_then radius_nd w eff c1 (c2 : M unit) (h : heap) m :
  rowwise radius_nd w eff c1 ->
  h !! w = Some m -> length m = length radius_nd ->
  exists m1,
    (c1 ;;; c2) h = c2 (<[w := m1]> h) /\ length m1 = length radius_nd /\
    forall i r x, radius_nd !! i = Some r -> m !! i = Some x ->
      m1 !! i = Some (eff i r x).
Proof.
  intros H Hw Hlen. destruct (H h m Hw Hlen) as (m1 & Hrun & Hl & Hrows).
  exists m1. unfold bind. rewrite Hrun. split_and!; [done|lia|done].
Qed.

(** The blocks before the manual-profile twist always return.  When the
    stack returns, every section that the manual-profile twist selects has a
    weight; it raises only from the manual-profile twist, and then
    [IndexError], for a selected section without a weight. *)
Lemma modifiers_outcome cos p radius_nd w (h : heap) m :
  h !! w = Some m -> length m = length radius_nd ->
  match (modifiers cos p radius_nd w h).2 with
  | Ok _ => weights_cover p radius_nd
  | Raise e =>
      e = "IndexError" /\ supertwist_on p = true /\
      exists i r, radius_nd !! i = Some r /\
        (r <=? supertwist_changes_until p)%float = true /\
        length (manual_multiplier p) <= i
  end.
Proof.
  intros Hw Hlen. unfold modifiers.
  edestruct (rowwise_then radius_nd w) as (m1 & -> & Hl1 & _); [|exact Hw|exact Hlen|].
  { apply rowwise_when. intros _.
    apply (rowwise_rmw radius_nd w
             (fun r => (r <=? root_linear_changes_until p)%float) C2
             (fun r => (r - 1.0)%float)
             (fun v k => (v - root_linear_chord_addition_ p * k)%float)). }
  edestruct (rowwise_then radius_nd w) as (m2 & -> & Hl2 & _);
    [|apply lookup_insert_eq|exact Hl1|].
  { apply rowwise_when. intros _.
    apply (rowwise_rmw radius_nd w
             (fun r => (tip_cos_changes_from p <=? r)%float) C2
             (fun r => (- cos (r * F64.pi))%float)
             (fun v k => (v + tip_cos_chord_addition_ p * k)%float)). }
  edestruct (rowwise_then radius_nd w) as (m3 & -> & Hl3 & _);
    [|apply lookup_insert_eq|exact Hl2|].
  { apply rowwise_when. intros _. apply rowwise_cos_chord. }
  edestruct (rowwise_then radius_nd w) as (m4 & -> & Hl4 & _);
    [|apply lookup_insert_eq|exact Hl3|].
  { apply rowwise_when. intros _.
    apply (rowwise_rmw radius_nd w
             (fun r => (r <=? twist_changes_until p)%float) C1
             (fun r => (- (r - 1.0))%float)
             (fun v k => (v + twist_twist_addition p * k)%float)). }
  set (h4 := <[w:=m4]> _).
  assert (Hw4 : h4 !! w = Some m4) by apply lookup_insert_eq.
  assert (Hcyl : forall (h' : heap) m', h' !! w = Some m' -> length m' = length radius_nd ->
            (when (cylindrical_on p)
               (make_root_cylindrical radius_nd w (cylindrical_changes_until p)) h').2
            = Ok tt).
  { intros h' m' Hw' Hl'.
    destruct (rowwise_when radius_nd w (cylindrical_on p) _ _
                (fun _ => rowwise_cyl radius_nd w
                            (fun r => (r <=? cylindrical_changes_until p)%float))
                h' m' Hw' Hl') as (m6 & Hrun & _).
    unfold make_root_cylindrical. by rewrite Hrun. }
  destruct (supertwist_on p) eqn:Hon; unfold when at 1; unfold bind.
  - rewrite (supertwist_sweep radius_nd w _ _ _ h4 m4 Hw4).
    destruct (sweep_rmw_prefix (fun r => (r <=? supertwist_changes_until p)%float) C1
                (manual_multiplier p)
                (fun v k => (v + supertwist_twist_addition p * k)%float) radius_nd 0 m4)
      as (Hl & _ & _ & _ & Hinv); [simpl; lia|].
    pose proof (sweep_ok_inv (fun r => (r <=? supertwist_changes_until p)%float)
                  (rmw_upd C1 (manual_multiplier p)
                     (fun v k => (v + supertwist_twist_addition p * k)%float))
                  radius_nd 0 m4) as Hok.
    cbv zeta in *.
    destruct (sweep _ _ 0 radius_nd m4) as [m5 [[]|e5]]; simpl in *.
    + pose proof (Hcyl (<[w:=m5]> h4) m5) as H6.
      destruct (when _ _ (<[w:=m5]> h4)) as [h6 r6]. simpl in H6.
      rewrite H6; [|apply lookup_insert_eq|lia].
      intros _ i r Hi Hr. destruct (Hok eq_refl i r Hi Hr) as (x & x' & _ & Hu).
      unfold rmw_upd in Hu. destruct (manual_multiplier p !! i) eqn:Hk; [|done].
      by eapply lookup_lt_Some.
    + destruct (Hinv e5 eq_refl) as (-> & k & r & Hk & Hr & Hge).
      split; [done|]. split; [done|]. by exists k, r.
  - unfold ret at 1. pose proof (Hcyl h4 m4 Hw4 Hl4) as H6.
    destruct (when _ _ h4) as [h6 r6]. simpl in H6. subst r6.
    intros ?. congruence.
Qed.

(** A design change that returned had a weight for every section that the
    manual-profile twist selects, and made the matrix of the new rows. *)
Lemma change_design_ok_inv (cos : float -> float) p geo_mat (h h' : heap) m0 wm :
  h !! geo_mat = Some m0 ->
  change_design cos p geo_mat h = (h', Ok wm) ->
  exists xn,
    last m0 = Some xn /\
    weights_cover p ((fun x => radius x / radius xn)%float <$> m0) /\
    wm = fresh (dom h) /\
    h' = <[fresh (dom h) :=
             imap (fun i x => design_row cos p i (radius x / radius xn)%float x) m0]> h.
Proof.
  intros Hg Hrun. destruct (last m0) as [xn|] eqn:Hlast.
  - exists xn. split; [done|].
    assert (Hcover : weights_cover p ((fun x => radius x / radius xn)%float <$> m0)).
    { rewrite change_design_unfold, Hg, (normalise_last m0 xn Hlast) in Hrun.
      cbv zeta in Hrun.
      pose proof (modifiers_outcome cos p ((fun x => radius x / radius xn)%float <$> m0)
                    (fresh (dom h)) (<[fresh (dom h):=m0]> h) m0) as Hout.
      destruct (modifiers cos p _ (fresh (dom h)) _) as [h1 [[]|e]]; [|done].
      apply Hout; [apply lookup_insert_eq|by rewrite length_fmap]. }
    split; [done|].
    rewrite (change_design_rows cos p geo_mat h m0 xn Hg Hlast Hcover) in Hrun.
    by injection Hrun as <- <-.
  - apply last_None in Hlast as ->.
    rewrite change_design_unfold, Hg in Hrun. done.
Qed.

(** X2: The design change on a geometry with at least one section (lines
    59-154) returns exactly when every section that the manual-profile twist
    selects has a weight, and then [working_mat] is a fresh array that holds,
    for each section, the row the modifier stack makes of the baseline row at
    the normalised radius [r / R], [R] being the radius of the last
    section: the blocks act on each section by itself, the chord blocks on
    the chord, the twist blocks on the twist, in the order of the script. *)
Theorem change_design_row_by_row (cos : float -> float) p geo_mat (h : heap) m0 xn :
  h !! geo_mat = Some m0 ->
  last m0 = Some xn ->
  let radius_nd := (fun x => radius x / radius xn)%float <$> m0 in
  ((exists wm, (change_design cos p geo_mat h).2 = Ok wm) <-> weights_cover p radius_nd) /\
  (weights_cover p radius_nd ->
   change_design cos p geo_mat h
   = (<[fresh (dom h) :=
          imap (fun i x => design_row cos p i (radius x / radius xn)%float x) m0]> h,
      Ok (fresh (dom h)))).
Proof.
  intros Hg Hlast radius_nd. split; [|by apply change_design_rows].
  split.
  - intros [wm Hwm].
    destruct (change_design cos p geo_mat h) as [h' r] eqn:Hrun. simpl in Hwm. subst r.
    destruct (change_design_ok_inv cos p geo_mat h h' m0 wm Hg Hrun)
      as (xn' & Hlast' & Hcover & _).
    rewrite Hlast in Hlast'. by injection Hlast' as <-.
  - intros Hcover. rewrite (change_design_rows cos p geo_mat h m0 xn Hg Hlast Hcover).
    eauto.
Qed.

(** Witness: the linear root chord shift and the manual twist on three
    sections, the first two selected, with two weights. *)
Lemma change_design_row_by_row_witness :
  let m0 := [Row 0 1 5 60; Row 50 2 4 50; Row 100 3 3 24]%float in
  let h : heap := {[ 1%positive := m0 ]} in
  let p := root_shift_and_manual_twist in
  let radius_nd := (fun x => radius x / 100)%float <$> m0 in
  ((exists wm, (change_design cos_unused p 1%positive h).2 = Ok wm)
   <-> weights_cover p radius_nd) /\
  (weights_cover p radius_nd ->
   change_design cos_unused p 1%positive h
   = (<[fresh (dom h) :=
          imap (fun i x => design_row cos_unused p i (radius x / 100)%float x) m0]> h,
      Ok (fresh (dom h)))).
Proof.
  intros m0 h p radius_nd.
  exact (change_design_row_by_row cos_unused p 1%positive h m0 (Row 100 3 3 24)
           eq_refl eq_refl).
Defined.

(** X3: The design change fails only with [IndexError], and only on a
    geometry without sections (line 59, [geo_mat[:, 0][-1]]) or when the
    manual-profile twist is on and selects a section for which
    [manual_multiplier] has no weight (line 143). *)
Theorem change_design_fails_with_index_error (cos : float -> float) p geo_mat
    (h : heap) m0 e :
  h !! geo_mat = Some m0 ->
  (change_design cos p geo_mat h).2 = Raise e ->
  e = "IndexError" /\
  (m0 = [] \/
   supertwist_on p = true /\
   exists xn i x, last m0 = Some xn /\ m0 !! i = Some x /\
     (radius x / radius xn <=? supertwist_changes_until p)%float = true /\
     length (manual_multiplier p) <= i).
Proof.
  intros Hg. rewrite change_design_unfold, Hg.
  destruct (last m0) as [xn|] eqn:Hlast.
  - rewrite (normalise_last m0 xn Hlast). cbv zeta.
    set (b := fresh (dom h)).
    set (rnd := (fun x => radius x / radius xn)%float <$> m0).
    pose proof (modifiers_outcome cos p rnd b (<[b:=m0]> h) m0) as Hinv.
    destruct (modifiers cos p rnd b (<[b:=m0]> h)) as [h' [[]|e']]; [done|].
    simpl. intros [= <-].
    destruct Hinv as (-> & Hon & i & r & Hi & Hr & Hge);
      [apply lookup_insert_eq|unfold rnd; by rewrite length_fmap|].
    split; [done|]. right. split; [done|].
    unfold rnd in Hi. rewrite list_lookup_fmap in Hi.
    destruct (m0 !! i) as [x|] eqn:Hx; [|done]. injection Hi as <-.
    by exists xn, i, x.
  - apply last_None in Hlast as ->. simpl. intros [= <-]. split; [done|]. by left.
Qed.

(** Witness: four sections, three of them selected, and two weights. *)
Lemma change_design_fails_with_index_error_witness :
  let m0 := [Row 0 1 5 60; Row 25 2 4 50; Row 50 3 3 40; Row 100 4 2 24]%float in
  let h : heap := {[ 1%positive := m0 ]} in
  let p := root_shift_and_manual_twist in
  (change_design cos_unused p 1%positive h).2 = Raise "IndexError" /\
  (m0 = [] \/
   supertwist_on p = true /\
   exists xn i x, last m0 = Some xn /\ m0 !! i = Some x /\
     (radius x / radius xn <=? supertwist_changes_until p)%float = true /\
     length (manual_multiplier p) <= i).
Proof.
  intros m0 h p.
  assert (Hrun : (change_design cos_unused p 1%positive h).2 = Raise "IndexError")
    by (vm_compute; reflexivity).
  split; [exact Hrun|].
  exact (proj2 (change_design_fails_with_index_error cos_unused p 1%positive h m0
                  "IndexError" eq_refl Hrun)).
Defined.

(** [nan] is below no threshold. *)
Lemma nan_leb_r q a : is_nan q = true -> (a <=? q)%float = false.
Proof.
  unfold is_nan. rewrite FloatAxioms.eqb_spec, FloatAxioms.leb_spec. unfold SFeqb, SFleb.
  destruct (Prim2SF q) as [s|s| |s m e]; simpl; try done.
  - by destruct s.
  - by destruct (Prim2SF a).
  - rewrite Z.compare_refl.
    change (PosDef.Pos.compare_cont Eq m m) with (Pos.compare m m).
    rewrite Pos.compare_refl. by destruct s.
Qed.

(** X4: The tip chord shift (lines 92-102) returns, applies
    [chord + chord_addition * -cos(r * pi)] to exactly the sections with
    [changes_from <= r], the boundary included, and leaves every field of
    every other section as it was: those strictly below [changes_from] and
    those whose normalised radius is [nan]. *)
Theorem tip_selection_boundary (cos : float -> float) radius_nd w a t (h : heap) m :
  h !! w = Some m ->
  length m = length radius_nd ->
  exists m',
    tip_cos_chord_addition cos radius_nd w a t h = (<[w := m']> h, Ok tt) /\
    length m' = length m /\
    forall i r x, radius_nd !! i = Some r -> m !! i = Some x ->
      ((t <=? r)%float = true ->
       m' !! i = Some (set_col C2 (chord x + a * - cos (r * F64.pi))%float x)) /\
      ((t <=? r)%float = false -> m' !! i = Some x) /\
      ((r <? t)%float = true -> m' !! i = Some x) /\
      (is_nan r = true -> m' !! i = Some x).
Proof.
  intros Hw Hlen.
  destruct (rowwise_rmw radius_nd w (fun r => (t <=? r)%float) C2
              (fun r => (- cos (r * F64.pi))%float)
              (fun v k => (v + a * k)%float) h m Hw Hlen) as (m' & Hrun & Hl & Hrows).
  exists m'. split; [exact Hrun|]. split; [done|].
  intros i r x Hi Hx. specialize (Hrows i r x Hi Hx). cbv beta in Hrows.
  split_and!; intros Hr.
  - by rewrite Hr in Hrows.
  - by rewrite Hr in Hrows.
  - apply F64Facts.ltb_leb_false in Hr. by rewrite Hr in Hrows.
  - apply (nan_leb_r r t) in Hr. by rewrite Hr in Hrows.
Qed.

(** Witness: sections at 0.5, 0.6 and 1 with the threshold 0.6 of the
    script. *)
Lemma tip_selection_boundary_witness :
  let rnd := [0.5; 0.6; 1]%float in
  let m := [Row 50 1 5 60; Row 60 2 4 50; Row 100 3 3 40]%float in
  let h : heap := {[ 1%positive := m ]} in
  exists m',
    tip_cos_chord_addition cos_poly rnd 1%positive (-0.5) 0.6 h
    = (<[1%positive := m']> h, Ok tt) /\
    length m' = length m /\
    forall i r x, rnd !! i = Some r -> m !! i = Some x ->
      ((0.6 <=? r)%float = true ->
       m' !! i = Some (set_col C2 (chord x + -0.5 * - cos_poly (r * F64.pi))%float x)) /\
      ((0.6 <=? r)%float = false -> m' !! i = Some x) /\
      ((r <? 0.6)%float = true -> m' !! i = Some x) /\
      (is_nan r = true -> m' !! i = Some x).
Proof.
  intros rnd m h.
  exact (tip_selection_boundary cos_poly rnd 1%positive (-0.5)%float 0.6%float h m
           eq_refl eq_refl).
Defined.

(** * The section at the tip *)

Module TipFacts.

(** The quotient of a finite number by itself, before rounding: [2^53] with
    the exponent [-53], exactly. *)
Lemma SFdiv_core_self m e :
  SFdiv_core_binary prec emax (Z.pos m) e (Z.pos m) e
  = (9007199254740992, -53, SpecFloat.loc_Exact)%Z.
Proof.
  unfold SFdiv_core_binary.
  replace (Zdigits2 (Z.pos m) + e - (Zdigits2 (Z.pos m) + e))%Z with 0%Z by lia.
  replace (e - e)%Z with 0%Z by lia.
  change (IntDef.Z.min (SpecFloat.fexp prec emax 0) 0) with (-53)%Z.
  change (0 - -53)%Z with 53%Z. cbv zeta iota.
  change (IntDef.Z.shiftl (Z.pos m) 53) with (Z.shiftl (Z.pos m) 53).
  rewrite Z.shiftl_mul_pow2 by lia.
  change (IntDef.Z.div_eucl (Z.pos m * 2 ^ 53) (Z.pos m))
    with (Z.div_eucl (Z.pos m * 2 ^ 53) (Z.pos m)).
  assert (Hq : (Z.pos m * 2 ^ 53 / Z.pos m = 9007199254740992)%Z).
  { rewrite Z.mul_comm. by rewrite Z.div_mul. }
  assert (Hr : ((Z.pos m * 2 ^ 53) mod Z.pos m = 0)%Z).
  { rewrite Z.mul_comm. by rewrite Z.mod_mul. }
  unfold Z.div, Z.modulo in Hq, Hr.
  destruct (Z.div_eucl (Z.pos m * 2 ^ 53) (Z.pos m)) as [q r]. subst q r.
  unfold SpecFloat.new_location. by destruct (IntDef.Z.even (Z.pos m)).
Qed.

(** A finite number that is not zero, divided by itself, is 1. *)
Lemma div_self x :
  F64.finite x = true -> F64.is_zero x = false -> (x / x)%float = 1%float.
Proof.
  unfold F64.finite, F64.is_zero. intros Hfin Hnz.
  apply Prim2SF_inj. rewrite div_spec.
  destruct (Prim2SF x) as [s|s| |s m e]; try done.
  unfold SF64div, SFdiv. rewrite SFdiv_core_self. by destruct s.
Qed.

End TipFacts.

(** X5: The last section is at [r/R = 1] exactly, whenever its radius is a
    finite number other than zero (line 60), so the root blocks, whose
    thresholds are below 1, never select it: with the two chord blocks that
    reach the tip off, a design change that returns leaves in the last row
    of [working_mat] the last row of [geo_mat], whatever the root blocks
    did to the other sections. *)
Theorem root_modifiers_keep_tip (cos : float -> float) p geo_mat (h h' : heap) m0 xn wm :
  h !! geo_mat = Some m0 ->
  last m0 = Some xn ->
  F64.finite (radius xn) = true ->
  F64.is_zero (radius xn) = false ->
  tip_cos_on p = false ->
  cos_on p = false ->
  (1 <=? root_linear_changes_until p)%float = false ->
  (1 <=? twist_changes_until p)%float = false ->
  (1 <=? supertwist_changes_until p)%float = false ->
  (1 <=? cylindrical_changes_until p)%float = false ->
  change_design cos p geo_mat h = (h', Ok wm) ->
  (exists radius_nd, normalise m0 = Ok radius_nd /\ last radius_nd = Some 1%float) /\
  (exists m', h' !! wm = Some m' /\ length m' = length m0 /\ last m' = Some xn).
Proof.
  intros Hg Hlast Hfin Hnz Htip Hcos H1 H2 H3 H4 Hrun.
  pose proof (TipFacts.div_self (radius xn) Hfin Hnz) as Hone.
  split.
  - eexists. split; [apply (normalise_last m0 xn Hlast)|].
    by rewrite fmap_last, Hlast, <- Hone.
  - apply (change_design_ok_inv cos p geo_mat h h' m0 wm Hg) in Hrun
      as (xn' & Hlast' & _ & -> & ->).
    rewrite Hlast in Hlast'. injection Hlast' as <-.
    eexists. split; [apply lookup_insert_eq|]. split; [apply length_imap|].
    apply last_Some in Hlast as [l ->].
    rewrite imap_app. simpl. rewrite last_snoc. f_equal.
    unfold design_row. rewrite Hone, Htip, Hcos, H1, H2, H3, H4.
    rewrite !andb_false_r. by destruct xn.
Qed.

(** Witness: three sections with the settings of the script. *)
Lemma root_modifiers_keep_tip_witness :
  let m0 := [Row 0 1 5 60; Row 50 2 4 50; Row 100 3 3 24]%float in
  let h : heap := {[ 1%positive := m0 ]} in
  exists h' wm,
    change_design cos_unused script_params 1%positive h = (h', Ok wm) /\
    (exists radius_nd, normalise m0 = Ok radius_nd /\ last radius_nd = Some 1%float) /\
    (exists m', h' !! wm = Some m' /\ length m' = length m0 /\
                last m' = Some (Row 100 3 3 24)).
Proof.
  intros m0 h.
  destruct (change_design cos_unused script_params 1%positive h) as [h' r] eqn:Hrun.
  assert (Hr : exists wm, r = Ok wm) by (vm_compute in Hrun; injection Hrun as _ <-; eauto).
  destruct Hr as [wm ->]. exists h', wm. split; [reflexivity|].
  exact (root_modifiers_keep_tip cos_unused script_params 1%positive h h' m0
           (Row 100 3 3 24) wm eq_refl eq_refl eq_refl eq_refl eq_refl eq_refl
           eq_refl eq_refl eq_refl eq_refl Hrun).
Defined.

(** * Resampling on a shared grid *)

Module GridFacts.
Import NumPy.

(** Strictly increasing, as [np.interp] expects its sample points. *)
Definition increasing (l : list float) : Prop :=
  forall i j a b, l !! i = Some a -> l !! j = Some b -> i < j -> (a <? b)%float = true.

Lemma ltb_irrefl x : (x <? x)%float = false.
Proof.
  destruct (x <? x)%float eqn:E; [|done]. by rewrite (F64Facts.ltb_asym _ _ E) in E.
Qed.

Lemma ltb_not_nan_l a b : (a <? b)%float = true -> is_nan a = false.
Proof.
  intros H. destruct (is_nan a) eqn:E; [|done].
  by rewrite (NumPyFacts.nan_ltb_l a b E) in H.
Qed.

Lemma ltb_not_nan_r a b : (a <? b)%float = true -> is_nan b = false.
Proof.
  intros H. destruct (is_nan b) eqn:E; [|done].
  by rewrite (NumPyFacts.nan_ltb_r b a E) in H.
Qed.

Lemma eqb_refl_number x : is_nan x = false -> (x =? x)%float = true.
Proof. unfold is_nan. by intros ->%negb_false_iff. Qed.

Lemma increasing_no_nan l : 2 <= length l -> increasing l -> SearchFacts.no_nan l.
Proof.
  intros Hlen Hinc. apply Forall_lookup. intros i a Hi.
  destruct i as [|i].
  - destruct (lookup_lt_is_Some_2 l 1) as [b Hb]; [lia|].
    eapply ltb_not_nan_l. apply (Hinc 0 1 a b Hi Hb). lia.
  - destruct (lookup_lt_is_Some_2 l 0) as [b Hb]; [lia|].
    eapply ltb_not_nan_r. apply (Hinc 0 (S i) b a Hb Hi). lia.
Qed.

Lemma at_lookup (l : list float) k a : l !! k = Some a -> at_ l (Z.of_nat k) = a.
Proof.
  intros H. unfold at_. rewrite Nat2Z.id. by apply nth_lookup_Some.
Qed.

Lemma lookup_at (l : list float) (j : Z) :
  (0 <= j < Z.of_nat (length l))%Z -> l !! Z.to_nat j = Some (at_ l j).
Proof.
  intros Hj. destruct (lookup_lt_is_Some_2 l (Z.to_nat j)) as [a Ha]; [lia|].
  rewrite Ha. f_equal. symmetry. unfold at_. by apply nth_lookup_Some.
Qed.

(** On a sample point of an increasing table the search finds that sample
    point, whatever the guess. *)
Lemma search_own_point xp k q g :
  2 <= length xp -> increasing xp -> xp !! k = Some q ->
  binary_search_with_guess q xp g = Z.of_nat k.
Proof.
  intros Hlen Hinc Hk.
  pose proof (increasing_no_nan xp Hlen Hinc) as Hnn.
  assert (Hq : is_nan q = false).
  { unfold SearchFacts.no_nan in Hnn. rewrite Forall_lookup in Hnn. by eapply Hnn. }
  pose proof (lookup_lt_Some _ _ _ Hk) as Hklt.
  assert (Hcmp : forall j, (0 <= j < Z.of_nat (length xp))%Z ->
            ((j < Z.of_nat k)%Z -> (at_ xp j <? q)%float = true) /\
            ((Z.of_nat k < j)%Z -> (q <? at_ xp j)%float = true)).
  { intros j Hj. pose proof (lookup_at xp j Hj) as Hat. split; intros Hlt.
    - apply (Hinc (Z.to_nat j) k _ _ Hat Hk). lia.
    - apply (Hinc k (Z.to_nat j) _ _ Hk Hat). lia. }
  assert (Hlast : (at_ xp (Z.of_nat (length xp) - 1) <? q)%float = false).
  { destruct (decide (k = length xp - 1)) as [->|Hne].
    - replace (Z.of_nat (length xp) - 1)%Z with (Z.of_nat (length xp - 1)) by lia.
      rewrite (at_lookup _ _ _ Hk). apply ltb_irrefl.
    - apply F64Facts.ltb_asym. apply Hcmp; lia. }
  assert (Hfirst : (q <? at_ xp 0)%float = false).
  { destruct k as [|k].
    - change 0%Z with (Z.of_nat 0). rewrite (at_lookup _ _ _ Hk). apply ltb_irrefl.
    - apply F64Facts.ltb_asym. apply Hcmp; lia. }
  destruct (SearchFacts.binary_search_bracket q xp Hq Hnn g) as (Hj & Hle & Hup);
    [by destruct xp|done|done|].
  cbv zeta in *. set (j := binary_search_with_guess q xp g) in *.
  destruct (Z.lt_trichotomy j (Z.of_nat k)) as [Hlt|[Heq|Hgt]]; [|done|].
  - exfalso. destruct Hup as [Hup|Hup]; [lia|].
    destruct (decide (j + 1 = Z.of_nat k)%Z) as [Hjk|Hjk].
    + rewrite Hjk, (at_lookup _ _ _ Hk), ltb_irrefl in Hup. done.
    + assert (H : (at_ xp (j + 1) <? q)%float = true) by (apply Hcmp; lia).
      by rewrite (F64Facts.ltb_asym _ _ H) in Hup.
  - exfalso. assert (H : (q <? at_ xp j)%float = true) by (apply Hcmp; lia).
    by rewrite (F64Facts.ltb_leb_false _ _ H) in Hle.
Qed.

(** One turn of the loop on a sample point gives its sample value. *)
Lemma interp_point_own_point lval rval xp fp k q v g :
  2 <= length xp -> increasing xp -> xp !! k = Some q -> fp !! k = Some v ->
  (interp_point lval rval xp fp g q).1 = v.
Proof.
  intros Hlen Hinc Hk Hv. unfold interp_point.
  pose proof (increasing_no_nan xp Hlen Hinc) as Hnn.
  assert (Hq : is_nan q = false).
  { unfold SearchFacts.no_nan in Hnn. rewrite Forall_lookup in Hnn. by eapply Hnn. }
  rewrite Hq, (search_own_point xp k q g Hlen Hinc Hk).
  pose proof (lookup_lt_Some _ _ _ Hk) as Hklt.
  assert ((Z.of_nat k =? -1)%Z = false) as -> by (apply Z.eqb_neq; lia).
  assert ((Z.of_nat k =? Z.of_nat (length xp))%Z = false) as -> by (apply Z.eqb_neq; lia).
  rewrite (at_lookup _ _ _ Hk), (at_lookup _ _ _ Hv), (eqb_refl_number q Hq).
  by destruct (Z.of_nat k =? Z.of_nat (length xp) - 1)%Z.
Qed.

(** Resampling an increasing table onto its own sample points gives back
    its values. *)
Lemma interp_own_grid xp fp :
  xp <> [] -> increasing xp -> length fp = length xp ->
  interp xp xp fp = Ok fp.
Proof.
  intros Hne Hinc Hlen. unfold interp.
  destruct xp as [|x0 xp'] eqn:Exp; [done|]. rewrite <- Exp in *.
  rewrite Hlen, Nat.eqb_refl. simpl negb. cbv iota.
  destruct xp' as [|x1 xp''] eqn:Exp'.
  - subst xp. destruct fp as [|f0 [|f1 fp]]; simpl in Hlen; try lia.
    simpl. unfold interp_single. by rewrite ltb_irrefl.
  - rewrite <- Exp' in *. f_equal. apply list_eq. intros i.
    assert (Hl2 : 2 <= length xp) by (subst xp xp'; simpl; lia).
    destruct (xp !! i) as [q|] eqn:Hq.
    + destruct (lookup_lt_is_Some_2 fp i) as [v Hv].
      { rewrite Hlen. by eapply lookup_lt_Some. }
      destruct (NumPyFacts.interp_loop_lookup (at_ fp 0)
                  (at_ fp (Z.of_nat (length xp) - 1)) xp fp xp 0 i q Hq) as [g Hg].
      rewrite Hg, Hv. f_equal. by eapply interp_point_own_point.
    + apply lookup_ge_None in Hq. rewrite (proj2 (lookup_ge_None fp i)) by lia.
      apply lookup_ge_None. rewrite NumPyFacts.interp_loop_length. lia.
Qed.

End GridFacts.

(** X6: Where the element table and the twist sub-table share their radii, and
    these increase, both resampling steps are exact: reading stores the
    twists of the sub-table in [geo_mat] (line 54), and writing computes the
    twists of [working_mat] for the sub-table (line 164). *)
Theorem resampling_on_shared_grid :
  (forall ae_data twist_table (h : heap),
     twist_table <> [] ->
     GridFacts.increasing (fst <$> twist_table) ->
     (fun r : float * float * float => r.1.1) <$> ae_data = fst <$> twist_table ->
     build_geo_mat ae_data twist_table h
     = (<[fresh (dom h) := geo_rows ae_data (snd <$> twist_table)]> h,
        Ok (fresh (dom h)))) /\
  (forall working_mat (h : heap) m,
     h !! working_mat = Some m ->
     m <> [] ->
     GridFacts.increasing (radius <$> m) ->
     get_htc_twist (radius <$> m) working_mat h = (h, Ok (twist <$> m))).
Proof.
  split.
  - intros ae_data twist_table h Hne Hinc Hgrid.
    apply build_geo_mat_ok.
    + rewrite Hgrid. apply GridFacts.interp_own_grid; [by destruct twist_table|done|].
      by rewrite !length_fmap.
    + apply (f_equal length) in Hgrid. rewrite !length_fmap in Hgrid.
      by rewrite length_fmap.
  - intros working_mat h m Hw Hne Hinc.
    unfold get_htc_twist, bind, col_get. rewrite Hw. simpl. rewrite Hw. simpl.
    change (get_col C0 <$> m) with (radius <$> m).
    change (get_col C1 <$> m) with (twist <$> m).
    rewrite GridFacts.interp_own_grid; [done|by destruct m|done|].
    by rewrite !length_fmap.
Qed.

(** Witness: three sections on the radii 0, 50 and 100. *)
Lemma resampling_on_shared_grid_witness :
  let m := [Row 0 (-14.5) 5 100; Row 50 (-8) 4 50; Row 100 (-3) 3 24]%float in
  let h : heap := {[ 1%positive := m ]} in
  GridFacts.increasing (radius <$> m) /\
  get_htc_twist (radius <$> m) 1%positive h = (h, Ok (twist <$> m)).
Proof.
  intros m h.
  assert (Hinc : GridFacts.increasing (radius <$> m)).
  { intros [|[|[|i]]] [|[|[|j]]] a b Hi Hj Hlt; simpl in *; try lia; try done;
      injection Hi as <-; injection Hj as <-; reflexivity. }
  assert (Hne : m <> []) by discriminate.
  split; [exact Hinc|].
  exact (proj2 resampling_on_shared_grid 1%positive h m eq_refl Hne Hinc).
Defined.

(** * What the script writes *)

(** [d'] differs from [d] at most in the files at [paths]. *)
Definition touches_only (paths : list string) (d d' : fs) : Prop :=
  locked d' = locked d /\
  forall path, path ∉ paths -> files d' !! path = files d !! path.

(** A computation whose final state is related to its initial state,
    whether it returns or raises. *)
Definition keeps {S A} (R : relation S) (c : ST S A) : Prop :=
  forall s, R s (c s).1.

Global Instance touches_only_preorder paths : PreOrder (touches_only paths).
Proof.
  split.
  - by intros d.
  - intros d1 d2 d3 [Hl1 Hf1] [Hl2 Hf2]. split; [congruence|].
    intros path Hp. by rewrite Hf2, Hf1.
Qed.

(** Membership and inclusion of short lists of paths. *)
Ltac solve_paths :=
  unfold subseteq, list_subseteq; intros;
  repeat match goal with
  | H : context [_ ∈ _] |- _ => progress rewrite ?elem_of_cons, ?elem_of_nil in H
  end;
  rewrite ?elem_of_cons, ?elem_of_nil; intuition congruence.

Lemma touches_only_mono paths paths' d d' :
  paths ⊆ paths' -> touches_only paths d d' -> touches_only paths' d d'.
Proof.
  intros Hsub [Hl Hf]. split; [done|]. intros path Hp. apply Hf.
  intros Hin. apply Hp. by apply Hsub.
Qed.

Section Keeps.

Context {S : Type} (R : relation S) `{!PreOrder R}.

Lemma keeps_ret {A} (a : A) : keeps R (ret a).
Proof. by intros s. Qed.

Lemma keeps_raise {A} e : keeps R (raise e : ST S A).
Proof. by intros s. Qed.

Lemma keeps_lift {A} (r : result A) : keeps R (lift r).
Proof. by intros s. Qed.

Lemma keeps_bind {A B} (c : ST S A) (k : A -> ST S B) :
  keeps R c -> (forall a, keeps R (k a)) -> keeps R (bind c k).
Proof.
  intros Hc Hk s. unfold bind. specialize (Hc s).
  destruct (c s) as [s1 [a|e]]; simpl in *; [|done].
  etrans; [exact Hc|apply Hk].
Qed.

Lemma keeps_try_except {A} (body handler : ST S A) :
  keeps R body -> keeps R handler -> keeps R (try_except body handler).
Proof.
  intros Hb Hh s. unfold try_except. specialize (Hb s).
  destruct (body s) as [s1 [a|e]]; simpl in *; [done|].
  etrans; [exact Hb|apply Hh].
Qed.

End Keeps.

Lemma keeps_mono {S A} (R R' : relation S) (c : ST S A) :
  (forall s s', R s s' -> R' s s') -> keeps R c -> keeps R' c.
Proof. intros H Hc s. apply H, Hc. Qed.

(** The disk operations. *)
Lemma keeps_read_text path : keeps (touches_only []) (read_text path).
Proof. intros d. unfold read_text. by destruct (files d !! path). Qed.

Lemma keeps_read_text_rw path : keeps (touches_only []) (read_text_rw path).
Proof.
  intros d. unfold read_text_rw. case_decide; [done|]. apply keeps_read_text.
Qed.

Lemma keeps_write_text path s : keeps (touches_only [path]) (write_text path s).
Proof.
  intros d. unfold write_text. case_decide; [done|]. split; [done|].
  intros path' Hp. simpl. apply lookup_insert_ne. solve_paths.
Qed.

Lemma keeps_shutil_copy src dst : keeps (touches_only [dst]) (shutil_copy src dst).
Proof.
  unfold shutil_copy. apply keeps_bind; [apply _| |].
  - eapply keeps_mono; [|apply keeps_read_text].
    intros d d'. apply touches_only_mono. solve_paths.
  - intros s. case_decide; [apply keeps_raise, _|apply keeps_write_text].
Qed.

Lemma keeps_rewrite_file path turn : keeps (touches_only [path]) (rewrite_file path turn).
Proof.
  unfold rewrite_file. apply keeps_bind; [apply _| |].
  { eapply keeps_mono; [|apply keeps_read_text].
    intros d d'. apply touches_only_mono. solve_paths. }
  intros text. apply keeps_bind; [apply _| |].
  { eapply keeps_mono; [|apply keeps_read_text_rw].
    intros d d'. apply touches_only_mono. solve_paths. }
  intros text'. apply keeps_bind; [apply _|apply keeps_lift, _|].
  intros content. apply keeps_write_text.
Qed.

(** The same on the world of the script. *)
Definition disk_touches_only (paths : list string) (w w' : world) : Prop :=
  touches_only paths (disk w) (disk w').

Global Instance disk_touches_only_preorder paths : PreOrder (disk_touches_only paths).
Proof.
  split.
  - intros w. unfold disk_touches_only. done.
  - intros w1 w2 w3. unfold disk_touches_only. intros. by etrans.
Qed.

Lemma keeps_on_disk {A} paths paths' (c : IO A) :
  paths ⊆ paths' -> keeps (touches_only paths) c ->
  keeps (disk_touches_only paths') (on_disk c).
Proof.
  intros Hsub Hc w. unfold on_disk, disk_touches_only. specialize (Hc (disk w)).
  destruct (c (disk w)) as [d r]. simpl in *. by eapply touches_only_mono.
Qed.

Lemma keeps_on_arrays {A} paths (c : M A) : keeps (disk_touches_only paths) (on_arrays c).
Proof.
  intros w. unfold on_arrays, disk_touches_only.
  destruct (c (arrays w)) as [h r]. simpl. done.
Qed.

Section ScriptWrites.

Variable cos : float -> float.
Variable p : params.
Variable st : settings.

Lemma keeps_prepare : keeps (disk_touches_only [plot_filename st]) (prepare cos p st).
Proof.
  unfold prepare.
  repeat first
    [ apply keeps_ret; apply _
    | apply keeps_lift; apply _
    | apply keeps_on_arrays
    | (apply (keeps_on_disk []); [solve_paths|apply keeps_read_text])
    | (apply (keeps_on_disk [plot_filename st]); [solve_paths|apply keeps_write_text])
    | (apply keeps_bind; [apply _| |intros ?]) ].
Qed.

Lemma keeps_copy_originals :
  keeps (disk_touches_only [new_htc_filename st; new_ae_filename st]) (copy_originals st).
Proof.
  unfold copy_originals. apply keeps_try_except; [apply _| |apply keeps_raise, _].
  apply (keeps_on_disk [new_htc_filename st; new_ae_filename st]); [done|].
  apply keeps_bind; [apply _| |intros _].
  - eapply keeps_mono; [|apply keeps_shutil_copy].
    intros d d'. apply touches_only_mono. solve_paths.
  - eapply keeps_mono; [|apply keeps_shutil_copy].
    intros d d'. apply touches_only_mono. solve_paths.
Qed.

Lemma keeps_write_files rows htc_twist :
  keeps (disk_touches_only [new_htc_filename st; new_ae_filename st])
    (write_files st rows htc_twist).
Proof.
  unfold write_files. apply keeps_bind; [apply _| |intros _].
  - apply (keeps_on_disk [new_htc_filename st]); [solve_paths|apply keeps_rewrite_file].
  - apply (keeps_on_disk [new_ae_filename st]); [solve_paths|apply keeps_rewrite_file].
Qed.

Lemma keeps_main :
  keeps (disk_touches_only [plot_filename st; new_htc_filename st; new_ae_filename st])
    (main cos p st).
Proof.
  unfold main. apply keeps_bind; [apply _| |intros r].
  { eapply keeps_mono; [|apply keeps_prepare].
    intros w w'. apply touches_only_mono. solve_paths. }
  apply keeps_bind; [apply _| |intros _].
  - eapply keeps_mono; [|apply keeps_copy_originals].
    intros w w'. apply touches_only_mono. solve_paths.
  - eapply keeps_mono; [|apply keeps_write_files].
    intros w w'. apply touches_only_mono. solve_paths.
Qed.

End ScriptWrites.

(** X7: Whatever the settings, the inputs and the outcome, a run writes nothing
    but the plot and the two new files: every other file on disk, and the
    set of paths that cannot be written, are after the run what they were
    before. *)
Theorem main_writes_three_paths (cos : float -> float) p st w path :
  path <> plot_filename st ->
  path <> new_htc_filename st ->
  path <> new_ae_filename st ->
  files (disk (main cos p st w).1) !! path = files (disk w) !! path /\
  locked (disk (main cos p st w).1) = locked (disk w).
Proof.
  intros H1 H2 H3. destruct (keeps_main cos p st w) as [Hl Hf].
  split; [|done]. apply Hf. solve_paths.
Qed.

(** Witness: the original [.htc] file of the small blade after a run. *)
Lemma main_writes_three_paths_witness :
  files (disk (main cos_unused all_off Example.st Example.w0).1) !! "ref.htc"
  = files (disk Example.w0) !! "ref.htc" /\
  locked (disk (main cos_unused all_off Example.st Example.w0).1)
  = locked (disk Example.w0).
Proof.
  assert (H1 : "ref.htc" <> plot_filename Example.st) by (vm_compute; discriminate).
  assert (H2 : "ref.htc" <> new_htc_filename Example.st) by (vm_compute; discriminate).
  assert (H3 : "ref.htc" <> new_ae_filename Example.st) by (vm_compute; discriminate).
  exact (main_writes_three_paths cos_unused all_off Example.st Example.w0 "ref.htc"
           H1 H2 H3).
Defined.

(** A computation that never returns passes its final state on. *)
Lemma keeps_bind_raises {S A B} (R : relation S) (c : ST S A) (k : A -> ST S B) :
  keeps R c -> (forall s a, (c s).2 <> Ok a) -> keeps R (bind c k).
Proof.
  intros Hc Hnever s. unfold bind. specialize (Hc s). specialize (Hnever s).
  destruct (c s) as [s1 [a|e]]; simpl in *; [|done]. by destruct (Hnever a).
Qed.

(** Copying a file onto itself raises and writes nothing. *)
Lemma shutil_copy_same src d : exists e, shutil_copy src src d = (d, Raise e).
Proof.
  unfold shutil_copy, bind, read_text. destruct (files d !! src) as [s|]; [|eauto].
  rewrite decide_True by done. unfold raise. eauto.
Qed.

Section CopyBlocked.

Variable st : settings.

(** When the new [.htc] file would be the original, the copy step quits
    before anything is written. *)
Lemma copy_originals_same_htc :
  new_htc_filename st = htc_file_pathname st ->
  keeps (disk_touches_only []) (copy_originals st) /\
  forall w a, (copy_originals st w).2 <> Ok a.
Proof.
  intros E.
  assert (H : forall w, copy_originals st w = (w, Raise "SystemExit")).
  { intros [h d]. unfold copy_originals, try_except, on_disk, bind. simpl.
    rewrite E. destruct (shutil_copy_same (htc_file_pathname st) d) as [e ->]. done. }
  split.
  - intros w. rewrite H. done.
  - intros w a. by rewrite H.
Qed.

(** When the new [ae.dat] file would be the original, the copy step quits
    after the first copy. *)
Lemma copy_originals_same_ae :
  new_ae_filename st = ae_file_pathname st ->
  keeps (disk_touches_only [new_htc_filename st]) (copy_originals st) /\
  forall w a, (copy_originals st w).2 <> Ok a.
Proof.
  intros E.
  assert (H : forall w, exists d', touches_only [new_htc_filename st] (disk w) d' /\
            copy_originals st w = (World (arrays w) d', Raise "SystemExit")).
  { intros [h d]. unfold copy_originals, try_except, on_disk, bind. simpl.
    pose proof (keeps_shutil_copy (htc_file_pathname st) (new_htc_filename st) d) as H1.
    destruct (shutil_copy (htc_file_pathname st) (new_htc_filename st) d) as [d1 [[]|e1]];
      simpl in H1.
    - rewrite E. destruct (shutil_copy_same (ae_file_pathname st) d1) as [e ->].
      by exists d1.
    - by exists d1. }
  split.
  - intros w. destruct (H w) as (d' & Hd & ->). done.
  - intros w a. destruct (H w) as (d' & _ & ->). done.
Qed.

End CopyBlocked.

(** X8: A run never changes the two original files, whatever its outcome,
    provided the plot is neither of them, the new [.htc] file is not the
    original [ae.dat] file and the new [ae.dat] file is not the original
    [.htc] file.  Where the design name makes a new file the original it is
    copied from, [shutil.copy] raises and the script quits before it
    rewrites anything. *)
Theorem originals_never_modified (cos : float -> float) p st w :
  plot_filename st <> ae_file_pathname st ->
  plot_filename st <> htc_file_pathname st ->
  new_htc_filename st <> ae_file_pathname st ->
  new_ae_filename st <> htc_file_pathname st ->
  files (disk (main cos p st w).1) !! ae_file_pathname st
  = files (disk w) !! ae_file_pathname st /\
  files (disk (main cos p st w).1) !! htc_file_pathname st
  = files (disk w) !! htc_file_pathname st.
Proof.
  intros Hpa Hph Hha Hah.
  assert (Hfrom : forall paths,
            keeps (disk_touches_only paths) (main cos p st) ->
            ae_file_pathname st ∉ paths -> htc_file_pathname st ∉ paths ->
            files (disk (main cos p st w).1) !! ae_file_pathname st
            = files (disk w) !! ae_file_pathname st /\
            files (disk (main cos p st w).1) !! htc_file_pathname st
            = files (disk w) !! htc_file_pathname st).
  { intros paths Hk Ha Hh. destruct (Hk w) as [_ Hf]. split; by apply Hf. }
  destruct (decide (new_htc_filename st = htc_file_pathname st)) as [E1|N1].
  - destruct (copy_originals_same_htc st E1) as [Hk Hnever].
    apply (Hfrom [plot_filename st]); [|solve_paths..].
    unfold main. apply keeps_bind; [apply _|apply keeps_prepare|intros r].
    apply keeps_bind_raises; [|done].
    eapply keeps_mono; [|exact Hk]. intros ? ?. apply touches_only_mono. solve_paths.
  - destruct (decide (new_ae_filename st = ae_file_pathname st)) as [E2|N2].
    + destruct (copy_originals_same_ae st E2) as [Hk Hnever].
      apply (Hfrom [plot_filename st; new_htc_filename st]); [|solve_paths..].
      unfold main. apply keeps_bind; [apply _| |intros r].
      { eapply keeps_mono; [|apply keeps_prepare].
        intros ? ?. apply touches_only_mono. solve_paths. }
      apply keeps_bind_raises; [|done].
      eapply keeps_mono; [|exact Hk]. intros ? ?. apply touches_only_mono. solve_paths.
    + apply (Hfrom [plot_filename st; new_htc_filename st; new_ae_filename st]);
        [apply keeps_main|solve_paths..].
Qed.

(** The small blade with a design name that makes the new [.htc] file the
    original one. *)
Definition clash_settings : settings := {|
  design_name := "ref";
  ae_file_pathname := "data/ref_ae.dat";
  htc_file_pathname := "ref.htc";
  directory := "";
  htc_start_line := 2;
  max_rows := 3;
  n_sec := 3;
  ae_start_line := 2;
  figure := "%PDF"
|}.

(** Witness: with that design name the run quits and both originals are
    what they were. *)
Lemma originals_never_modified_witness :
  new_htc_filename clash_settings = htc_file_pathname clash_settings /\
  (main cos_unused all_off clash_settings Example.w0).2 = Raise "SystemExit" /\
  files (disk (main cos_unused all_off clash_settings Example.w0).1) !! "data/ref_ae.dat"
  = files (disk Example.w0) !! "data/ref_ae.dat" /\
  files (disk (main cos_unused all_off clash_settings Example.w0).1) !! "ref.htc"
  = files (disk Example.w0) !! "ref.htc".
Proof.
  assert (H1 : plot_filename clash_settings <> ae_file_pathname clash_settings)
    by (vm_compute; discriminate).
  assert (H2 : plot_filename clash_settings <> htc_file_pathname clash_settings)
    by (vm_compute; discriminate).
  assert (H3 : new_htc_filename clash_settings <> ae_file_pathname clash_settings)
    by (vm_compute; discriminate).
  assert (H4 : new_ae_filename clash_settings <> htc_file_pathname clash_settings)
    by (vm_compute; discriminate).
  split; [reflexivity|]. split; [vm_compute; reflexivity|].
  exact (originals_never_modified cos_unused all_off clash_settings Example.w0
           H1 H2 H3 H4).
Defined.

(** * Lines and fields of a text *)

Module TextFacts.

Lemma append_cons c (s t : string) : (String c s ++ t)%string = String c (s ++ t).
Proof. reflexivity. Qed.

Lemma append_nil_r (s : string) : (s ++ "")%string = s.
Proof. induction s as [|c s IH]; [done|]. by rewrite append_cons, IH. Qed.

Lemma append_assoc (a b c : string) : ((a ++ b) ++ c)%string = (a ++ (b ++ c))%string.
Proof. induction a as [|x a IH]; [done|]. by rewrite !append_cons, IH. Qed.

Lemma string_of_list_ascii_snoc l c :
  string_of_list_ascii (l ++ [c]) = (string_of_list_ascii l ++ String c "")%string.
Proof. induction l as [|x l IH]; [done|]. simpl. by rewrite append_cons, IH. Qed.

Lemma concat_cons (a : string) l :
  String.concat "" (a :: l) = (a ++ String.concat "" l)%string.
Proof. destruct l; simpl; [by rewrite append_nil_r|done]. Qed.

Lemma writelines_readlines_from s :
  forall cur, PyStr.writelines (PyStr.readlines_from cur s)
              = (string_of_list_ascii (rev cur) ++ s)%string.
Proof.
  unfold PyStr.writelines. induction s as [|c s IH]; intros cur; simpl.
  - rewrite append_nil_r. by destruct cur.
  - destruct (Ascii.eqb c "010") eqn:Hc.
    + rewrite concat_cons, IH. simpl.
      by rewrite string_of_list_ascii_snoc, append_assoc.
    + rewrite IH. simpl. by rewrite string_of_list_ascii_snoc, append_assoc.
Qed.

Lemma join_cons_head sep c f fs :
  PyStr.join sep (String c f :: fs) = String c (PyStr.join sep (f :: fs)).
Proof. by destruct fs. Qed.

(** A split has at least one field. *)
Lemma split_length sep s : 1 <= length (PyStr.split sep s).
Proof.
  induction s as [|c s IH]; simpl; [lia|].
  destruct (Ascii.eqb c sep); simpl; [lia|].
  destruct (PyStr.split sep s); simpl in *; lia.
Qed.

End TextFacts.


(** X10: Joining the fields of a line with the separator it was split at gives
    the line (lines 190 and 195 with a blank, 211 and 215 with a tab): the
    split keeps empty fields, so nothing but the fields the script assigns
    changes between the stripped old line and the new one. *)
Theorem join_split sep s : PyStr.join (String sep "") (PyStr.split sep s) = s.
Proof.
  induction s as [|c s IH]; simpl; [done|].
  pose proof (TextFacts.split_length sep s) as Hlen.
  destruct (PyStr.split sep s) as [|f fs] eqn:Hs; [simpl in Hlen; lia|].
  destruct (Ascii.eqb c sep) eqn:Hc.
  - apply Ascii.eqb_eq in Hc as ->.
    change (PyStr.join (String sep "") ("" :: f :: fs))
      with (String sep (PyStr.join (String sep "") (f :: fs))).
    by rewrite IH.
  - rewrite TextFacts.join_cons_head. by rewrite IH.
Qed.

(** * When the rewriting returns *)

(** The loop over the lines returns when every turn does, and raises what
    the first failing turn raises. *)
Lemma enumerate_lines_outcome turn g :
  turn_spec turn g ->
  forall lines i (content : list string),
    i + length lines <= length content ->
    match enumerate_lines turn i lines content with
    | Ok out => forall k line, lines !! k = Some line -> exists o, g (i + k) line = Ok o
    | Raise e => exists k line, lines !! k = Some line /\ g (i + k) line = Raise e
    end.
Proof.
  intros Hturn lines. induction lines as [|line0 lines IH]; intros i content Hlen.
  { simpl. by intros k line. }
  simpl in *. rewrite (Hturn i line0 content) by lia.
  destruct (g i line0) as [o|e] eqn:Hg; simpl.
  - set (content' := match o with Some v => <[i:=v]> content | None => content end).
    assert (Hlen' : length content' = length content).
    { unfold content'. destruct o; [apply length_insert|done]. }
    specialize (IH (S i) content'). rewrite Hlen' in IH. specialize (IH ltac:(lia)).
    destruct (enumerate_lines turn (S i) lines content') as [out|e].
    + intros [|k] line Hk; simpl in Hk.
      * injection Hk as <-. rewrite Nat.add_0_r. eauto.
      * replace (i + S k) with (S i + k) by lia. by apply IH.
    + destruct IH as (k & line & Hk & Hr). exists (S k), line.
      replace (i + S k) with (S i + k) by lia. done.
  - exists 0, line0. by rewrite Nat.add_0_r.
Qed.

Lemma enumerate_lines_returns_iff turn g lines :
  turn_spec turn g ->
  (exists out, enumerate_lines turn 0 lines lines = Ok out) <->
  (forall i line, lines !! i = Some line -> exists o, g i line = Ok o).
Proof.
  intros Hturn.
  pose proof (enumerate_lines_outcome turn g Hturn lines 0 lines ltac:(simpl; lia)) as H.
  destruct (enumerate_lines turn 0 lines lines) as [out|e]; simpl in H.
  - split; [|eauto]. intros _ i line Hi. by apply (H i line).
  - split; [by intros [out ?]|]. intros Hall.
    destruct H as (k & line & Hk & Hr). destruct (Hall k line Hk) as [o Ho].
    simpl in Hr. congruence.
Qed.

Lemma enumerate_lines_raises turn g lines e :
  turn_spec turn g ->
  enumerate_lines turn 0 lines lines = Raise e ->
  exists i line, lines !! i = Some line /\ g i line = Raise e.
Proof.
  intros Hturn Hrun.
  pose proof (enumerate_lines_outcome turn g Hturn lines 0 lines ltac:(simpl; lia)) as H.
  rewrite Hrun in H. exact H.
Qed.

Lemma setitem_raise_inv (l : list string) i v e :
  PyStr.setitem l i v = Raise e -> e = "IndexError" /\ length l <= i.
Proof.
  unfold PyStr.setitem. destruct (i <? length l) eqn:Hi; [done|].
  apply Nat.ltb_ge in Hi. by intros [= <-].
Qed.

Section Outcomes.

Variable st : settings.

(** A turn of the [ae.dat] loop returns on a header line, and on a later
    line that has a row in [working_mat] and three fields between tabs;
    otherwise it raises [IndexError]. *)
Lemma ae_line_outcome working_mat i line :
  match ae_line st working_mat i line with
  | Ok _ =>
      ae_start_line st <= i ->
      is_Some (working_mat !! (i - ae_start_line st)) /\
      3 <= length (PyStr.split "009" (PyStr.strip line))
  | Raise e =>
      e = "IndexError" /\ ae_start_line st <= i /\
      (working_mat !! (i - ae_start_line st) = None \/
       length (PyStr.split "009" (PyStr.strip line)) < 3)
  end.
Proof.
  unfold ae_line. destruct (ae_start_line st <=? i) eqn:Hi.
  - apply Nat.leb_le in Hi.
    destruct (working_mat !! (i - ae_start_line st)) as [x|] eqn:Hx; [|by auto].
    set (fields := PyStr.split "009" (PyStr.strip line)).
    pose proof (TextFacts.split_length "009" (PyStr.strip line)) as Hlen. fold fields in Hlen.
    destruct (PyStr.setitem fields 0 _) as [l0|e] eqn:H0; simpl.
    2:{ apply setitem_raise_inv in H0 as [-> ?]. lia. }
    apply setitem_inv in H0 as [_ ->].
    destruct (PyStr.setitem _ 1 _) as [l1|e] eqn:H1; simpl.
    2:{ apply setitem_raise_inv in H1 as [-> H1]. rewrite length_insert in H1.
        split_and!; [done..|]. right. lia. }
    apply setitem_inv in H1 as [_ ->].
    destruct (PyStr.setitem _ 2 _) as [l2|e] eqn:H2; simpl.
    2:{ apply setitem_raise_inv in H2 as [-> H2]. rewrite !length_insert in H2.
        split_and!; [done..|]. right. lia. }
    apply setitem_inv in H2 as [H2 _]. rewrite !length_insert in H2.
    intros _. split; [eauto|lia].
  - apply Nat.leb_gt in Hi. intros ?. lia.
Qed.

(** A turn of the [.htc] loop returns on a line outside the twist
    sub-table, and on a line of the sub-table that has a twist in
    [htc_twist] and five fields; otherwise it raises [IndexError]. *)
Lemma htc_line_outcome htc_twist i line :
  match htc_line st htc_twist i line with
  | Ok _ =>
      in_twist_range st i = true ->
      is_Some (htc_twist !! (i - htc_start_line st)) /\
      5 <= length (htc_fields line)
  | Raise e =>
      e = "IndexError" /\ in_twist_range st i = true /\
      (htc_twist !! (i - htc_start_line st) = None \/ length (htc_fields line) < 5)
  end.
Proof.
  unfold htc_line. destruct (in_twist_range st i) eqn:Hi; [|done].
  destruct (htc_twist !! (i - htc_start_line st)) as [tw|] eqn:Htw; [|by auto].
  destruct (PyStr.setitem (htc_fields line) 4 _) as [l|e] eqn:H4; simpl.
  - apply setitem_inv in H4 as [H4 _]. intros _. split; [eauto|lia].
  - apply setitem_raise_inv in H4 as [-> H4]. split_and!; [done..|]. right. lia.
Qed.

End Outcomes.

(** X11: The rewriting of the new [ae.dat] file (lines 208-216) returns exactly
    when every line from [ae_start_line] on has a row in [working_mat] and,
    once stripped, at least three fields between tabs; otherwise it raises
    [IndexError], from [working_mat[i - ae_start_line, 0]] or from
    [line[1]] or [line[2]]. *)
Theorem ae_rewrite_returns_iff st working_mat lines :
  ((exists out, enumerate_lines (ae_turn st working_mat) 0 lines lines = Ok out) <->
   (forall i line, lines !! i = Some line -> ae_start_line st <= i ->
      is_Some (working_mat !! (i - ae_start_line st)) /\
      3 <= length (PyStr.split "009" (PyStr.strip line)))) /\
  (forall e, enumerate_lines (ae_turn st working_mat) 0 lines lines = Raise e ->
     e = "IndexError").
Proof.
  split.
  - rewrite (enumerate_lines_returns_iff _ _ lines (ae_turn_spec st working_mat)).
    split.
    + intros Hall i line Hi Hge. destruct (Hall i line Hi) as [o Ho].
      pose proof (ae_line_outcome st working_mat i line) as H.
      rewrite Ho in H. by apply H.
    + intros Hall i line Hi.
      pose proof (ae_line_outcome st working_mat i line) as H.
      destruct (ae_line st working_mat i line) as [o|e]; [eauto|].
      destruct H as (_ & Hge & Hbad). destruct (Hall i line Hi Hge) as [[x Hx] Hlen].
      destruct Hbad as [Hbad|Hbad]; [congruence|lia].
  - intros e Hrun.
    apply (enumerate_lines_raises _ _ lines e (ae_turn_spec st working_mat)) in Hrun
      as (i & line & _ & Hr).
    pose proof (ae_line_outcome st working_mat i line) as H. rewrite Hr in H.
    by destruct H.
Qed.

(** X12: The rewriting of the new [.htc] file (lines 185-196) returns exactly
    when every line of the twist sub-table has a twist in [htc_twist] and,
    once stripped, split at single blanks and relieved of its first empty
    field, at least five fields; otherwise it raises [IndexError], from
    [htc_twist[i - htc_start_line]] or from [line[4]]. *)
Theorem htc_rewrite_returns_iff st htc_twist lines :
  ((exists out, enumerate_lines (htc_turn st htc_twist) 0 lines lines = Ok out) <->
   (forall i line, lines !! i = Some line -> in_twist_range st i = true ->
      is_Some (htc_twist !! (i - htc_start_line st)) /\
      5 <= length (htc_fields line))) /\
  (forall e, enumerate_lines (htc_turn st htc_twist) 0 lines lines = Raise e ->
     e = "IndexError").
Proof.
  split.
  - rewrite (enumerate_lines_returns_iff _ _ lines (htc_turn_spec st htc_twist)).
    split.
    + intros Hall i line Hi Hin. destruct (Hall i line Hi) as [o Ho].
      pose proof (htc_line_outcome st htc_twist i line) as H.
      rewrite Ho in H. by apply H.
    + intros Hall i line Hi.
      pose proof (htc_line_outcome st htc_twist i line) as H.
      destruct (htc_line st htc_twist i line) as [o|e]; [eauto|].
      destruct H as (_ & Hin & Hbad). destruct (Hall i line Hi Hin) as [[x Hx] Hlen].
      destruct Hbad as [Hbad|Hbad]; [congruence|lia].
  - intros e Hrun.
    apply (enumerate_lines_raises _ _ lines e (htc_turn_spec st htc_twist)) in Hrun
      as (i & line & _ & Hr).
    pose proof (htc_line_outcome st htc_twist i line) as H. rewrite Hr in H.
    by destruct H.
Qed.

(** [np.loadtxt] returns fewer rows than lines when a line has no column. *)
Lemma loadtxt_rows_skips lines :
  forall rows, NumPyIO.loadtxt_rows lines = Ok rows ->
    (exists line, line ∈ lines /\ NumPyIO.columns "#" line = []) ->
    length rows < length lines.
Proof.
  induction lines as [|line0 lines IH]; intros rows H (line & Hin & Hcols).
  { by apply elem_of_nil in Hin. }
  simpl in H.
  destruct (NumPyIO.columns "#" line0) as [|c0 [|c1 [|c2 cs]]] eqn:Hc0; try done.
  - apply loadtxt_rows_length in H. simpl. lia.
  - destruct (FloatText.float_of_str c0), (FloatText.float_of_str c1),
      (FloatText.float_of_str c2); try done.
    destruct (NumPyIO.loadtxt_rows lines) as [rows'|] eqn:Hrows; [|done].
    injection H as <-. simpl. apply -> Nat.succ_lt_mono. apply IH; [done|].
    apply elem_of_cons in Hin as [->|Hin]; [congruence|]. by exists line.
Qed.

(** X13: The reader passes over the lines of the [ae.dat] file that hold no
    column (blank lines and lines that are a [#] comment), but the writer
    counts them: when such a line follows the two header lines, the rows that
    [np.loadtxt] returned do not reach the last line, and the rewriting of
    the new [ae.dat] file raises [IndexError]. *)
Theorem blank_line_breaks_ae_rewrite st text ae_data (working_mat : list row) :
  ae_start_line st = 2 ->
  NumPyIO.loadtxt 2 text = Ok ae_data ->
  length working_mat = length ae_data ->
  (exists line, line ∈ drop 2 (PyStr.readlines text) /\ NumPyIO.columns "#" line = []) ->
  enumerate_lines (ae_turn st working_mat) 0 (PyStr.readlines text) (PyStr.readlines text)
  = Raise "IndexError".
Proof.
  intros Hstart Hload Hrows Hblank. unfold NumPyIO.loadtxt in Hload.
  set (lines := PyStr.readlines text) in *.
  pose proof (loadtxt_rows_skips _ _ Hload Hblank) as Hlt. rewrite length_drop in Hlt.
  destruct (enumerate_lines (ae_turn st working_mat) 0 lines lines) as [out|e] eqn:Hrun.
  - exfalso.
    destruct (lookup_lt_is_Some_2 lines (length lines - 1)) as [line Hline]; [lia|].
    destruct (proj1 (enumerate_lines_returns_iff _ _ lines (ae_turn_spec st working_mat))
                (ex_intro _ out Hrun) (length lines - 1) line Hline) as [o Ho].
    pose proof (ae_line_outcome st working_mat (length lines - 1) line) as H.
    rewrite Ho in H. destruct H as [[x Hx] _]; [lia|].
    apply lookup_lt_Some in Hx. lia.
  - f_equal.
    apply (enumerate_lines_raises _ _ lines e (ae_turn_spec st working_mat)) in Hrun
      as (i & line & _ & Hr).
    pose proof (ae_line_outcome st working_mat i line) as H. rewrite Hr in H.
    by destruct H.
Qed.

(** Witness: the [ae.dat] file of the small blade with a blank line after
    its second row. *)
Definition ae_text_blank : string :=
  "1 r [m] Chord[m] T/C[%] Set no." ++ nl ++
  "1 3" ++ nl ++
  "0.0" ++ tab ++ "5.38" ++ tab ++ "100.0" ++ tab ++ "1" ++ tab ++ ";" ++ nl ++
  "50.0" ++ tab ++ "4.0" ++ tab ++ "50.0" ++ tab ++ "1" ++ tab ++ ";" ++ nl ++
  nl ++
  "100.0" ++ tab ++ "3.0" ++ tab ++ "24.1" ++ tab ++ "1" ++ tab ++ ";" ++ nl.

Lemma blank_line_breaks_ae_rewrite_witness :
  let wm := [Row 0 (-14.5) 5.38 100; Row 50 (-8) 4 50; Row 100 (-3) 3 24.1]%float in
  NumPyIO.loadtxt 2 ae_text_blank = Ok [(0, 5.38, 100); (50, 4, 50); (100, 3, 24.1)]%float /\
  enumerate_lines (ae_turn Example.st wm) 0
    (PyStr.readlines ae_text_blank) (PyStr.readlines ae_text_blank)
  = Raise "IndexError".
Proof.
  intros wm.
  assert (Hload : NumPyIO.loadtxt 2 ae_text_blank
                  = Ok [(0, 5.38, 100); (50, 4, 50); (100, 3, 24.1)]%float)
    by (vm_compute; reflexivity).
  split; [exact Hload|].
  apply (blank_line_breaks_ae_rewrite Example.st ae_text_blank _ wm eq_refl Hload eq_refl).
  exists nl. split; [|reflexivity].
  vm_compute. do 2 apply list_elem_of_further. apply list_elem_of_here.
Defined.

(** A file is rewritten or left as it was. *)
Lemma rewrite_file_raise path turn d d' e :
  rewrite_file path turn d = (d', Raise e) -> d' = d.
Proof.
  unfold rewrite_file, bind, read_text_rw, read_text, lift, write_text.
  destruct (files d !! path) as [text|] eqn:Htext; [|by intros [= <- _]].
  case_decide; [by intros [= <- _]|]. rewrite Htext.
  destruct (enumerate_lines turn 0 _ _); [|by intros [= <- _]].
  case_decide; [by intros [= <- _]|done].
Qed.

(** X14: The two new files are rewritten one after the other, each in one write
    (lines 199-200 and 219-220).  When the writing step raises, the new
    [ae.dat] file is still what it was, the copy of the original; the new
    [.htc] file is either as it was, or rewritten already with the new
    twists, when it is the rewriting of the [ae.dat] file that raised. *)
Theorem write_failure_keeps_ae_copy st rows htc_twist w w' e :
  new_htc_filename st <> new_ae_filename st ->
  write_files st rows htc_twist w = (w', Raise e) ->
  files (disk w') !! new_ae_filename st = files (disk w) !! new_ae_filename st /\
  (disk w' = disk w \/
   exists text out,
     files (disk w) !! new_htc_filename st = Some text /\
     enumerate_lines (htc_turn st htc_twist) 0 (PyStr.readlines text) (PyStr.readlines text)
     = Ok out /\
     disk w' = FS (<[new_htc_filename st := PyStr.writelines out]> (files (disk w)))
                 (locked (disk w))).
Proof.
  intros Hne. unfold write_files, bind.
  destruct (on_disk (rewrite_file (new_htc_filename st) (htc_turn st htc_twist)) w)
    as [w1 [[]|e1]] eqn:H1.
  - apply on_disk_inv in H1 as [_ H1].
    apply rewrite_file_inv in H1 as (text & out & Htext & Hrun & Hd1).
    destruct (on_disk (rewrite_file (new_ae_filename st) (ae_turn st rows)) w1)
      as [w2 r2] eqn:H2.
    intros [= -> ->]. apply on_disk_inv in H2 as [_ H2].
    apply rewrite_file_raise in H2. rewrite H2, Hd1. simpl.
    split; [by apply lookup_insert_ne|]. right. by exists text, out.
  - intros [= <- <-]. apply on_disk_inv in H1 as [_ H1].
    apply rewrite_file_raise in H1. rewrite H1. split; [done|]. by left.
Qed.

(** The new files of the small blade after the copy step, the [ae.dat] copy
    with a blank line. *)
Definition w_copied_blank : world :=
  World ∅ (FS {[ new_htc_filename Example.st := Example.htc_text;
                 new_ae_filename Example.st := ae_text_blank ]} ∅).

(** Witness: the [.htc] file is rewritten, then the rewriting of the
    [ae.dat] file raises. *)
Lemma write_failure_keeps_ae_copy_witness :
  let rows := [Row 0 (-14.5) 5.38 100; Row 50 (-8) 4 50; Row 100 (-3) 3 24.1]%float in
  let htc_twist := [-14.5; -8; -3]%float in
  exists w' e,
    write_files Example.st rows htc_twist w_copied_blank = (w', Raise e) /\
    files (disk w') !! new_ae_filename Example.st = Some ae_text_blank /\
    files (disk w') !! new_htc_filename Example.st <> Some Example.htc_text.
Proof.
  intros rows htc_twist.
  destruct (write_files Example.st rows htc_twist w_copied_blank) as [w' r] eqn:Hrun.
  assert (Hr : exists e, r = Raise e).
  { vm_compute in Hrun. injection Hrun as _ <-. eauto. }
  destruct Hr as [e ->]. exists w', e. split; [done|].
  assert (Hne : new_htc_filename Example.st <> new_ae_filename Example.st)
    by (vm_compute; discriminate).
  destruct (write_failure_keeps_ae_copy Example.st rows htc_twist w_copied_blank w' e
              Hne Hrun) as [Hae _].
  split; [by rewrite Hae|].
  vm_compute in Hrun. injection Hrun as <- _. vm_compute. discriminate.
Defined.

(** * A run that returns *)

Lemma get_htc_twist_ok_inv twist_radii working_mat (h h' : heap) m v :
  h !! working_mat = Some m ->
  get_htc_twist twist_radii working_mat h = (h', Ok v) ->
  NumPy.interp twist_radii (radius <$> m) (twist <$> m) = Ok v.
Proof.
  intros Hw. unfold get_htc_twist, bind, col_get. rewrite Hw. simpl. rewrite Hw. simpl.
  change (get_col C0 <$> m) with (radius <$> m).
  change (get_col C1 <$> m) with (twist <$> m).
  destruct (NumPy.interp _ _ _) as [v'|e]; [|done]. by intros [= _ <-].
Qed.

Section Returns.

Variable cos : float -> float.
Variable p : params.
Variable st : settings.

(** What [prepare] hands to the writer when it returns: the rows that the
    modifier stack makes of the geometry read from the two files, and their
    twists resampled at the radii of the twist sub-table. *)
Lemma prepare_ok_inv w w1 rows htc_twist :
  prepare cos p st w = (w1, Ok (rows, htc_twist)) ->
  exists ae_text htc_text ae_data twist_table tw xn,
    files (disk w) !! ae_file_pathname st = Some ae_text /\
    files (disk w) !! htc_file_pathname st = Some htc_text /\
    NumPyIO.loadtxt 2 ae_text = Ok ae_data /\
    NumPyIO.genfromtxt (htc_start_line st) (max_rows st) htc_text = Ok twist_table /\
    NumPy.interp ((fun r => r.1.1) <$> ae_data) (fst <$> twist_table) (snd <$> twist_table) = Ok tw /\
    length tw = length ae_data /\
    last (geo_rows ae_data tw) = Some xn /\
    rows = imap (fun i x => design_row cos p i (radius x / radius xn)%float x)
             (geo_rows ae_data tw) /\
    NumPy.interp (fst <$> twist_table) (radius <$> rows) (twist <$> rows) = Ok htc_twist.
Proof.
  unfold prepare. intros H.
  apply bind_ok_inv in H as (wa & ae_text & Ha & H).
  apply on_disk_read_inv in Ha as [-> Hae].
  apply bind_ok_inv in H as (wb & ae_data & Hb & H). apply lift_inv in Hb as [-> Hload].
  apply bind_ok_inv in H as (wc & [] & Hc & H). apply lift_inv in Hc as [-> _].
  apply bind_ok_inv in H as (wd & htc_text & Hd & H).
  apply on_disk_read_inv in Hd as [-> Hhtc].
  apply bind_ok_inv in H as (we & twist_table & He & H). apply lift_inv in He as [-> Hgen].
  apply bind_ok_inv in H as (wf & [] & Hf & H). apply lift_inv in Hf as [-> Htwo].
  symmetry in Htwo. apply two_dimensional_inv in Htwo.
  apply bind_ok_inv in H as (wg & geo & Hg & H). apply on_arrays_inv in Hg as [_ Hg].
  destruct (build_geo_mat_returns ae_data twist_table (arrays w) Htwo) as (tw & Hint & Hlen & Hgeo).
  rewrite Hgeo in Hg. injection Hg as Hg <-.
  apply bind_ok_inv in H as (wh & wm & Hh & H). apply on_arrays_inv in Hh as [_ Hh].
  apply (change_design_ok_inv cos p _ _ _ (geo_rows ae_data tw)) in Hh
    as (xn & Hlast & _ & -> & Hh); [|rewrite <- Hg; apply lookup_insert_eq].
  apply bind_ok_inv in H as (wi & [] & Hi & H). apply on_disk_inv in Hi as [Hi _].
  apply bind_ok_inv in H as (wj & htw & Hj & H). apply on_arrays_inv in Hj as [_ Hj].
  pose proof (get_htc_twist_heap _ _ _ _ _ Hj) as Hj'.
  apply bind_ok_inv in H as (wk & rows' & Hk & H). apply on_arrays_inv in Hk as [_ Hk].
  injection H as _ <- <-. injection Hk as _ Hk.
  rewrite Hj', Hi, Hh, lookup_insert_eq in Hk. injection Hk as <-.
  rewrite Hi, Hh in Hj.
  apply (get_htc_twist_ok_inv _ _ _ _ _ _ (lookup_insert_eq _ _ _)) in Hj.
  exists ae_text, htc_text, ae_data, twist_table, tw, xn. split_and!; try done; by symmetry.
Qed.

End Returns.

(** [out] is the content the script makes of the lines of the [ae.dat]
    file with the rows of [working_mat]: the lines before [ae_start_line]
    are kept; every later line is stripped and split at tabs, its first three
    fields are replaced by [str] of the radius, the chord and the relative
    thickness of its section, and the fields are joined by tabs and ended by
    a newline. *)
Definition ae_written (st : settings) (working_mat : list row)
    (lines out : list string) : Prop :=
  length out = length lines /\
  forall i line, lines !! i = Some line ->
    (i < ae_start_line st -> out !! i = Some line) /\
    (ae_start_line st <= i ->
     exists x f0 f1 f2 rest,
       working_mat !! (i - ae_start_line st) = Some x /\
       PyStr.split "009" (PyStr.strip line) = f0 :: f1 :: f2 :: rest /\
       out !! i = Some (PyStr.join tab (FloatText.str (radius x) :: FloatText.str (chord x) ::
                                         FloatText.str (rel_thickness x) :: rest) ++ nl)%string).

(** [out] is the content the script makes of the lines of the [.htc] file
    with the twists [htc_twist]: outside the twist sub-table a line is kept,
    unless it contains [ae_filename], and then it is replaced by the
    reference to the new [ae.dat] file; line [i] of the sub-table is replaced
    by two tabs and its fields joined by single blanks, the fifth field being
    [str] of [htc_twist[i - htc_start_line]] followed by [;] and a
    newline. *)
Definition htc_written (st : settings) (htc_twist : list float)
    (lines out : list string) : Prop :=
  length out = length lines /\
  forall i line, lines !! i = Some line ->
    (in_twist_range st i = false -> PyStr.contains "ae_filename" line = false ->
     out !! i = Some line) /\
    (in_twist_range st i = false -> PyStr.contains "ae_filename" line = true ->
     out !! i = Some (reference_line st)) /\
    (in_twist_range st i = true ->
     exists tw, htc_twist !! (i - htc_start_line st) = Some tw /\
       4 < length (htc_fields line) /\
       out !! i = Some (tab ++ tab ++ PyStr.join " "
                          (<[4 := (FloatText.str tw ++ ";" ++ nl)%string]>
                             (htc_fields line)))%string).

Lemma ae_written_intro st working_mat lines out :
  enumerate_lines (ae_turn st working_mat) 0 lines lines = Ok out ->
  ae_written st working_mat lines out.
Proof.
  intros Hrun.
  destruct (enumerate_lines_spec _ _ (ae_turn_spec st working_mat) lines 0 lines out)
    as (Hlen & _ & Hin); [simpl; lia|done|].
  split; [done|]. intros i line Hi.
  destruct (Hin i line Hi) as (o & Hg & Ho).
  change (0 + i) with i in Hg, Ho. rewrite Hi in Ho.
  apply ae_line_ok in Hg
    as [[Hlt ->]|(Hge & x & f0 & f1 & f2 & rest & Hx & Hsplit & ->)].
  - split; [done|]. lia.
  - split; [lia|]. intros _. by exists x, f0, f1, f2, rest.
Qed.

Lemma htc_written_intro st htc_twist lines out :
  enumerate_lines (htc_turn st htc_twist) 0 lines lines = Ok out ->
  htc_written st htc_twist lines out.
Proof.
  intros Hrun.
  destruct (enumerate_lines_spec _ _ (htc_turn_spec st htc_twist) lines 0 lines out)
    as (Hlen & _ & Hin); [simpl; lia|done|].
  split; [done|]. intros i line Hi.
  destruct (Hin i line Hi) as (o & Hg & Ho).
  change (0 + i) with i in Hg, Ho. rewrite Hi in Ho.
  unfold htc_line in Hg. split_and!.
  - intros Hr Hc. rewrite Hr, Hc in Hg. injection Hg as <-. done.
  - intros Hr Hc. rewrite Hr, Hc in Hg. injection Hg as <-. done.
  - intros Hr. rewrite Hr in Hg.
    destruct (htc_twist !! _) as [tw|] eqn:Htw; [|done].
    destruct (PyStr.setitem _ 4 _) as [fields|e] eqn:Hset; [|done].
    injection Hg as <-. apply setitem_inv in Hset as [Hlen4 ->].
    by exists tw.
Qed.

(** The state [w'] after a run from [w]: both originals were read, the
    [ae.dat] file as [ae_data] by [np.loadtxt] and the twist sub-table as
    [twist_table] by [np.genfromtxt]; [working_mat] is, row by row, what the
    modifier stack makes of the geometry read, its twists resampled for the
    sub-table are [htc_twist], and the two new files hold the lines of the
    originals with these numbers in their fields. *)
Definition changed_design_written (cos : float -> float) (p : params) (st : settings)
    (w w' : world) : Prop :=
  exists ae_text htc_text ae_data twist_table tw xn working_mat htc_twist ae_out htc_out,
    files (disk w) !! ae_file_pathname st = Some ae_text /\
    files (disk w) !! htc_file_pathname st = Some htc_text /\
    NumPyIO.loadtxt 2 ae_text = Ok ae_data /\
    NumPyIO.genfromtxt (htc_start_line st) (max_rows st) htc_text = Ok twist_table /\
    NumPy.interp ((fun r => r.1.1) <$> ae_data) (fst <$> twist_table) (snd <$> twist_table)
    = Ok tw /\
    last (geo_rows ae_data tw) = Some xn /\
    working_mat = imap (fun i x => design_row cos p i (radius x / radius xn)%float x)
                    (geo_rows ae_data tw) /\
    NumPy.interp (fst <$> twist_table) (radius <$> working_mat) (twist <$> working_mat)
    = Ok htc_twist /\
    files (disk w') !! new_ae_filename st = Some (PyStr.writelines ae_out) /\
    files (disk w') !! new_htc_filename st = Some (PyStr.writelines htc_out) /\
    ae_written st working_mat (PyStr.readlines ae_text) ae_out /\
    htc_written st htc_twist (PyStr.readlines htc_text) htc_out /\
    (ae_start_line st = 2 -> length ae_data = length (PyStr.readlines ae_text) - 2).

(** X15: A run that returns (lines 32-220), with any modifiers enabled, has read
    both originals, made [working_mat] row by row from the geometry it read,
    resampled its twists at the radii of the twist sub-table, and left in the
    two new files the lines of the originals with [str] of the radius, chord
    and relative thickness of each section, and of the resampled twists, in
    their fields.  Every line of the [ae.dat] file after its two header
    lines was read as a section. *)
Theorem run_writes_changed_design (cos : float -> float) p st w w' :
  plot_filename st <> ae_file_pathname st ->
  plot_filename st <> htc_file_pathname st ->
  new_htc_filename st <> ae_file_pathname st ->
  new_htc_filename st <> new_ae_filename st ->
  main cos p st w = (w', Ok tt) ->
  changed_design_written cos p st w w'.
Proof.
  intros Hpa Hph Hha Hhn Hmain. unfold main in Hmain.
  apply bind_ok_inv in Hmain as (w1 & [rows htc_twist] & Hprep & Hmain).
  apply bind_ok_inv in Hmain as (w2 & [] & Hcopy & Hwrite). simpl in Hwrite.
  destruct (prepare_ok_inv cos p st w w1 rows htc_twist Hprep)
    as (ae_text & htc_text & ae_data & twist_table & tw & xn
        & Hae & Hhtc & Hload & Hgen & Hint & Htw & Hlast & Hrows & Hint2).
  pose proof (prepare_disk cos p st w w1 _ Hprep) as Hd1.
  unfold copy_originals, try_except in Hcopy.
  destruct (on_disk _ w1) as [w2' [[]|e]] eqn:Hbody; [|done].
  injection Hcopy as ->.
  apply on_disk_inv in Hbody as [_ Hbody].
  apply bind_ok_inv in Hbody as (da & [] & Hc1 & Hc2).
  apply shutil_copy_inv in Hc1 as [(s1 & _ & Hs1 & ->)|(? & ? & _)]; [|done].
  apply shutil_copy_inv in Hc2 as [(s2 & _ & Hs2 & Hd2)|(? & ? & _)]; [|done].
  simpl in Hs2, Hd2.
  rewrite Hd1 in Hs1. simpl in Hs1.
  rewrite lookup_insert_ne, Hhtc in Hs1 by done. injection Hs1 as <-.
  rewrite lookup_insert_ne in Hs2 by done.
  rewrite Hd1 in Hs2. simpl in Hs2.
  rewrite lookup_insert_ne, Hae in Hs2 by done. injection Hs2 as <-.
  unfold write_files in Hwrite.
  apply bind_ok_inv in Hwrite as (w3 & [] & Hw1 & Hw2).
  apply on_disk_inv in Hw1 as [_ Hw1]. apply on_disk_inv in Hw2 as [_ Hw2].
  apply rewrite_file_inv in Hw1 as (text1 & htc_out & Ht1 & Hrun1 & Hd3).
  apply rewrite_file_inv in Hw2 as (text2 & ae_out & Ht2 & Hrun2 & Hd4).
  rewrite Hd2 in Ht1. simpl in Ht1.
  rewrite lookup_insert_ne, lookup_insert_eq in Ht1 by done. injection Ht1 as <-.
  rewrite Hd3 in Ht2. simpl in Ht2.
  rewrite lookup_insert_ne in Ht2 by done.
  rewrite Hd2 in Ht2. simpl in Ht2. rewrite lookup_insert_eq in Ht2. injection Ht2 as <-.
  pose proof (ae_written_intro st rows _ _ Hrun2) as Hwritten.
  exists ae_text, htc_text, ae_data, twist_table, tw, xn, rows, htc_twist, ae_out, htc_out.
  split_and!; try done.
  - rewrite Hd4. simpl. apply lookup_insert_eq.
  - rewrite Hd4. simpl. rewrite lookup_insert_ne by done.
    rewrite Hd3. simpl. apply lookup_insert_eq.
  - by eapply htc_written_intro.
  - intros Hstart. unfold NumPyIO.loadtxt in Hload.
    pose proof (loadtxt_rows_length _ _ Hload) as Hle. rewrite length_drop in Hle.
    set (lines := PyStr.readlines ae_text) in *.
    destruct (decide (length lines <= 2)) as [|Hgt]; [lia|].
    destruct (lookup_lt_is_Some_2 lines (length lines - 1)) as [line Hline]; [lia|].
    destruct Hwritten as [_ Hw]. destruct (Hw _ line Hline) as [_ Hx].
    destruct Hx as (x & _ & _ & _ & _ & Hx & _); [lia|].
    apply lookup_lt_Some in Hx. rewrite Hrows, length_imap in Hx.
    unfold geo_rows in Hx. rewrite length_zip_with in Hx. lia.
Qed.

(** Witness: the small blade with the linear root chord shift and the
    manual-profile twist. *)
Lemma run_writes_changed_design_witness :
  exists w',
    main cos_unused root_shift_and_manual_twist Example.st Example.w0 = (w', Ok tt) /\
    changed_design_written cos_unused root_shift_and_manual_twist Example.st Example.w0 w'.
Proof.
  destruct (main cos_unused root_shift_and_manual_twist Example.st Example.w0)
    as [w' r] eqn:Hmain.
  assert (Hr : r = Ok tt) by (vm_compute in Hmain; by injection Hmain as _ <-).
  subst r.
  assert (H1 : plot_filename Example.st <> ae_file_pathname Example.st)
    by (vm_compute; discriminate).
  assert (H2 : plot_filename Example.st <> htc_file_pathname Example.st)
    by (vm_compute; discriminate).
  assert (H3 : new_htc_filename Example.st <> ae_file_pathname Example.st)
    by (vm_compute; discriminate).
  assert (H4 : new_htc_filename Example.st <> new_ae_filename Example.st)
    by (vm_compute; discriminate).
  exists w'. split; [reflexivity|].
  exact (run_writes_changed_design cos_unused root_shift_and_manual_twist _ _ w'
           H1 H2 H3 H4 Hmain).
Defined.

(** The files the run of the witness writes: the chords of the two root
    sections are shifted by [r/R - 1], their twists by -64 times the
    weights 1 and 0.5, and the sub-table carries the new twists. *)
Example changed_design_files :
  let w' := (main cos_unused root_shift_and_manual_twist Example.st Example.w0).1 in
  files (disk w') !! new_ae_filename Example.st
  = Some ("1 r [m] Chord[m] T/C[%] Set no." ++ nl ++
          "1 3" ++ nl ++
          "0.0" ++ tab ++ "4.38" ++ tab ++ "100.0" ++ tab ++ "1" ++ tab ++ ";" ++ nl ++
          "50.0" ++ tab ++ "3.5" ++ tab ++ "50.0" ++ tab ++ "1" ++ tab ++ ";" ++ nl ++
          "100.0" ++ tab ++ "3.0" ++ tab ++ "24.1" ++ tab ++ "1" ++ tab ++ ";" ++ nl)%string /\
  files (disk w') !! new_htc_filename Example.st
  = Some ("begin c2_def;" ++ nl ++
          tab ++ "ae_filename ./data/WDR_ae.dat;" ++ nl ++
          tab ++ tab ++ "sec" ++ tab ++ "1 0.0 0.0 0.0 -78.5;" ++ nl ++
          tab ++ tab ++ "sec" ++ tab ++ "2 0.0 0.0 50.0 -40.0;" ++ nl ++
          tab ++ tab ++ "sec" ++ tab ++ "3 0.0 0.0 100.0 -3.0;" ++ nl ++
          "end c2_def;" ++ nl)%string.
Proof. split; vm_compute; reflexivity. Qed.

Lemma bind_raise_inv {S A B} (m : ST S A) (k : A -> ST S B) s s' e :
  bind m k s = (s', Raise e) ->
  m s = (s', Raise e) \/ exists s1 a, m s = (s1, Ok a) /\ k a s1 = (s', Raise e).
Proof.
  unfold bind. destruct (m s) as [s1 [a|e1]]; intros H.
  - right. exists s1, a. split; [reflexivity|exact H].
  - left. by injection H as -> ->.
Qed.

Lemma on_disk_read_raise path w w' e :
  on_disk (read_text path) w = (w', Raise e) -> w' = w.
Proof.
  destruct w as [h d]. unfold on_disk, read_text. simpl.
  destruct (files d !! path); [done|]. by intros [= <-].
Qed.

(** After a design change that returned, the resampling of the twists
    returns. *)
Lemma get_htc_twist_returns twist_radii working_mat (h : heap) m :
  h !! working_mat = Some m -> m <> [] ->
  exists v, get_htc_twist twist_radii working_mat h = (h, Ok v).
Proof.
  intros Hw Hne. unfold get_htc_twist, bind, col_get. rewrite Hw. simpl. rewrite Hw. simpl.
  destruct (NumPyFacts.interp_ok twist_radii (get_col C0 <$> m) (get_col C1 <$> m))
    as (v & -> & _); [by destruct m|by rewrite !length_fmap|]. eauto.
Qed.

(** X16: A run that fails before the copy step has written nothing (lines
    32-164): whatever [prepare] raises, for a missing or malformed original,
    a table of fewer than two rows or a missing manual weight, the disk is
    what it was, the plot included; once the plot is saved, nothing before
    the copy step can fail. *)
Theorem failed_preparation_writes_nothing (cos : float -> float) p st w w' e :
  prepare cos p st w = (w', Raise e) -> disk w' = disk w.
Proof.
  unfold prepare. intros H.
  apply bind_raise_inv in H as [H|(wa & ae_text & Ha & H)].
  { by apply on_disk_read_raise in H as ->. }
  apply on_disk_read_inv in Ha as [-> _].
  apply bind_raise_inv in H as [H|(wb & ae_data & Hb & H)].
  { by apply lift_inv in H as [-> _]. }
  apply lift_inv in Hb as [-> _].
  apply bind_raise_inv in H as [H|(wc & [] & Hc & H)].
  { by apply lift_inv in H as [-> _]. }
  apply lift_inv in Hc as [-> Hae2].
  apply bind_raise_inv in H as [H|(wd & htc_text & Hd & H)].
  { by apply on_disk_read_raise in H as ->. }
  apply on_disk_read_inv in Hd as [-> _].
  apply bind_raise_inv in H as [H|(we & twist_table & He & H)].
  { by apply lift_inv in H as [-> _]. }
  apply lift_inv in He as [-> _].
  apply bind_raise_inv in H as [H|(wf & [] & Hf & H)].
  { by apply lift_inv in H as [-> _]. }
  apply lift_inv in Hf as [-> Htwo]. symmetry in Htwo.
  apply two_dimensional_inv in Htwo.
  apply bind_raise_inv in H as [H|(wg & geo & Hg & H)].
  { by apply on_arrays_inv in H as [-> _]. }
  apply on_arrays_inv in Hg as [Hdg Hg].
  destruct (build_geo_mat_returns ae_data twist_table (arrays w) Htwo)
    as (tw & _ & Hlen & Hgeo).
  rewrite Hgeo in Hg. injection Hg as Hg <-.
  apply bind_raise_inv in H as [H|(wh & wm & Hh & H)].
  { apply on_arrays_inv in H as [-> _]. done. }
  apply on_arrays_inv in Hh as [Hdh Hh].
  apply (change_design_ok_inv cos p _ _ _ (geo_rows ae_data tw)) in Hh
    as (xn & Hlast & _ & -> & Hh); [|rewrite <- Hg; apply lookup_insert_eq].
  apply bind_raise_inv in H as [H|(wi & [] & Hi & H)].
  { apply on_disk_inv in H as [_ H].
    apply write_text_inv in H as [[? _]|[_ ->]]; [done|]. congruence. }
  exfalso.
  apply on_disk_inv in Hi as [Hai _].
  apply bind_raise_inv in H as [H|(wj & htw & Hj & H)].
  - apply on_arrays_inv in H as [_ H]. rewrite Hai, Hh in H.
    edestruct (get_htc_twist_returns (fst <$> twist_table)) as [v Hv];
      [apply lookup_insert_eq| |rewrite Hv in H; done].
    intros Hnil. apply (f_equal length) in Hnil. rewrite length_imap in Hnil.
    apply last_Some in Hlast as [l' Hl']. rewrite Hl', length_app in Hnil.
    simpl in Hnil. lia.
  - apply on_arrays_inv in Hj as [_ Hj]. apply get_htc_twist_heap in Hj.
    apply bind_raise_inv in H as [H|(wk & rows & Hk & H)]; [|done].
    apply on_arrays_inv in H as [_ H]. rewrite Hj, Hai, Hh, lookup_insert_eq in H.
    done.
Qed.

(** Witness: the manual-profile twist with two weights selects three of the
    four sections of a blade; the run raises before anything is written. *)
Definition four_sections_text : string :=
  "1 r [m] Chord[m] T/C[%] Set no." ++ nl ++
  "1 4" ++ nl ++
  "0.0" ++ tab ++ "5.38" ++ tab ++ "100.0" ++ tab ++ "1" ++ tab ++ ";" ++ nl ++
  "25.0" ++ tab ++ "5.0" ++ tab ++ "80.0" ++ tab ++ "1" ++ tab ++ ";" ++ nl ++
  "50.0" ++ tab ++ "4.0" ++ tab ++ "50.0" ++ tab ++ "1" ++ tab ++ ";" ++ nl ++
  "100.0" ++ tab ++ "3.0" ++ tab ++ "24.1" ++ tab ++ "1" ++ tab ++ ";" ++ nl.

Definition w_four_sections : world :=
  World ∅ (FS {[ "data/ref_ae.dat" := four_sections_text;
                 "ref.htc" := Example.htc_text ]} ∅).

Lemma failed_preparation_writes_nothing_witness :
  exists w',
    prepare cos_unused root_shift_and_manual_twist Example.st w_four_sections
    = (w', Raise "IndexError") /\
    disk w' = disk w_four_sections.
Proof.
  destruct (prepare cos_unused root_shift_and_manual_twist Example.st w_four_sections)
    as [w' r] eqn:Hrun.
  assert (Hr : r = Raise "IndexError") by (vm_compute in Hrun; by injection Hrun as _ <-).
  subst r. exists w'. split; [reflexivity|].
  exact (failed_preparation_writes_nothing cos_unused root_shift_and_manual_twist
           _ _ w' "IndexError" Hrun).
Defined.

(** * The characters of the texts the script writes *)

Module CharFacts.
Import TextFacts.

(** Every character of [s] satisfies [P]. *)
Fixpoint all_chars (P : ascii -> bool) (s : string) : bool :=
  match s with
  | "" => true
  | String c s' => P c && all_chars P s'
  end.

(** The characters of Python's [repr] of a float. *)
Definition number_char (c : ascii) : bool :=
  FloatText.is_digit c ||
  existsb (Ascii.eqb c) ["."; "e"; "+"; "-"; "n"; "a"; "i"; "f"]%char.

Definition not_char (x : ascii) (c : ascii) : bool := negb (Ascii.eqb c x).

Definition not_space (c : ascii) : bool := negb (PyStr.isspace c).

(** No newline. *)
Definition no_nl (s : string) : Prop := all_chars (not_char "010") s = true.

Lemma all_chars_app P a b :
  all_chars P (a ++ b)%string = all_chars P a && all_chars P b.
Proof.
  induction a as [|c a IH]; [done|].
  rewrite append_cons. simpl. by rewrite IH, andb_assoc.
Qed.

Lemma all_chars_mono (P Q : ascii -> bool) s :
  (forall c, P c = true -> Q c = true) -> all_chars P s = true -> all_chars Q s = true.
Proof.
  intros HPQ. induction s as [|c s IH]; [done|]. simpl.
  intros [Hc Hs]%andb_prop. by rewrite (HPQ c Hc), IH.
Qed.

Lemma all_chars_substring P s :
  forall n m, all_chars P s = true -> all_chars P (substring n m s) = true.
Proof.
  induction s as [|c s IH]; intros n m H.
  - by destruct n, m.
  - simpl in H. apply andb_prop in H as [Hc Hs].
    destruct n as [|n]; simpl.
    + destruct m as [|m]; [done|]. simpl. by rewrite Hc, IH.
    + by apply IH.
Qed.

Lemma all_chars_zeros n : all_chars FloatText.is_digit (FloatText.zeros n) = true.
Proof. induction n as [|n IH]; [done|]. simpl. by rewrite IH. Qed.

Lemma all_chars_rstrip_zeros P s :
  all_chars P s = true -> all_chars P (FloatText.rstrip_zeros s) = true.
Proof.
  induction s as [|c s IH]; [done|]. simpl. intros [Hc Hs]%andb_prop.
  destruct (_ && _)%bool; [done|]. simpl. by rewrite Hc, IH.
Qed.

Lemma all_chars_uint u : all_chars FloatText.is_digit (NilEmpty.string_of_uint u) = true.
Proof. induction u; simpl; try done. Qed.

Lemma all_chars_digits_of z : all_chars FloatText.is_digit (FloatText.digits_of z) = true.
Proof.
  unfold FloatText.digits_of, NilZero.string_of_uint.
  destruct (N.to_uint (Z.to_N z)) eqn:E; try done; rewrite <- E; apply all_chars_uint.
Qed.

Lemma digit_number_char c : FloatText.is_digit c = true -> number_char c = true.
Proof. unfold number_char. by intros ->. Qed.

Lemma layout_chars ds decpt :
  all_chars FloatText.is_digit ds = true ->
  all_chars number_char (FloatText.layout ds decpt) = true.
Proof.
  intros Hds.
  assert (Hn : all_chars number_char ds = true)
    by (eapply all_chars_mono; [apply digit_number_char|done]).
  assert (Hz : forall n, all_chars number_char (FloatText.zeros n) = true).
  { intros n. eapply all_chars_mono; [apply digit_number_char|apply all_chars_zeros]. }
  unfold FloatText.layout.
  destruct (_ && _)%bool.
  - destruct (decpt <=? 0)%Z.
    + rewrite !all_chars_app, Hz, Hn. done.
    + destruct (decpt <? _)%Z.
      * rewrite !all_chars_app, !all_chars_substring by done. done.
      * rewrite !all_chars_app, Hz, Hn. done.
  - rewrite !all_chars_app.
    assert (Hd : all_chars number_char (FloatText.digits_of (Z.abs (decpt - 1))) = true).
    { eapply all_chars_mono; [apply digit_number_char|apply all_chars_digits_of]. }
    assert (Hm : all_chars number_char
                   match ds with
                   | "" => ""
                   | String d "" => String d ""
                   | String d (String _ _ as rest) => String d ("." ++ rest)
                   end = true).
    { destruct ds as [|d [|d' rest]]; [done..|].
      simpl in Hn. apply andb_prop in Hn as [H1 H2].
      rewrite append_cons. simpl. by rewrite H1, H2. }
    rewrite Hm. simpl.
    destruct (decpt - 1 <? 0)%Z; simpl;
      destruct (_ <? 2)%nat; rewrite ?all_chars_app, Hd; done.
Qed.

(** [str] of a float holds nothing but the characters of a number. *)
Lemma str_chars x : all_chars number_char (FloatText.str x) = true.
Proof.
  unfold FloatText.str. destruct (Prim2SF x) as [s|s| |s m e]; try by destruct s.
  - done.
  - destruct (FloatText.shortest _ _ _ _ _ _) as [D p].
    rewrite all_chars_app.
    rewrite layout_chars by apply all_chars_rstrip_zeros, all_chars_digits_of.
    by destruct s.
Qed.

Lemma app_nonempty_r (a b : string) : b <> "" -> (a ++ b)%string <> "".
Proof. intros Hb. destruct a; [done|]. by rewrite append_cons. Qed.

Lemma layout_nonempty ds decpt : FloatText.layout ds decpt <> "".
Proof.
  unfold FloatText.layout. destruct (_ && _)%bool.
  - destruct (decpt <=? 0)%Z; [done|].
    destruct (decpt <? _)%Z.
    + apply app_nonempty_r. done.
    + do 2 apply app_nonempty_r. done.
  - apply app_nonempty_r. done.
Qed.

Lemma str_nonempty x : FloatText.str x <> "".
Proof.
  unfold FloatText.str. destruct (Prim2SF x) as [s|s| |s m e]; try by destruct s.
  - done.
  - destruct (FloatText.shortest _ _ _ _ _ _) as [D p].
    apply app_nonempty_r, layout_nonempty.
Qed.

(** A character of a number is no whitespace and starts no comment. *)
Lemma number_char_plain c :
  number_char c = true ->
  not_space c = true /\ not_char "#" c = true /\ not_char ";" c = true /\
  not_char "010" c = true.
Proof.
  destruct c as [[] [] [] [] [] [] [] []]; vm_compute; intros H; try done.
Qed.

End CharFacts.

(** * Reading what was written *)

Module ReadFacts.
Import TextFacts CharFacts.

(** A column: not empty and without whitespace. *)
Definition token (t : string) : Prop := t <> "" /\ all_chars not_space t = true.

Lemma split_ws_from_token t :
  all_chars not_space t = true ->
  forall cur s,
    PyStr.split_ws_from cur (t ++ s)
    = PyStr.split_ws_from (rev (list_ascii_of_string t) ++ cur) s.
Proof.
  induction t as [|c t IH]; intros Ht cur s; [done|].
  simpl in Ht. apply andb_prop in Ht as [Hc Ht].
  rewrite append_cons. simpl PyStr.split_ws_from at 1.
  unfold not_space in Hc. apply negb_true_iff in Hc. rewrite Hc.
  rewrite (IH Ht). simpl. by rewrite <- app_assoc.
Qed.

(** A column followed by whitespace is the first column. *)
Lemma split_ws_token_space t w s :
  token t -> PyStr.isspace w = true ->
  PyStr.split_ws (t ++ String w s) = t :: PyStr.split_ws s.
Proof.
  intros [Hne Ht] Hw. unfold PyStr.split_ws.
  rewrite (split_ws_from_token t Ht). rewrite app_nil_r.
  simpl. rewrite Hw.
  destruct (rev (list_ascii_of_string t)) as [|a l] eqn:E.
  - apply (f_equal (@rev ascii)) in E. rewrite rev_involutive in E. simpl in E.
    apply (f_equal string_of_list_ascii) in E.
    rewrite string_of_list_ascii_of_string in E. done.
  - rewrite <- E, rev_involutive, string_of_list_ascii_of_string. done.
Qed.

(** A column at the end of the text is the last column. *)
Lemma split_ws_token t : token t -> PyStr.split_ws t = [t].
Proof.
  intros [Hne Ht]. unfold PyStr.split_ws.
  rewrite <- (append_nil_r t) at 1.
  rewrite (split_ws_from_token t Ht). rewrite app_nil_r. simpl.
  destruct (rev (list_ascii_of_string t)) as [|a l] eqn:E.
  - apply (f_equal (@rev ascii)) in E. rewrite rev_involutive in E. simpl in E.
    apply (f_equal string_of_list_ascii) in E.
    rewrite string_of_list_ascii_of_string in E. done.
  - rewrite <- E, rev_involutive, string_of_list_ascii_of_string. done.
Qed.

(** Whitespace before the first column is passed over. *)
Lemma split_ws_space w s :
  PyStr.isspace w = true -> PyStr.split_ws (String w s) = PyStr.split_ws s.
Proof. intros Hw. unfold PyStr.split_ws. simpl. by rewrite Hw. Qed.

(** A comment does not start inside a text that has no comment
    character. *)
Lemma before_app c t s :
  all_chars (not_char c) t = true ->
  PyStr.before c (t ++ s) = (t ++ PyStr.before c s)%string.
Proof.
  induction t as [|x t IH]; intros Ht; [done|].
  simpl in Ht. apply andb_prop in Ht as [Hx Ht].
  rewrite !append_cons. simpl. unfold not_char in Hx. apply negb_true_iff in Hx.
  by rewrite Hx, (IH Ht).
Qed.

Lemma before_cons c x s :
  Ascii.eqb x c = false -> PyStr.before c (String x s) = String x (PyStr.before c s).
Proof. intros H. simpl. by rewrite H. Qed.

(** The text of a number is a column without comment character. *)
Lemma str_token x : token (FloatText.str x).
Proof.
  split; [apply str_nonempty|].
  eapply all_chars_mono; [|apply str_chars]. intros c Hc.
  by apply number_char_plain in Hc as (? & _).
Qed.

Lemma str_no_char x c :
  (c = "#" \/ c = ";" \/ c = "010")%char -> all_chars (not_char c) (FloatText.str x) = true.
Proof.
  intros Hc. eapply all_chars_mono; [|apply str_chars]. intros a Ha.
  apply number_char_plain in Ha as (_ & H1 & H2 & H3).
  by destruct Hc as [->|[->| ->]].
Qed.

(** Stripping and splitting keep characters. *)
Lemma all_chars_lstrip P s : all_chars P s = true -> all_chars P (PyStr.lstrip s) = true.
Proof.
  induction s as [|c s IH]; [done|]. simpl. intros H.
  destruct (PyStr.isspace c); [|done]. apply andb_prop in H as [_ H]. by apply IH.
Qed.

Lemma all_chars_rstrip P s : all_chars P s = true -> all_chars P (PyStr.rstrip s) = true.
Proof.
  induction s as [|c s IH]; [done|]. simpl. intros [Hc Hs]%andb_prop.
  destruct (_ && _)%bool; [done|]. simpl. by rewrite Hc, IH.
Qed.

Lemma all_chars_split P sep s :
  all_chars P s = true -> Forall (fun f => all_chars P f = true) (PyStr.split sep s).
Proof.
  induction s as [|c s IH]; simpl; [by repeat constructor|].
  intros [Hc Hs]%andb_prop. specialize (IH Hs).
  destruct (Ascii.eqb c sep).
  - by constructor.
  - destruct (PyStr.split sep s) as [|f fs]; [by repeat constructor; simpl; rewrite Hc|].
    apply Forall_cons in IH as [Hf Hfs]. constructor; [|done]. simpl. by rewrite Hc, Hf.
Qed.

Lemma all_chars_join P sep l :
  all_chars P sep = true -> Forall (fun f => all_chars P f = true) l ->
  all_chars P (PyStr.join sep l) = true.
Proof.
  intros Hsep. induction l as [|x l IH]; [done|].
  intros [Hx Hl]%Forall_cons. destruct l as [|y l]; [done|].
  change (PyStr.join sep (x :: y :: l)) with (x ++ sep ++ PyStr.join sep (y :: l))%string.
  rewrite !all_chars_app, Hx, Hsep, IH; done.
Qed.

(** Trailing whitespace does not matter to [strip]. *)
Lemma rstrip_snoc_space s w :
  PyStr.isspace w = true -> PyStr.rstrip (s ++ String w "") = PyStr.rstrip s.
Proof.
  intros Hw. induction s as [|c s IH].
  - simpl. by rewrite Hw.
  - rewrite append_cons. simpl. by rewrite IH.
Qed.

Lemma lstrip_snoc_space s w :
  PyStr.isspace w = true ->
  PyStr.lstrip (s ++ String w "")
  = match PyStr.lstrip s with
    | "" => ""
    | t => (t ++ String w "")%string
    end.
Proof.
  intros Hw. induction s as [|c s IH].
  - simpl. by rewrite Hw.
  - rewrite append_cons. simpl. destruct (PyStr.isspace c); [done|].
    by rewrite append_cons.
Qed.

Lemma strip_snoc_space s w :
  PyStr.isspace w = true -> PyStr.strip (s ++ String w "") = PyStr.strip s.
Proof.
  intros Hw. unfold PyStr.strip. rewrite (lstrip_snoc_space s w Hw).
  destruct (PyStr.lstrip s) as [|c t] eqn:E; [done|].
  by rewrite rstrip_snoc_space.
Qed.

(** A line as [readlines] returns it: without newline, except for one at
    its end. *)
Definition terminated (line : string) : Prop :=
  exists body, line = (body ++ nl)%string /\ no_nl body.

Definition line_ok (line : string) : Prop :=
  terminated line \/ no_nl line.

Lemma no_nl_of_list cur :
  Forall (fun c => not_char "010" c = true) cur ->
  no_nl (string_of_list_ascii (rev cur)).
Proof.
  intros H. apply Forall_rev in H. unfold no_nl.
  induction H as [|c l Hc _ IH]; [done|]. simpl. by rewrite Hc, IH.
Qed.

(** Every line that [readlines] returns but the last ends with its
    newline, and the last may. *)
Lemma readlines_from_lines s :
  forall cur, Forall (fun c => not_char "010" c = true) cur ->
    forall i line, PyStr.readlines_from cur s !! i = Some line ->
      line_ok line /\ (S i < length (PyStr.readlines_from cur s) -> terminated line).
Proof.
  induction s as [|c s IH]; intros cur Hcur i line Hi; simpl in *.
  - destruct cur as [|a cur']; [done|].
    destruct i as [|i]; [|done]. injection Hi as <-.
    split; [right; by apply (no_nl_of_list (a :: cur'))|]. simpl. lia.
  - destruct (Ascii.eqb c "010") eqn:Hc.
    + apply Ascii.eqb_eq in Hc as ->.
      assert (Hline : terminated (string_of_list_ascii (rev ("010"%char :: cur)))).
      { exists (string_of_list_ascii (rev cur)). split; [|by apply no_nl_of_list].
        simpl. by rewrite string_of_list_ascii_snoc. }
      destruct i as [|i]; simpl in Hi.
      * injection Hi as <-. split; [by left|done].
      * destruct (IH [] ltac:(constructor) i line Hi) as [Hok Hterm].
        split; [done|]. simpl. intros ?. apply Hterm. lia.
    + apply (IH (c :: cur)); [|done]. constructor; [|done].
      unfold not_char. by rewrite Hc.
Qed.

Lemma readlines_lines s i line :
  PyStr.readlines s !! i = Some line ->
  line_ok line /\ (S i < length (PyStr.readlines s) -> terminated line).
Proof. apply readlines_from_lines. constructor. Qed.

(** A stripped line has no newline. *)
Lemma strip_no_nl line : line_ok line -> no_nl (PyStr.strip line).
Proof.
  intros [(body & -> & Hb)|Hl].
  - unfold nl. rewrite strip_snoc_space by done.
    by apply all_chars_rstrip, all_chars_lstrip.
  - by apply all_chars_rstrip, all_chars_lstrip.
Qed.

(** Reading the lines of a text that was written from terminated lines
    gives these lines. *)
Lemma readlines_from_body body :
  no_nl body ->
  forall cur s,
    PyStr.readlines_from cur (body ++ s)
    = PyStr.readlines_from (rev (list_ascii_of_string body) ++ cur) s.
Proof.
  induction body as [|c body IH]; intros Hb cur s; [done|].
  unfold no_nl in Hb. simpl in Hb. apply andb_prop in Hb as [Hc Hb].
  rewrite append_cons. simpl PyStr.readlines_from at 1.
  unfold not_char in Hc. apply negb_true_iff in Hc. rewrite Hc.
  rewrite (IH Hb). simpl. by rewrite <- app_assoc.
Qed.

Lemma readlines_writelines out :
  Forall terminated out -> PyStr.readlines (PyStr.writelines out) = out.
Proof.
  unfold PyStr.readlines, PyStr.writelines.
  induction 1 as [|line out (body & -> & Hb) _ IH]; [done|].
  rewrite concat_cons, append_assoc.
  rewrite (readlines_from_body body Hb). rewrite app_nil_r.
  unfold nl. rewrite append_cons. simpl PyStr.readlines_from at 1.
  change ("" ++ String.concat "" out)%string with (String.concat "" out).
  rewrite IH. f_equal.
  rewrite rev_involutive.
  by rewrite string_of_list_ascii_snoc, string_of_list_ascii_of_string.
Qed.

End ReadFacts.

(** [float(str(v))] is [v]. *)
Definition reads_back (v : float) : Prop :=
  FloatText.float_of_str (FloatText.str v) = Some v.

Definition row_reads_back (x : row) : Prop :=
  reads_back (radius x) /\ reads_back (chord x) /\ reads_back (rel_thickness x).

(** The line the script writes for a section. *)
Definition ae_row_line (x : row) (rest : list string) : string :=
  (PyStr.join tab (FloatText.str (radius x) :: FloatText.str (chord x) ::
                   FloatText.str (rel_thickness x) :: rest) ++ nl)%string.

Module WrittenFacts.
Import TextFacts CharFacts ReadFacts.

Lemma tab_app (s : string) : (tab ++ s)%string = String "009" s.
Proof. reflexivity. Qed.

(** The first three columns of a written row are its three numbers. *)
Lemma written_row_columns sa sb sc rest :
  token sa -> token sb -> token sc ->
  all_chars (not_char "#") sa = true ->
  all_chars (not_char "#") sb = true ->
  all_chars (not_char "#") sc = true ->
  exists cs,
    NumPyIO.columns "#" (PyStr.join tab (sa :: sb :: sc :: rest) ++ nl)
    = sa :: sb :: sc :: cs.
Proof.
  intros Ta Tb Tc Ha Hb Hc.
  assert (Hshape : exists w Y, PyStr.isspace w = true /\ Ascii.eqb w "#" = false /\
            (PyStr.join tab (sa :: sb :: sc :: rest) ++ nl)%string
            = (sa ++ String "009" (sb ++ String "009" (sc ++ String w Y)))%string).
  { destruct rest as [|r rest].
    - exists "010"%char, "". split; [done|]. split; [done|].
      change (PyStr.join tab [sa; sb; sc]) with (sa ++ tab ++ sb ++ tab ++ sc)%string.
      by rewrite !append_assoc, !tab_app.
    - exists "009"%char, (PyStr.join tab (r :: rest) ++ nl)%string.
      split; [done|]. split; [done|].
      change (PyStr.join tab (sa :: sb :: sc :: r :: rest))
        with (sa ++ tab ++ sb ++ tab ++ sc ++ tab ++ PyStr.join tab (r :: rest))%string.
      by rewrite !append_assoc, !tab_app. }
  destruct Hshape as (w & Y & Hw & Hw' & ->).
  exists (PyStr.split_ws (PyStr.before "#" Y)). unfold NumPyIO.columns.
  rewrite (before_app "#" sa) by done. rewrite before_cons by done.
  rewrite (before_app "#" sb) by done. rewrite before_cons by done.
  rewrite (before_app "#" sc) by done. rewrite before_cons by done.
  rewrite (split_ws_token_space sa) by done.
  rewrite (split_ws_token_space sb) by done.
  by rewrite (split_ws_token_space sc).
Qed.

(** [np.loadtxt] reads the written rows as the sections they were written
    from. *)
Lemma loadtxt_rows_written lines (working_mat : list row) :
  Forall2 (fun line x => exists rest, line = ae_row_line x rest) lines working_mat ->
  Forall row_reads_back working_mat ->
  NumPyIO.loadtxt_rows lines
  = Ok ((fun x => (radius x, chord x, rel_thickness x)) <$> working_mat).
Proof.
  induction 1 as [|line x lines wm [rest ->] _ IH]; [done|].
  intros [(Hr & Hc & Ht) Hwm]%Forall_cons. simpl NumPyIO.loadtxt_rows.
  destruct (written_row_columns (FloatText.str (radius x)) (FloatText.str (chord x))
              (FloatText.str (rel_thickness x)) rest) as [cs Hcols];
    try apply str_token; try (apply str_no_char; by left).
  unfold ae_row_line. rewrite Hcols.
  unfold reads_back in *. rewrite Hr, Hc, Ht, (IH Hwm). done.
Qed.

(** A written row is a terminated line when its kept fields have no
    newline. *)
Lemma ae_row_line_terminated x rest :
  Forall no_nl rest -> terminated (ae_row_line x rest).
Proof.
  intros Hrest. eexists. split; [reflexivity|].
  apply all_chars_join; [done|].
  repeat (constructor; [apply str_no_char; by right; right|]). done.
Qed.

End WrittenFacts.

(** X17: What the script writes to the new [ae.dat] file, its own reader reads
    back: when every line of the original after the two header lines is the
    line of a section, and [float(str(v))] is [v] for the radius, chord and
    relative thickness of every section, [np.loadtxt] with [skiprows=2] on
    the new file (lines 208-220 followed by line 32) returns the radius,
    chord and relative thickness of [working_mat], row by row. *)
Theorem new_ae_file_reads_back st (working_mat : list row) text out :
  ae_start_line st = 2 ->
  length (PyStr.readlines text) = 2 + length working_mat ->
  Forall row_reads_back working_mat ->
  ae_written st working_mat (PyStr.readlines text) out ->
  NumPyIO.loadtxt 2 (PyStr.writelines out)
  = Ok ((fun x => (radius x, chord x, rel_thickness x)) <$> working_mat).
Proof.
  intros Hstart Hlen Hback [Hlout Hout].
  assert (Hdata : forall k x, working_mat !! k = Some x ->
            exists rest, Forall CharFacts.no_nl rest /\
              out !! (2 + k) = Some (ae_row_line x rest)).
  { intros k x Hx. pose proof (lookup_lt_Some _ _ _ Hx) as Hk.
    destruct (lookup_lt_is_Some_2 (PyStr.readlines text) (2 + k)) as [line Hline]; [lia|].
    destruct (Hout _ line Hline) as [_ Hrow].
    destruct Hrow as (x' & f0 & f1 & f2 & rest & Hx' & Hsplit & Ho); [lia|].
    rewrite Hstart in Hx'. replace (2 + k - 2) with k in Hx' by lia.
    rewrite Hx in Hx'. injection Hx' as <-.
    exists rest. split; [|done].
    destruct (ReadFacts.readlines_lines text _ line Hline) as [Hok _].
    apply ReadFacts.strip_no_nl in Hok.
    apply (ReadFacts.all_chars_split _ "009") in Hok. rewrite Hsplit in Hok.
    by do 3 apply Forall_cons in Hok as [_ Hok]. }
  assert (Hrows : Forall2 (fun line x => exists rest, line = ae_row_line x rest)
                    (drop 2 out) working_mat).
  { apply Forall2_same_length_lookup. split; [rewrite length_drop; lia|].
    intros k line x Hk Hx. rewrite lookup_drop in Hk.
    destruct (Hdata k x Hx) as (rest & _ & Ho). rewrite Ho in Hk.
    injection Hk as <-. eauto. }
  assert (Hterm : working_mat <> [] -> Forall ReadFacts.terminated out).
  { intros Hne. apply Forall_lookup. intros i line Hi.
    destruct (decide (i < 2)) as [Hlt|Hge].
    - destruct (lookup_lt_is_Some_2 (PyStr.readlines text) i) as [line0 Hline0]; [lia|].
      destruct (Hout _ line0 Hline0) as [Hkeep _].
      rewrite Hkeep in Hi by lia. injection Hi as <-.
      apply (ReadFacts.readlines_lines text i line0 Hline0).
      destruct working_mat; [done|]. simpl in Hlen. lia.
    - destruct (lookup_lt_is_Some_2 working_mat (i - 2)) as [x Hx].
      { apply lookup_lt_Some in Hi. lia. }
      destruct (Hdata _ x Hx) as (rest & Hrest & Ho).
      replace (2 + (i - 2)) with i in Ho by lia. rewrite Ho in Hi.
      injection Hi as <-. by apply WrittenFacts.ae_row_line_terminated. }
  unfold NumPyIO.loadtxt.
  destruct (decide (working_mat = [])) as [->|Hne].
  - simpl in *. rewrite drop_ge; [done|].
    assert (out = PyStr.readlines text) as ->.
    { apply list_eq. intros i. destruct (PyStr.readlines text !! i) as [line|] eqn:Hline.
      - destruct (Hout _ line Hline) as [Hkeep _]. apply Hkeep.
        apply lookup_lt_Some in Hline. lia.
      - apply lookup_ge_None. apply lookup_ge_None in Hline. lia. }
    assert (PyStr.writelines (PyStr.readlines text) = text) as ->
      by apply (TextFacts.writelines_readlines_from text []).
    simpl in Hlen. lia.
  - rewrite (ReadFacts.readlines_writelines out (Hterm Hne)).
    by apply WrittenFacts.loadtxt_rows_written.
Qed.

(** Witness: the rows of the small blade after the root chord shift. *)
Lemma new_ae_file_reads_back_witness :
  let wm := [Row 0 (-78.5) 4.38 100; Row 50 (-40) 3.5 50; Row 100 (-3) 3 24.1]%float in
  exists out,
    enumerate_lines (ae_turn Example.st wm) 0 (PyStr.readlines Example.ae_text)
      (PyStr.readlines Example.ae_text) = Ok out /\
    Forall row_reads_back wm /\
    NumPyIO.loadtxt 2 (PyStr.writelines out)
    = Ok ((fun x => (radius x, chord x, rel_thickness x)) <$> wm).
Proof.
  intros wm.
  destruct (enumerate_lines (ae_turn Example.st wm) 0 (PyStr.readlines Example.ae_text)
              (PyStr.readlines Example.ae_text)) as [out|e] eqn:Hrun;
    [|vm_compute in Hrun; discriminate].
  assert (Hback : Forall row_reads_back wm).
  { repeat (apply Forall_cons_2; [split_and!; vm_compute; reflexivity|]).
    apply Forall_nil_2. }
  assert (Hlen : length (PyStr.readlines Example.ae_text) = 2 + length wm)
    by (vm_compute; reflexivity).
  exists out. split; [reflexivity|]. split; [exact Hback|].
  exact (new_ae_file_reads_back Example.st wm Example.ae_text out eq_refl Hlen Hback
           (ae_written_intro Example.st wm _ out Hrun)).
Defined.

(** The line the script writes for line [line] of the twist sub-table with
    the twist [tw] (lines 190-196). *)
Definition htc_row_line (line : string) (tw : float) : string :=
  (tab ++ tab ++ PyStr.join " " (<[4 := (FloatText.str tw ++ ";" ++ nl)%string]>
                                  (htc_fields line)))%string.

Module ColumnFacts.
Import TextFacts CharFacts ReadFacts.

(** Whitespace separates the columns before it from those after it. *)
Lemma split_ws_from_app_space a w s :
  PyStr.isspace w = true ->
  forall cur,
    PyStr.split_ws_from cur (a ++ String w s)
    = PyStr.split_ws_from cur a ++ PyStr.split_ws_from [] s.
Proof.
  intros Hw. induction a as [|c a IH]; intros cur.
  - simpl. by rewrite Hw.
  - rewrite append_cons. simpl. destruct (PyStr.isspace c).
    + by rewrite IH, app_assoc.
    + apply IH.
Qed.

Lemma join_cons2 sep (x y : string) l :
  PyStr.join sep (x :: y :: l) = (x ++ sep ++ PyStr.join sep (y :: l))%string.
Proof. reflexivity. Qed.

Lemma blank_app (s : string) : (" " ++ s)%string = String " " s.
Proof. reflexivity. Qed.

End ColumnFacts.



(** A line whose six columns are parted by single blanks only has six
    fields: the script puts the new twist in the place of the fifth, the
    radius, and the reader finds five columns in the new line. *)
Example blank_separated_htc_line :
  let line := ("  sec 2 0.0 0.0 50.0 -8.0;" ++ nl)%string in
  NumPyIO.columns ";" line = ["sec"; "2"; "0.0"; "0.0"; "50.0"; "-8.0"] /\
  htc_row_line line (-40)
  = (tab ++ tab ++ "sec 2 0.0 0.0 -40.0;" ++ nl ++ " -8.0;")%string /\
  NumPyIO.columns ";" (htc_row_line line (-40)) = ["sec"; "2"; "0.0"; "0.0"; "-40.0"].
Proof. repeat split; vm_compute; reflexivity. Qed.
